(** * Chronos-ITCH: limit order book and ITCH 5.0 field decoding

    A shallow embedding of [include/book/*.hpp] (order pool, intrusive
    list, price levels, order book with matching), of the field accessors
    of [include/itch/compat.hpp] and [include/itch/messages.hpp] and of
    the packet offset detection of [src/python_bindings.cpp], followed by
    the properties proved about them.

    Conventions.
    - [uint64_t], [uint32_t], [uint16_t] and [uint8_t] values are integers
      of [Z]; every addition, subtraction and left shift of the source is
      followed by the reduction modulo the width of its type.
    - An [Order*] is the index of its slot in the pool's [buffer_]; the
      fields of an order are read and written through that index, so the
      identifier index, the price levels and the pool all refer to one
      shared object, as in the source.
    - Inside the book an [IntrusiveList<Order>] is represented by the
      sequence of slots met when following [next] from the sentinel.  The
      [prev]/[next] pointers themselves are embedded in
      [IntrusiveListPtr], where each operation of the list is shown to
      act on that sequence.
    - A [std::vector<PriceLevel>] is a list; moving a level (on [insert]
      and [erase]) carries its queue along unchanged. *)

From Stdlib Require Import ZArith Lia.
From Stdlib.Strings Require Import Ascii String Byte.
From stdpp Require Import base numbers option list gmap sorting.

Local Open Scope Z_scope.

(** ** Fixed-width arithmetic *)

Definition wrap16 (x : Z) : Z := x mod 2 ^ 16.
Definition wrap32 (x : Z) : Z := x mod 2 ^ 32.
Definition wrap64 (x : Z) : Z := x mod 2 ^ 64.

Definition is_u32 (x : Z) : Prop := 0 <= x < 2 ^ 32.
Definition is_u64 (x : Z) : Prop := 0 <= x < 2 ^ 64.

(** ** types.hpp *)

(** [enum class Side : char { Buy = 'B', Sell = 'S' }] *)
Inductive Side : Set := Buy | Sell.

Definition Side_to_char (s : Side) : ascii :=
  match s with Buy => "B"%char | Sell => "S"%char end.

Module Order.

(** [struct Order : IntrusiveNode]; the link fields live in the
    representation of the queue that holds the order. *)
Record t : Set := mk { id : Z; price : Z; qty : Z; side : ascii }.

(** A value-initialised slot of the pool's buffer. *)
Definition zero : t := mk 0 0 0 Ascii.zero.

Definition is_buy (o : t) : bool := Ascii.eqb (side o) "B".
Definition is_sell (o : t) : bool := Ascii.eqb (side o) "S".

(** [reduce_qty]: the order after the fill (the source returns the new
    quantity, which no caller reads). *)
Definition reduce_qty (fill_qty : Z) (o : t) : t :=
  if fill_qty >=? qty o
  then mk (id o) (price o) 0 (side o)
  else mk (id o) (price o) (wrap32 (qty o - fill_qty)) (side o).

Definition is_filled (o : t) : bool := qty o =? 0.

End Order.

#[global] Instance Order_inhabited : Inhabited Order.t := populate Order.zero.

(** ** memory_pool.hpp *)

Module MemPool.

(** [free_list_[0 .. free_count_-1]] holds the free slot indices. *)
Record t : Type := mk {
  buffer_ : list Order.t;
  free_list_ : list nat;
  free_count_ : nat
}.

(** [MemPool()]: [free_list_[i] = Capacity - 1 - i]. *)
Definition init (Capacity : nat) : t :=
  mk (replicate Capacity Order.zero)
     ((fun i => Capacity - 1 - i)%nat <$> seq 0 Capacity)
     Capacity.

Definition available (p : t) : nat := free_count_ p.

(** [capacity()], [allocated()], [empty()] and [full()]; [Capacity] is
    the template argument, and [allocated] subtracts in [size_t]. *)
Definition capacity (Capacity : nat) : nat := Capacity.

Definition allocated (Capacity : nat) (p : t) : Z :=
  wrap64 (Z.of_nat Capacity - Z.of_nat (free_count_ p)).

Definition empty (Capacity : nat) (p : t) : bool :=
  (free_count_ p =? Capacity)%nat.

Definition full (p : t) : bool := (free_count_ p =? 0)%nat.

(** [allocate]: [None] is the null pointer. *)
Definition allocate (p : t) : option nat * t :=
  match free_count_ p with
  | O => (None, p)
  | S n => (Some (free_list_ p !!! n), mk (buffer_ p) (free_list_ p) n)
  end.

(** [deallocate]: the slot index is pushed on the free stack.  The
    source writes [free_list_[free_count_]] unchecked; a write past the
    end (undefined in the source) leaves the list as it is here. *)
Definition deallocate (ptr : nat) (p : t) : t :=
  mk (buffer_ p) (<[free_count_ p := ptr]> (free_list_ p))
     (S (free_count_ p)).

(** Reading and writing the order a pointer designates. *)
Definition deref (p : t) (ptr : nat) : Order.t := buffer_ p !!! ptr.

Definition store (ptr : nat) (o : Order.t) (p : t) : t :=
  mk (<[ptr := o]> (buffer_ p)) (free_list_ p) (free_count_ p).

End MemPool.

(** ** intrusive_list.hpp *)

Module IntrusiveList.

Definition t : Type := list nat.

Definition empty (l : t) : bool :=
  match l with [] => true | _ :: _ => false end.

Definition push_back (elem : nat) (l : t) : t := l ++ [elem].

(** [remove]: the node is unlinked from its neighbours; the other
    nodes keep their order. *)
Definition remove (elem : nat) (l : t) : t :=
  filter (fun x => x <> elem) l.

(** [pop_front] unlinks [head_.next]. *)
Definition pop_front (l : t) : t := tail l.

End IntrusiveList.

(** ** price_level.hpp *)

Module PriceLevel.

Record t : Type := mk {
  price : Z;
  orders : IntrusiveList.t;
  total_volume : Z
}.

(** [explicit PriceLevel(uint64_t level_price)] *)
Definition new (level_price : Z) : t := mk level_price [] 0.

Definition empty (l : t) : bool := IntrusiveList.empty (orders l).

Definition add_order (pool : MemPool.t) (order : nat) (l : t) : t :=
  mk (price l)
     (IntrusiveList.push_back order (orders l))
     (wrap64 (total_volume l + Order.qty (MemPool.deref pool order))).

Definition remove_order (pool : MemPool.t) (order : nat) (l : t) : t :=
  let q := Order.qty (MemPool.deref pool order) in
  mk (price l)
     (IntrusiveList.remove order (orders l))
     (if q <=? total_volume l then wrap64 (total_volume l - q) else 0).

Definition reduce_volume (filled_qty : Z) (l : t) : t :=
  mk (price l) (orders l)
     (if filled_qty <=? total_volume l
      then wrap64 (total_volume l - filled_qty) else 0).

End PriceLevel.

(** ** order_book.hpp *)

Module Execution.

Record t : Set := mk {
  maker_id : Z;
  taker_id : Z;
  price : Z;
  qty : Z;
  maker_side : Side
}.

End Execution.

Module OrderBook.

(** [pool_] is a reference in the source; the pool is used by this book
    only, so its state is carried in the book's. *)
Record t : Type := mk {
  bids_ : list PriceLevel.t;
  asks_ : list PriceLevel.t;
  order_map_ : gmap Z nat;
  pool_ : MemPool.t
}.

(** [OrderBook(PoolType &pool)] on a freshly constructed pool. *)
Definition init (Capacity : nat) : t := mk [] [] ∅ (MemPool.init Capacity).

(** *** Matching *)

(** What a matching loop hands back: the quantity left, the level (or
    ladder) it worked on, the identifier index, the pool, and the
    executions passed to [on_execution], oldest first.  [on_execution]
    is [true] when the callback pointer is not null. *)
Record matched (A : Type) : Type := Matched {
  m_remaining : Z;
  m_target : A;
  m_index : gmap Z nat;
  m_pool : MemPool.t;
  m_reported : list Execution.t
}.
Arguments Matched {A} _ _ _ _ _.
Arguments m_remaining {A} _.
Arguments m_target {A} _.
Arguments m_index {A} _.
Arguments m_pool {A} _.
Arguments m_reported {A} _.

Definition report {A} (es : list Execution.t) (r : matched A) : matched A :=
  Matched (m_remaining r) (m_target r) (m_index r) (m_pool r)
    (es ++ m_reported r).

(** The loop of [match_at_level], by recursion on the queue of the
    level: [maker] is [level.orders.front()] and [rest] is the queue after
    [pop_front].  An iteration that leaves the maker in the queue filled
    it with [fill_qty < maker.qty], hence [fill_qty = remaining]: the
    quantity left is [0] and the guard of the [while] ends the loop
    (lemma [match_at_level_loop_done]). *)
Fixpoint match_at_level_loop (queue : IntrusiveList.t)
    (level_price total_volume : Z) (taker_id remaining : Z)
    (maker_side : Side) (on_execution : bool)
    (order_map : gmap Z nat) (pool : MemPool.t)
    : matched PriceLevel.t :=
  match queue with
  | [] =>
      Matched remaining (PriceLevel.mk level_price [] total_volume)
              order_map pool []
  | maker :: rest =>
      if remaining >? 0 then
        let m := MemPool.deref pool maker in
        let fill_qty := Z.min remaining (Order.qty m) in
        let exec :=
          if on_execution
          then [Execution.mk (Order.id m) taker_id level_price fill_qty
                             maker_side]
          else [] in
        let remaining' := wrap32 (remaining - fill_qty) in
        let level' :=
          PriceLevel.reduce_volume fill_qty
            (PriceLevel.mk level_price queue total_volume) in
        let m' := Order.reduce_qty fill_qty m in
        let pool' := MemPool.store maker m' pool in
        if Order.is_filled m' then
          report exec
            (match_at_level_loop rest level_price
               (PriceLevel.total_volume level') taker_id remaining'
               maker_side on_execution
               (delete (Order.id m') order_map)
               (MemPool.deallocate maker pool'))
        else
          Matched remaining' level' order_map pool' exec
      else
        Matched remaining (PriceLevel.mk level_price queue total_volume)
                order_map pool []
  end.

Definition match_at_level (level : PriceLevel.t) (taker_id qty : Z)
    (maker_side : Side) (on_execution : bool)
    (order_map : gmap Z nat) (pool : MemPool.t) : matched PriceLevel.t :=
  match_at_level_loop (PriceLevel.orders level) (PriceLevel.price level)
    (PriceLevel.total_volume level) taker_id qty maker_side on_execution
    order_map pool.

(** The loop of [match_buy], by recursion on [asks_]: [level] is
    [asks_.front()] and [rest] is the ladder after [erase(begin())].  When
    the front level is not empty after [match_at_level], nothing is left
    to fill and the guard of the [while] ends the loop (lemma
    [match_at_level_done]). *)
Fixpoint match_buy_loop (asks : list PriceLevel.t)
    (taker_id price remaining : Z) (on_execution : bool)
    (order_map : gmap Z nat) (pool : MemPool.t)
    : matched (list PriceLevel.t) :=
  match asks with
  | [] => Matched remaining [] order_map pool []
  | level :: rest =>
      if remaining >? 0 then
        if price <? PriceLevel.price level then
          Matched remaining asks order_map pool []
        else
          let r := match_at_level level taker_id remaining Sell
                     on_execution order_map pool in
          if PriceLevel.empty (m_target r) then
            report (m_reported r)
              (match_buy_loop rest taker_id price (m_remaining r)
                 on_execution (m_index r) (m_pool r))
          else
            Matched (m_remaining r) (m_target r :: rest) (m_index r)
                    (m_pool r) (m_reported r)
      else Matched remaining asks order_map pool []
  end.

Fixpoint match_sell_loop (bids : list PriceLevel.t)
    (taker_id price remaining : Z) (on_execution : bool)
    (order_map : gmap Z nat) (pool : MemPool.t)
    : matched (list PriceLevel.t) :=
  match bids with
  | [] => Matched remaining [] order_map pool []
  | level :: rest =>
      if remaining >? 0 then
        if price >? PriceLevel.price level then
          Matched remaining bids order_map pool []
        else
          let r := match_at_level level taker_id remaining Buy
                     on_execution order_map pool in
          if PriceLevel.empty (m_target r) then
            report (m_reported r)
              (match_sell_loop rest taker_id price (m_remaining r)
                 on_execution (m_index r) (m_pool r))
          else
            Matched (m_remaining r) (m_target r :: rest) (m_index r)
                    (m_pool r) (m_reported r)
      else Matched remaining bids order_map pool []
  end.

(** [match_buy] and [match_sell]: the quantity left, the book after the
    loop and the executions reported. *)
Definition match_buy (b : t) (taker_id price qty : Z)
    (on_execution : bool) : Z * t * list Execution.t :=
  let r := match_buy_loop (asks_ b) taker_id price qty on_execution
             (order_map_ b) (pool_ b) in
  (m_remaining r, mk (bids_ b) (m_target r) (m_index r) (m_pool r),
   m_reported r).

Definition match_sell (b : t) (taker_id price qty : Z)
    (on_execution : bool) : Z * t * list Execution.t :=
  let r := match_sell_loop (bids_ b) taker_id price qty on_execution
             (order_map_ b) (pool_ b) in
  (m_remaining r, mk (m_target r) (asks_ b) (m_index r) (m_pool r),
   m_reported r).

(** *** Price level management *)

(** [std::lower_bound(first, last, value, comp)]: on a range partitioned
    by [comp], the position of the first element for which [comp] is
    false (the length of the range when there is none). *)
Fixpoint lower_bound (comp : PriceLevel.t -> Z -> bool)
    (levels : list PriceLevel.t) (value : Z) : nat :=
  match levels with
  | [] => O
  | level :: rest =>
      if comp level value then S (lower_bound comp rest value) else O
  end.

(** [std::vector::insert(it, x)] *)
Definition vector_insert {A} (it : nat) (x : A) (v : list A) : list A :=
  take it v ++ x :: drop it v.

(** The body shared by [add_to_bids] and [add_to_asks], which differ in
    the ladder and in the comparison handed to [std::lower_bound]. *)
Definition add_to_levels (comp : PriceLevel.t -> Z -> bool)
    (levels : list PriceLevel.t) (pool : MemPool.t) (order : nat)
    : list PriceLevel.t :=
  let order_price := Order.price (MemPool.deref pool order) in
  let it := lower_bound comp levels order_price in
  let found :=
    match levels !! it with
    | Some level => PriceLevel.price level =? order_price
    | None => false
    end in
  if found then alter (PriceLevel.add_order pool order) it levels
  else
    vector_insert it
      (PriceLevel.add_order pool order (PriceLevel.new order_price))
      levels.

Definition add_to_bids (order : nat) (b : t) : t :=
  mk (add_to_levels (fun level price => PriceLevel.price level >? price)
        (bids_ b) (pool_ b) order)
     (asks_ b) (order_map_ b) (pool_ b).

Definition add_to_asks (order : nat) (b : t) : t :=
  mk (bids_ b)
     (add_to_levels (fun level price => PriceLevel.price level <? price)
        (asks_ b) (pool_ b) order)
     (order_map_ b) (pool_ b).

(** The loop shared by [remove_from_bids] and [remove_from_asks]. *)
Fixpoint remove_from_levels (levels : list PriceLevel.t)
    (pool : MemPool.t) (order : nat) : list PriceLevel.t :=
  match levels with
  | [] => []
  | it :: rest =>
      if PriceLevel.price it =? Order.price (MemPool.deref pool order) then
        let it' := PriceLevel.remove_order pool order it in
        if PriceLevel.empty it' then rest else it' :: rest
      else it :: remove_from_levels rest pool order
  end.

Definition remove_from_bids (order : nat) (b : t) : t :=
  mk (remove_from_levels (bids_ b) (pool_ b) order)
     (asks_ b) (order_map_ b) (pool_ b).

Definition remove_from_asks (order : nat) (b : t) : t :=
  mk (bids_ b) (remove_from_levels (asks_ b) (pool_ b) order)
     (order_map_ b) (pool_ b).

(** *** Order entry and cancellation *)

(** The value returned, the book afterwards and the executions passed
    to [on_execution], oldest first. *)
Record outcome : Type := Outcome {
  returned : bool;
  book : t;
  executions : list Execution.t
}.

Definition add_order (b : t) (id price qty : Z) (side : Side)
    (on_execution : bool) : outcome :=
  match order_map_ b !! id with
  | Some _ => Outcome false b []
  | None =>
      let '(remaining_qty, b1, execs) :=
        match side with
        | Buy => match_buy b id price qty on_execution
        | Sell => match_sell b id price qty on_execution
        end in
      if remaining_qty =? 0 then Outcome true b1 execs
      else
        match MemPool.allocate (pool_ b1) with
        | (None, _) => Outcome false b1 execs
        | (Some order, pool1) =>
            let pool2 :=
              MemPool.store order
                (Order.mk id price remaining_qty (Side_to_char side))
                pool1 in
            let b2 := mk (bids_ b1) (asks_ b1) (order_map_ b1) pool2 in
            let b3 :=
              match side with
              | Buy => add_to_bids order b2
              | Sell => add_to_asks order b2
              end in
            Outcome true
              (mk (bids_ b3) (asks_ b3) (<[id := order]> (order_map_ b3))
                  (pool_ b3))
              execs
        end
  end.

Definition cancel_order (b : t) (id : Z) : bool * t :=
  match order_map_ b !! id with
  | None => (false, b)
  | Some order =>
      let b1 := mk (bids_ b) (asks_ b) (delete id (order_map_ b))
                   (pool_ b) in
      let b2 :=
        if Order.is_buy (MemPool.deref (pool_ b1) order)
        then remove_from_bids order b1
        else remove_from_asks order b1 in
      (true,
       mk (bids_ b2) (asks_ b2) (order_map_ b2)
          (MemPool.deallocate order (pool_ b2)))
  end.

(** *** Market data accessors *)

(** [std::optional<uint64_t>]: [None] is [std::nullopt]. *)
Definition best_bid (b : t) : option Z :=
  match bids_ b with
  | [] => None
  | front :: _ =>
      if PriceLevel.empty front then None else Some (PriceLevel.price front)
  end.

Definition best_ask (b : t) : option Z :=
  match asks_ b with
  | [] => None
  | front :: _ =>
      if PriceLevel.empty front then None else Some (PriceLevel.price front)
  end.

Definition spread (b : t) : option Z :=
  match best_bid b, best_ask b with
  | Some bid, Some ask => Some (wrap64 (ask - bid))
  | _, _ => None
  end.

(** The two volume accessors return a plain [uint64_t]. *)
Definition best_bid_volume (b : t) : Z :=
  match bids_ b with
  | [] => 0
  | front :: _ => PriceLevel.total_volume front
  end.

Definition best_ask_volume (b : t) : Z :=
  match asks_ b with
  | [] => 0
  | front :: _ => PriceLevel.total_volume front
  end.

Definition empty (b : t) : bool :=
  match bids_ b, asks_ b with [], [] => true | _, _ => false end.

Definition order_count (b : t) : nat := size (order_map_ b).
Definition bid_level_count (b : t) : nat := length (bids_ b).
Definition ask_level_count (b : t) : nat := length (asks_ b).

End OrderBook.

(** ** compat.hpp *)

Definition byte_val (b : byte) : Z := Z.of_N (Byte.to_N b).

#[global] Instance byte_inhabited : Inhabited byte := populate x00.

Section Endianness.

(** [kIsBigEndian]: the byte order of the host, fixed at compile time. *)
Variable kIsBigEndian : bool.

(** The portable branch of each swap is the one embedded; the
    [std::byteswap], [__builtin_bswap*] and [_byteswap_*] branches
    reverse the bytes of their argument likewise. *)
Definition bswap16 (val : Z) : Z :=
  if kIsBigEndian then val
  else wrap16 (Z.lor (Z.shiftl val 8) (Z.shiftr val 8)).

Definition bswap32 (val : Z) : Z :=
  if kIsBigEndian then val
  else
    Z.lor
      (Z.lor
         (Z.lor (Z.shiftr (Z.land val 0xFF000000) 24)
                (Z.shiftr (Z.land val 0x00FF0000) 8))
         (wrap32 (Z.shiftl (Z.land val 0x0000FF00) 8)))
      (wrap32 (Z.shiftl (Z.land val 0x000000FF) 24)).

Definition bswap64 (val : Z) : Z :=
  if kIsBigEndian then val
  else
    Z.lor
      (Z.lor
         (Z.lor
            (Z.lor
               (Z.lor
                  (Z.lor
                     (Z.lor (Z.shiftr (Z.land val 0xFF00000000000000) 56)
                            (Z.shiftr (Z.land val 0x00FF000000000000) 40))
                     (Z.shiftr (Z.land val 0x0000FF0000000000) 24))
                  (Z.shiftr (Z.land val 0x000000FF00000000) 8))
               (wrap64 (Z.shiftl (Z.land val 0x00000000FF000000) 8)))
            (wrap64 (Z.shiftl (Z.land val 0x0000000000FF0000) 24)))
         (wrap64 (Z.shiftl (Z.land val 0x000000000000FF00) 40)))
      (wrap64 (Z.shiftl (Z.land val 0x00000000000000FF) 56)).

(** [ntoh<T>], by [sizeof(T)]. *)
Definition ntoh (size : nat) (val : Z) : Z :=
  match size with
  | 1%nat => val
  | 2%nat => bswap16 val
  | 4%nat => bswap32 val
  | 8%nat => bswap64 val
  | _ => val
  end.

(** ** messages.hpp *)

(** The value an integer object of the host has when its storage holds
    the bytes [mem], lowest address first. *)
Definition host_value (mem : list byte) : Z :=
  if kIsBigEndian
  then foldl (fun acc b => acc * 256 + byte_val b) 0 mem
  else foldr (fun b acc => byte_val b + 256 * acc) 0 mem.

(** The [size] bytes of [buffer] from [offset] on: the storage of a
    field of a packed message struct laid over the buffer. *)
Definition field (buffer : list byte) (offset size : nat) : list byte :=
  take size (drop offset buffer).

(** [BigEndian<T>::operator T()] of the field at [offset]. *)
Definition BigEndian_get (size : nat) (buffer : list byte) (offset : nat)
    : Z :=
  ntoh size (host_value (field buffer offset size)).

End Endianness.

Module Timestamp48.

(** [nanoseconds] of the six [bytes]. *)
Definition nanoseconds (bytes : list byte) : Z :=
  let b (i : nat) := byte_val (bytes !!! i) in
  Z.lor
    (Z.lor
       (Z.lor
          (Z.lor
             (Z.lor (wrap64 (Z.shiftl (b 0%nat) 40))
                    (wrap64 (Z.shiftl (b 1%nat) 32)))
             (wrap64 (Z.shiftl (b 2%nat) 24)))
          (wrap64 (Z.shiftl (b 3%nat) 16)))
       (wrap64 (Z.shiftl (b 4%nat) 8)))
    (b 5%nat).

End Timestamp48.

Module StockSymbol.

(** [str[i]] of a C string whose characters are [str]: the terminating
    NUL follows them. *)
Definition char_at (str : list byte) (i : nat) : byte := nth i str x00.

(** The first loop of [equals], entered at [i] with [n = 8 - i]:
    [None] when it returns [false], else the value of [i] it ends on. *)
Fixpoint match_chars (n i : nat) (data str : list byte) : option nat :=
  match n with
  | O => Some i
  | S n' =>
      if Byte.eqb (char_at str i) x00 then Some i
      else if negb (Byte.eqb (data !!! i) (char_at str i)) then None
      else match_chars n' (S i) data str
  end.

(** The second loop, likewise. *)
Fixpoint check_padding (n i : nat) (data : list byte) : option nat :=
  match n with
  | O => Some i
  | S n' =>
      if negb (Byte.eqb (data !!! i) x20) then None
      else check_padding n' (S i) data
  end.

Definition equals (data str : list byte) : bool :=
  match match_chars 8 0 data str with
  | None => false
  | Some i =>
      match check_padding (8 - i) i data with
      | None => false
      | Some i' => Byte.eqb (char_at str i') x00 || (i' =? 8)%nat
      end
  end.

End StockSymbol.

(** The typed views: each accessor reads its field at the offset the
    [static_assert]s of the source fix. *)
Module AddOrder.
Section Fields.
Variable kIsBigEndian : bool.
Variable buffer : list byte.

Definition msg_type : byte := buffer !!! 0%nat.
Definition stock_locate : Z := BigEndian_get kIsBigEndian 2 buffer 1.
Definition tracking_number : Z := BigEndian_get kIsBigEndian 2 buffer 3.
Definition timestamp : Z := Timestamp48.nanoseconds (field buffer 5 6).
Definition order_ref : Z := BigEndian_get kIsBigEndian 8 buffer 11.
Definition side : byte := buffer !!! 19%nat.
Definition shares : Z := BigEndian_get kIsBigEndian 4 buffer 20.
Definition stock : list byte := field buffer 24 8.
Definition price : Z := BigEndian_get kIsBigEndian 4 buffer 32.
End Fields.
End AddOrder.

Module OrderExecuted.
Section Fields.
Variable kIsBigEndian : bool.
Variable buffer : list byte.

Definition msg_type : byte := buffer !!! 0%nat.
Definition stock_locate : Z := BigEndian_get kIsBigEndian 2 buffer 1.
Definition tracking_number : Z := BigEndian_get kIsBigEndian 2 buffer 3.
Definition timestamp : Z := Timestamp48.nanoseconds (field buffer 5 6).
Definition order_ref : Z := BigEndian_get kIsBigEndian 8 buffer 11.
Definition executed_shares : Z := BigEndian_get kIsBigEndian 4 buffer 19.
Definition match_number : Z := BigEndian_get kIsBigEndian 8 buffer 23.
End Fields.
End OrderExecuted.

(** ** intrusive_list.hpp, with the [prev] and [next] pointers

    The queue of a price level was represented above by the sequence of
    its nodes.  Here the list is embedded as the source writes it: nodes
    in memory, linked both ways around a sentinel.  A pointer to a node
    is [Some] of its address and [None] is [nullptr]. *)

Module IntrusiveNode.

(** [struct IntrusiveNode { IntrusiveNode *prev; IntrusiveNode *next; }] *)
Record t : Set := mk { prev : option nat; next : option nat }.

Definition is_null (p : option nat) : bool :=
  match p with None => true | Some _ => false end.

Definition is_linked (n : t) : bool :=
  negb (is_null (prev n)) || negb (is_null (next n)).

End IntrusiveNode.

Module IntrusiveListPtr.

(** The nodes that exist, by address: the sentinels of the lists and the
    [IntrusiveNode] bases of the elements. *)
Abbreviation memory := (gmap nat IntrusiveNode.t).

Abbreviation ptr := (option nat).

(** Computations on the memory; [None] is a read or write through a
    null pointer or through an address that holds no node (undefined
    behaviour in the source). *)
Definition M (A : Type) : Type := memory -> option (A * memory).

Definition ret {A} (x : A) : M A := fun h => Some (x, h).

Definition bind {A B} (m : M A) (k : A -> M B) : M B :=
  fun h => match m h with Some (x, h') => k x h' | None => None end.

Definition fail {A} : M A := fun _ => None.

Declare Scope mem_scope.
Delimit Scope mem_scope with mem.
Notation "'do' x <- m ; k" := (bind m (fun x => k))
  (at level 10, x name, m at level 100, k at level 200) : mem_scope.
Notation "m ;; k" := (bind m (fun _ => k))
  (at level 100, k at level 200, right associativity) : mem_scope.
Local Open Scope mem_scope.

(** [p->prev] and [p->next], read. *)
Definition load_prev (p : ptr) : M ptr :=
  fun h =>
    match p with
    | Some a =>
        match h !! a with
        | Some n => Some (IntrusiveNode.prev n, h)
        | None => None
        end
    | None => None
    end.

Definition load_next (p : ptr) : M ptr :=
  fun h =>
    match p with
    | Some a =>
        match h !! a with
        | Some n => Some (IntrusiveNode.next n, h)
        | None => None
        end
    | None => None
    end.

(** [p->prev = v] and [p->next = v]. *)
Definition set_prev (a : nat) (v : ptr) (h : memory) : memory :=
  alter (fun n => IntrusiveNode.mk v (IntrusiveNode.next n)) a h.

Definition set_next (a : nat) (v : ptr) (h : memory) : memory :=
  alter (fun n => IntrusiveNode.mk (IntrusiveNode.prev n) v) a h.

Definition store_prev (p : ptr) (v : ptr) : M unit :=
  fun h =>
    match p with
    | Some a =>
        match h !! a with
        | Some _ => Some (tt, set_prev a v h)
        | None => None
        end
    | None => None
    end.

Definition store_next (p : ptr) (v : ptr) : M unit :=
  fun h =>
    match p with
    | Some a =>
        match h !! a with
        | Some _ => Some (tt, set_next a v h)
        | None => None
        end
    | None => None
    end.

(** [node->unlink()] *)
Definition unlink (p : ptr) : M unit :=
  store_prev p None;; store_next p None.

(** [node->is_linked()] *)
Definition is_linked (p : ptr) : M bool :=
  fun h =>
    match p with
    | Some a =>
        match h !! a with
        | Some n => Some (IntrusiveNode.is_linked n, h)
        | None => None
        end
    | None => None
    end.

(** The member functions take the address [this] of the list object,
    which is the address of its sentinel [head_]. *)

(** [IntrusiveList()] *)
Definition init (this : nat) : M unit :=
  store_next (Some this) (Some this);;
  store_prev (Some this) (Some this).

Definition empty (this : nat) : M bool :=
  do n <- load_next (Some this);
  ret (bool_decide (n = Some this)).

(** [front] and [back] return a reference; its address is what is
    embedded. *)
Definition front (this : nat) : M ptr := load_next (Some this).
Definition back (this : nat) : M ptr := load_prev (Some this).

(** Iterators hold a node pointer. *)
Definition begin (this : nat) : M ptr := load_next (Some this).
Definition end_ (this : nat) : M ptr := ret (Some this).
Definition iterator_incr (it : ptr) : M ptr := load_next it.
Definition iterator_decr (it : ptr) : M ptr := load_prev it.

(** The loop of [size]: [fuel] bounds the number of iterations. *)
Fixpoint size_loop (fuel : nat) (this : nat) (it : ptr) (count : Z)
    : M Z :=
  match fuel with
  | O => fail
  | S fuel' =>
      if bool_decide (it <> Some this) then
        do it' <- iterator_incr it;
        size_loop fuel' this it' (wrap64 (count + 1))
      else ret count
  end.

Definition size (fuel : nat) (this : nat) : M Z :=
  do it <- begin this;
  size_loop fuel this it 0.

Definition insert_after (pos : ptr) (elem : ptr) : M unit :=
  store_prev elem pos;;
  do n <- load_next pos;
  store_next elem n;;
  do n' <- load_next pos;
  store_prev n' elem;;
  store_next pos elem.

Definition insert_before (pos : ptr) (elem : ptr) : M unit :=
  store_next elem pos;;
  do p <- load_prev pos;
  store_prev elem p;;
  do p' <- load_prev pos;
  store_next p' elem;;
  store_prev pos elem.

Definition push_front (this : nat) (elem : ptr) : M unit :=
  insert_after (Some this) elem.

Definition push_back (this : nat) (elem : ptr) : M unit :=
  insert_before (Some this) elem.

(** [remove] does not read [head_]: the node is unlinked from whatever
    list holds it. *)
Definition remove (elem : ptr) : M unit :=
  do p <- load_prev elem;
  do n <- load_next elem;
  store_next p n;;
  do n' <- load_next elem;
  do p' <- load_prev elem;
  store_prev n' p';;
  unlink elem.

Definition pop_front (this : nat) : M unit :=
  do n <- load_next (Some this);
  remove n.

Definition pop_back (this : nat) : M unit :=
  do p <- load_prev (Some this);
  remove p.

(** The loop of [clear]. *)
Fixpoint clear (fuel : nat) (this : nat) : M unit :=
  match fuel with
  | O => fail
  | S fuel' =>
      do e <- empty this;
      if negb e then pop_front this;; clear fuel' this else ret tt
  end.

(** [insert(pos, elem)] and [erase(pos)] are not embedded: both read
    [pos.node_], a private member of [Iterator] that [IntrusiveList]
    is not a friend of, so the source admits no call of them. *)

Definition splice_all (this other : nat) : M unit :=
  do e <- empty other;
  if e then ret tt
  else
    do first <- load_next (Some other);
    do tail <- load_prev (Some this);
    store_prev first tail;;
    do tail' <- load_prev (Some this);
    do first' <- load_next (Some other);
    store_next tail' first';;
    do last <- load_prev (Some other);
    store_next last (Some this);;
    do last' <- load_prev (Some other);
    store_prev (Some this) last';;
    store_next (Some other) (Some other);;
    store_prev (Some other) (Some other).

(** [IntrusiveList(IntrusiveList &&other)] *)
Definition move_construct (this other : nat) : M unit :=
  store_next (Some this) (Some this);;
  store_prev (Some this) (Some this);;
  splice_all this other.

(** [operator=(IntrusiveList &&other)] *)
Definition move_assign (fuel : nat) (this other : nat) : M unit :=
  if bool_decide (this <> other)
  then clear fuel this;; splice_all this other
  else ret tt.

End IntrusiveListPtr.

(** ** python_bindings.cpp: locating the message in a packet *)

Module PythonBindings.

Definition is_valid_itch_type (c : byte) : bool :=
  if Byte.eqb c "A" || Byte.eqb c "F" || Byte.eqb c "E" || Byte.eqb c "C"
     || Byte.eqb c "X" || Byte.eqb c "D" || Byte.eqb c "U"
  then true
  else if Byte.eqb c "P" || Byte.eqb c "Q" || Byte.eqb c "B" then true
  else if Byte.eqb c "S" || Byte.eqb c "R" || Byte.eqb c "H"
          || Byte.eqb c "Y" || Byte.eqb c "L"
  then true
  else if Byte.eqb c "I" || Byte.eqb c "N" then true
  else if Byte.eqb c "V" || Byte.eqb c "W" || Byte.eqb c "K" then true
  else false.

(** The locate code read at [offset + 1] and the test made on it.  The
    two bytes are promoted to [int] before the shift; the result is cast
    to [uint16_t]. *)
Definition stock_locate (data : list byte) (offset : nat) : Z :=
  wrap16
    (Z.lor (Z.shiftl (byte_val (data !!! (offset + 1)%nat)) 8)
           (byte_val (data !!! (offset + 2)%nat))).

Definition plausible_locate (data : list byte) (offset : nat) : bool :=
  (stock_locate data offset >? 0) && (stock_locate data offset <? 10000).

Definition OFFSETS : list nat := [42; 46; 62; 64; 66; 68]%nat.

Definition SEARCH_LIMIT : nat := 100.

(** The first loop, over the offsets left to try; [None] when the loop
    ends without returning.  [len] and the offsets are [size_t]; they
    are kept as natural numbers, no sum of the function exceeding
    [len + 3]. *)
Fixpoint try_offsets (offsets : list nat) (data : list byte) (len : nat)
    : option nat :=
  match offsets with
  | [] => None
  | offset :: rest =>
      if (offset <? len)%nat then
        if is_valid_itch_type (data !!! offset) then
          if (offset + 3 <=? len)%nat then
            if plausible_locate data offset then Some offset
            else Some offset
          else Some offset
        else try_offsets rest data len
      else try_offsets rest data len
  end.

(** The second loop, with [n] iterations left from [offset] on. *)
Fixpoint search (n : nat) (offset : nat) (data : list byte) (len : nat)
    : option nat :=
  match n with
  | O => None
  | S n' =>
      if is_valid_itch_type (data !!! offset) then
        if (offset + 3 <=? len)%nat then
          if plausible_locate data offset then Some offset
          else search n' (S offset) data len
        else search n' (S offset) data len
      else search n' (S offset) data len
  end.

Definition find_itch_offset (data : list byte) (len : nat) : nat :=
  match try_offsets OFFSETS data len with
  | Some offset => offset
  | None =>
      let search_end :=
        if (len <? SEARCH_LIMIT)%nat then len else SEARCH_LIMIT in
      match search search_end 0 data len with
      | Some offset => offset
      | None => 42%nat
      end
  end.

End PythonBindings.

(** * Specification-side definitions for the order book *)

Definition slots (levels : list PriceLevel.t) : list nat :=
  mjoin (PriceLevel.orders <$> levels).

Definition free_slots (p : MemPool.t) : list nat :=
  take (MemPool.free_count_ p) (MemPool.free_list_ p).

Definition sum_qty (p : MemPool.t) (q : list nat) : Z :=
  foldr (fun s acc => Order.qty (MemPool.deref p s) + acc) 0 q.

(** The order in slot [s] rests at [level_price] on side [c] and is
    registered under its identifier. *)
Definition resting (om : gmap Z nat) (p : MemPool.t) (level_price : Z)
    (c : ascii) (s : nat) : Prop :=
  let o := MemPool.deref p s in
  Order.price o = level_price /\ Order.side o = c /\
  0 < Order.qty o < 2 ^ 32 /\ om !! Order.id o = Some s.

(** The executions the specification prescribes at one level. *)
Fixpoint level_fills (level_price taker_id : Z) (maker_side : Side)
    (remaining : Z) (makers : list Order.t) : list Execution.t :=
  match makers with
  | [] => []
  | m :: rest =>
      if remaining >? 0 then
        let fill := Z.min remaining (Order.qty m) in
        Execution.mk (Order.id m) taker_id level_price fill maker_side
          :: level_fills level_price taker_id maker_side (remaining - fill) rest
      else []
  end.

Definition filled (es : list Execution.t) : Z :=
  foldr (fun e acc => Execution.qty e + acc) 0 es.

(** What a matching loop did to the shared state: the slots [consumed]
    were appended to the free stack and left the identifier index; no
    order outside [q] changed and no order changed identifier, price or
    side. *)
Record consumes (q consumed : list nat) (om : gmap Z nat) (p : MemPool.t)
    (om' : gmap Z nat) (p' : MemPool.t) : Prop := Consumes {
  c_free : free_slots p' = free_slots p ++ consumed;
  c_free_count :
    MemPool.free_count_ p' = (MemPool.free_count_ p + length consumed)%nat;
  c_free_len :
    length (MemPool.free_list_ p') = length (MemPool.free_list_ p);
  c_buffer_len : length (MemPool.buffer_ p') = length (MemPool.buffer_ p);
  c_frame : forall s, s ∉ q -> MemPool.deref p' s = MemPool.deref p s;
  c_id : forall s,
    Order.id (MemPool.deref p' s) = Order.id (MemPool.deref p s);
  c_price : forall s,
    Order.price (MemPool.deref p' s) = Order.price (MemPool.deref p s);
  c_side : forall s,
    Order.side (MemPool.deref p' s) = Order.side (MemPool.deref p s);
  c_index : forall i,
    om' !! i =
    om !! i ≫= (fun s => if decide (s ∈ consumed) then None else Some s);
  c_sub : forall s, s ∈ consumed -> s ∈ q
}.

Definition level_ok (om : gmap Z nat) (p : MemPool.t) (c : ascii)
    (l : PriceLevel.t) : Prop :=
  PriceLevel.orders l <> [] /\
  Forall (resting om p (PriceLevel.price l) c) (PriceLevel.orders l).

Definition volume_ok (p : MemPool.t) (l : PriceLevel.t) : Prop :=
  PriceLevel.total_volume l = sum_qty p (PriceLevel.orders l).

(** The loop shared by [match_buy] and [match_sell]: [stop] is the test
    that ends the loop at a level that does not cross. *)
Fixpoint match_levels (stop : Z -> bool) (maker_side : Side)
    (levels : list PriceLevel.t) (taker_id remaining : Z)
    (on_execution : bool) (order_map : gmap Z nat) (pool : MemPool.t)
    : OrderBook.matched (list PriceLevel.t) :=
  match levels with
  | [] => OrderBook.Matched remaining [] order_map pool []
  | level :: rest =>
      if remaining >? 0 then
        if stop (PriceLevel.price level) then
          OrderBook.Matched remaining levels order_map pool []
        else
          let r := OrderBook.match_at_level level taker_id remaining
                     maker_side on_execution order_map pool in
          if PriceLevel.empty (OrderBook.m_target r) then
            OrderBook.report (OrderBook.m_reported r)
              (match_levels stop maker_side rest taker_id
                 (OrderBook.m_remaining r) on_execution
                 (OrderBook.m_index r) (OrderBook.m_pool r))
          else
            OrderBook.Matched (OrderBook.m_remaining r)
              (OrderBook.m_target r :: rest) (OrderBook.m_index r)
              (OrderBook.m_pool r) (OrderBook.m_reported r)
      else OrderBook.Matched remaining levels order_map pool []
  end.

(** The executions the specification prescribes for an incoming order:
    the makers of the opposite ladder are taken best price first and, at
    one price, oldest first, while something is left to fill and the
    maker's price crosses; each is filled at its own price. *)
Fixpoint book_fills (stop : Z -> bool) (taker_id : Z) (maker_side : Side)
    (remaining : Z) (makers : list Order.t) : list Execution.t :=
  match makers with
  | [] => []
  | m :: rest =>
      if (remaining >? 0) && negb (stop (Order.price m)) then
        let fill := Z.min remaining (Order.qty m) in
        Execution.mk (Order.id m) taker_id (Order.price m) fill maker_side
          :: book_fills stop taker_id maker_side (remaining - fill) rest
      else []
  end.


Definition index_ok (om : gmap Z nat) (p : MemPool.t) : Prop :=
  forall i s, om !! i = Some s -> Order.id (MemPool.deref p s) = i.


Definition opposite (c : Side) : Side :=
  match c with Buy => Sell | Sell => Buy end.

(** [ahead c a b]: on the ladder of side [c], price [a] comes before
    price [b]. *)
Definition ahead (c : Side) (a b : Z) : bool :=
  match c with Buy => a >? b | Sell => a <? b end.

Definition sorted_ladder (c : Side) (levels : list PriceLevel.t) : Prop :=
  StronglySorted
    (fun x y => ahead c (PriceLevel.price x) (PriceLevel.price y) = true)
    levels.

(** The invariant of the book, stated from the side [c] of one ladder
    ([own]) towards the other ([opp]). *)
Record wf_parts (Capacity : nat) (c : Side) (own opp : list PriceLevel.t)
    (om : gmap Z nat) (p : MemPool.t) : Prop := WfParts {
  wf_pool : free_slots p ++ slots own ++ slots opp ≡ₚ seq 0 Capacity;
  wf_free_count : (MemPool.free_count_ p <= Capacity)%nat;
  wf_free_len : length (MemPool.free_list_ p) = Capacity;
  wf_buffer_len : length (MemPool.buffer_ p) = Capacity;
  wf_own : Forall (level_ok om p (Side_to_char c)) own;
  wf_opp : Forall (level_ok om p (Side_to_char (opposite c))) opp;
  wf_own_sorted : sorted_ladder c own;
  wf_opp_sorted : sorted_ladder (opposite c) opp;
  wf_index : forall i s, om !! i = Some s ->
    s ∈ slots own ++ slots opp /\ Order.id (MemPool.deref p s) = i;
  wf_spread : forall lo lx, lo ∈ own -> lx ∈ opp ->
    ahead (opposite c) (PriceLevel.price lo) (PriceLevel.price lx) = true
}.

Definition wf (Capacity : nat) (b : OrderBook.t) : Prop :=
  wf_parts Capacity Buy (OrderBook.bids_ b) (OrderBook.asks_ b)
    (OrderBook.order_map_ b) (OrderBook.pool_ b).


Definition ladder (c : Side) (b : OrderBook.t) : list PriceLevel.t :=
  match c with Buy => OrderBook.bids_ b | Sell => OrderBook.asks_ b end.

Definition with_ladders (c : Side) (own opp : list PriceLevel.t)
    (om : gmap Z nat) (p : MemPool.t) : OrderBook.t :=
  match c with
  | Buy => OrderBook.mk own opp om p
  | Sell => OrderBook.mk opp own om p
  end.

(** * Specification-side definitions for the decoder *)

(** The mathematical big-endian interpretation of a byte sequence. *)
Definition be_value (bs : list byte) : Z :=
  foldl (fun acc b => acc * 256 + byte_val b) 0 bs.

Definition byte_of_Z (z : Z) : byte :=
  default x00 (Byte.of_N (Z.to_N (z mod 256))).

Fixpoint be_bytes (size : nat) (v : Z) : list byte :=
  match size with
  | O => []
  | S n => be_bytes n (v / 256) ++ [byte_of_Z v]
  end.

Module Wire.

Record add_order : Type := AddOrderFields {
  a_msg_type : byte;
  a_stock_locate : Z;
  a_tracking_number : Z;
  a_timestamp : Z;
  a_order_ref : Z;
  a_side : byte;
  a_shares : Z;
  a_stock : list byte;
  a_price : Z
}.

Definition add_order_ok (f : add_order) : Prop :=
  0 <= a_stock_locate f < 2 ^ 16 /\ 0 <= a_tracking_number f < 2 ^ 16 /\
  0 <= a_timestamp f < 2 ^ 48 /\ 0 <= a_order_ref f < 2 ^ 64 /\
  0 <= a_shares f < 2 ^ 32 /\ length (a_stock f) = 8%nat /\
  0 <= a_price f < 2 ^ 32.

Definition layout_add_order (f : add_order) : list byte :=
  [a_msg_type f] ++ be_bytes 2 (a_stock_locate f)
    ++ be_bytes 2 (a_tracking_number f) ++ be_bytes 6 (a_timestamp f)
    ++ be_bytes 8 (a_order_ref f) ++ [a_side f]
    ++ be_bytes 4 (a_shares f) ++ a_stock f ++ be_bytes 4 (a_price f).

Record order_executed : Type := OrderExecutedFields {
  e_msg_type : byte;
  e_stock_locate : Z;
  e_tracking_number : Z;
  e_timestamp : Z;
  e_order_ref : Z;
  e_executed_shares : Z;
  e_match_number : Z
}.

Definition order_executed_ok (f : order_executed) : Prop :=
  0 <= e_stock_locate f < 2 ^ 16 /\ 0 <= e_tracking_number f < 2 ^ 16 /\
  0 <= e_timestamp f < 2 ^ 48 /\ 0 <= e_order_ref f < 2 ^ 64 /\
  0 <= e_executed_shares f < 2 ^ 32 /\ 0 <= e_match_number f < 2 ^ 64.

Definition layout_order_executed (f : order_executed) : list byte :=
  [e_msg_type f] ++ be_bytes 2 (e_stock_locate f)
    ++ be_bytes 2 (e_tracking_number f) ++ be_bytes 6 (e_timestamp f)
    ++ be_bytes 8 (e_order_ref f) ++ be_bytes 4 (e_executed_shares f)
    ++ be_bytes 8 (e_match_number f).

End Wire.

(** Symbol equality as the specification words it: the query matches
    the leading bytes of the slot and every remaining byte is 0x20. *)
Definition symbol_equal (data query : list byte) : Prop :=
  take (length query) data = query /\
  Forall (fun b => b = x20) (drop (length query) data).

Fixpoint bytes_eqb (a b : list byte) : bool :=
  match a, b with
  | [], [] => true
  | x :: a', y :: b' => Byte.eqb x y && bytes_eqb a' b'
  | _, _ => false
  end.

Definition symbol_equalb (data query : list byte) : bool :=
  bytes_eqb (take (length query) data) query
  && forallb (fun b => Byte.eqb b x20) (drop (length query) data).

(** The Add Order message of the specification's decoding scenario. *)
Definition scenario_add_order : Wire.add_order :=
  Wire.AddOrderFields "A"%byte 1 2 1000000000 1234567890 "B"%byte 500
    (list_byte_of_string "AAPL    ") 1000000.

(** The books the public operations lead to from the empty book over a
    pool of [Capacity] slots; the arguments range over their C++ types. *)
Inductive reachable (Capacity : nat) : OrderBook.t -> Prop :=
| reachable_init : reachable Capacity (OrderBook.init Capacity)
| reachable_add_order b id price qty side on_execution :
    reachable Capacity b ->
    is_u64 id -> is_u64 price -> is_u32 qty ->
    reachable Capacity
      (OrderBook.book (OrderBook.add_order b id price qty side on_execution))
| reachable_cancel_order b id :
    reachable Capacity b -> is_u64 id ->
    reachable Capacity (OrderBook.cancel_order b id).2.

Definition volumes_ok (b : OrderBook.t) : Prop :=
  Forall (volume_ok (OrderBook.pool_ b)) (OrderBook.bids_ b) /\
  Forall (volume_ok (OrderBook.pool_ b)) (OrderBook.asks_ b).

(** A sequence of orders [(id, qty)] entered at one price on one side,
    without a callback. *)
Definition add_all (side : Side) (price : Z) (b : OrderBook.t)
    (adds : list (Z * Z)) : OrderBook.t :=
  foldl
    (fun b a =>
       OrderBook.book (OrderBook.add_order b a.1 price a.2 side false))
    b adds.



(** The market-data queries that answer with one value, and what a
    caller reads from each: [best_bid] and [best_ask] return a
    [std::optional]; the two volume accessors return a [uint64_t], a value
    that is always present. *)
Inductive MarketQuery : Set :=
  BestBid | BestAsk | BestBidVolume | BestAskVolume.

Definition query_side (q : MarketQuery) : Side :=
  match q with
  | BestBid | BestBidVolume => Buy
  | BestAsk | BestAskVolume => Sell
  end.

Definition answer (q : MarketQuery) (b : OrderBook.t) : option Z :=
  match q with
  | BestBid => OrderBook.best_bid b
  | BestAsk => OrderBook.best_ask b
  | BestBidVolume => Some (OrderBook.best_bid_volume b)
  | BestAskVolume => Some (OrderBook.best_ask_volume b)
  end.

(** Books of the scenarios of the specification. *)
Definition one_bid : OrderBook.t :=
  OrderBook.book
    (OrderBook.add_order (OrderBook.init 4) 1 1000000 100 Buy true).

Definition bid_and_ask : OrderBook.t :=
  OrderBook.book (OrderBook.add_order one_bid 2 1010000 50 Sell true).

Definition full_pool : OrderBook.t :=
  OrderBook.book (OrderBook.add_order (OrderBook.init 1) 1 100 10 Buy true).

(** Scenario 4 of the specification: three bids at three prices. *)
Definition three_bid_levels : OrderBook.t :=
  foldl
    (fun b '(id, price, qty) =>
       OrderBook.book (OrderBook.add_order b id price qty Buy true))
    (OrderBook.init 8)
    [(1, 1000000, 50); (2, 990000, 100); (3, 980000, 200)].

(** A pool of one slot, taken by a resting ask. *)
Definition one_ask_full_pool : OrderBook.t :=
  OrderBook.book (OrderBook.add_order (OrderBook.init 1) 1 100 10 Sell true).

(** * Specification-side definitions for the linked representation *)

Definition valid (h : IntrusiveListPtr.memory) (a : nat) : Prop :=
  is_Some (h !! a).

Definition prev_of (h : IntrusiveListPtr.memory) (a : nat) : option nat :=
  h !! a ≫= IntrusiveNode.prev.

Definition next_of (h : IntrusiveListPtr.memory) (a : nat) : option nat :=
  h !! a ≫= IntrusiveNode.next.

(** Along [path], each node's [next] is its successor and each node's
    [prev] is its predecessor. *)
Fixpoint chain (h : IntrusiveListPtr.memory) (path : list nat) : Prop :=
  match path with
  | a :: (b :: _) as rest =>
      next_of h a = Some b /\ prev_of h b = Some a /\ chain h rest
  | _ => True
  end.

(** The list whose sentinel is at [this] holds the nodes [l], in this
    order: following [next] from the sentinel meets [l] and comes back
    to the sentinel, and [prev] runs the same way backwards. *)
Definition is_list (h : IntrusiveListPtr.memory) (this : nat)
    (l : list nat) : Prop :=
  NoDup (this :: l) /\ chain h (this :: l ++ [this]).

(** A memory for the examples: the list at sentinel [0] holds the nodes
    [1] and [2], node [3] is not linked, the list at sentinel [4] holds
    node [5], and the list at sentinel [6] is empty. *)
Definition sample_memory : IntrusiveListPtr.memory :=
  list_to_map
    [(0%nat, IntrusiveNode.mk (Some 2%nat) (Some 1%nat));
     (1%nat, IntrusiveNode.mk (Some 0%nat) (Some 2%nat));
     (2%nat, IntrusiveNode.mk (Some 1%nat) (Some 0%nat));
     (3%nat, IntrusiveNode.mk None None);
     (4%nat, IntrusiveNode.mk (Some 5%nat) (Some 5%nat));
     (5%nat, IntrusiveNode.mk (Some 4%nat) (Some 4%nat));
     (6%nat, IntrusiveNode.mk (Some 6%nat) (Some 6%nat))].

(** * Specification-side definitions for the pool *)

(** The states of a pool used as its documentation requires, from its
    construction on: a slot is given back only while it is allocated.
    [live] is the set of the slots allocated and not yet given back. *)
Inductive pool_run (Capacity : nat) : MemPool.t -> gset nat -> Prop :=
| pool_run_init : pool_run Capacity (MemPool.init Capacity) ∅
| pool_run_allocate p live s p' :
    pool_run Capacity p live ->
    MemPool.allocate p = (Some s, p') ->
    pool_run Capacity p' ({[s]} ∪ live)
| pool_run_store p live s o :
    pool_run Capacity p live -> s ∈ live ->
    pool_run Capacity (MemPool.store s o p) live
| pool_run_deallocate p live s :
    pool_run Capacity p live -> s ∈ live ->
    pool_run Capacity (MemPool.deallocate s p) (live ∖ {[s]}).

(** [n] calls of [allocate] in a row: the pointers returned, in order,
    and the pool afterwards. *)
Fixpoint allocate_n (n : nat) (p : MemPool.t)
    : list (option nat) * MemPool.t :=
  match n with
  | O => ([], p)
  | S n' =>
      let '(r, p1) := MemPool.allocate p in
      let '(rs, p2) := allocate_n n' p1 in
      (r :: rs, p2)
  end.

(** A pool of three slots after two allocations, a write to the first
    slot and its return: slot [1] is live. *)
Definition sample_pool : MemPool.t :=
  MemPool.deallocate 0
    (MemPool.store 0 (Order.mk 7 100 5 "B")
       (allocate_n 2 (MemPool.init 3)).2).

(** What every state of such a pool satisfies: the free stack and the
    live slots share out the slots of the buffer. *)
Record pool_inv (Capacity : nat) (p : MemPool.t) (live : gset nat) : Prop :=
  PoolInv {
    pi_slots : free_slots p ++ elements live ≡ₚ seq 0 Capacity;
    pi_free_count : (MemPool.free_count_ p <= Capacity)%nat;
    pi_free_len : length (MemPool.free_list_ p) = Capacity
  }.

(** The fields a decoder reads from a buffer through the [AddOrder] and
    [OrderExecuted] views. *)
Definition decoded_add_order (kIsBigEndian : bool) (buffer : list byte)
    : Wire.add_order :=
  Wire.AddOrderFields
    (AddOrder.msg_type buffer)
    (AddOrder.stock_locate kIsBigEndian buffer)
    (AddOrder.tracking_number kIsBigEndian buffer)
    (AddOrder.timestamp buffer)
    (AddOrder.order_ref kIsBigEndian buffer)
    (AddOrder.side buffer)
    (AddOrder.shares kIsBigEndian buffer)
    (AddOrder.stock buffer)
    (AddOrder.price kIsBigEndian buffer).

Definition decoded_order_executed (kIsBigEndian : bool)
    (buffer : list byte) : Wire.order_executed :=
  Wire.OrderExecutedFields
    (OrderExecuted.msg_type buffer)
    (OrderExecuted.stock_locate kIsBigEndian buffer)
    (OrderExecuted.tracking_number kIsBigEndian buffer)
    (OrderExecuted.timestamp buffer)
    (OrderExecuted.order_ref kIsBigEndian buffer)
    (OrderExecuted.executed_shares kIsBigEndian buffer)
    (OrderExecuted.match_number kIsBigEndian buffer).

(** A packet of 50 bytes whose byte 46 is the type of an Add Order
    message, followed by the locate code 0. *)
Definition sample_packet : list byte :=
  replicate 46 x00 ++ ["A"%byte; x00; x00; x00].

(** * Decoding: big-endian fields *)

Lemma byte_val_range (b : byte) : 0 <= byte_val b < 256.
Proof.
  unfold byte_val. pose proof (Byte.to_N_bounded b). lia.
Qed.

Lemma land_disjoint_low (x y k : Z) :
  0 <= k -> x mod 2 ^ k = 0 -> 0 <= y < 2 ^ k -> Z.land x y = 0.
Proof.
  intros Hk Hx Hy. apply Z.bits_inj'. intros n Hn.
  rewrite Z.land_spec, Z.bits_0.
  destruct (Z.lt_ge_cases n k) as [Hlt | Hge].
  - rewrite <- (Z.mod_pow2_bits_low x k n) by lia. rewrite Hx, Z.bits_0. reflexivity.
  - rewrite <- (Z.mod_small y (2 ^ k)) by lia.
    rewrite Z.mod_pow2_bits_high by lia. apply andb_false_r.
Qed.

Lemma lor_disjoint_low (x y k : Z) :
  0 <= k -> x mod 2 ^ k = 0 -> 0 <= y < 2 ^ k -> Z.lor x y = x + y.
Proof.
  intros Hk Hx Hy. pose proof (Z.add_lor_land x y) as H.
  rewrite (land_disjoint_low x y k) in H by assumption. lia.
Qed.

Lemma lor_disjoint_high (x y k : Z) :
  0 <= k -> 0 <= x < 2 ^ k -> y mod 2 ^ k = 0 -> Z.lor x y = x + y.
Proof.
  intros. rewrite Z.lor_comm, (lor_disjoint_low y x k) by assumption. lia.
Qed.


Lemma land_byte_mask (val k : Z) :
  0 <= k -> Z.land val (255 * 2 ^ k) = (val / 2 ^ k) mod 256 * 2 ^ k.
Proof.
  intros Hk.
  change 255 with (Z.ones 8). change 256 with (2 ^ 8).
  rewrite <- Z.land_ones, <- Z.shiftr_div_pow2, <- !Z.shiftl_mul_pow2 by lia.
  apply Z.bits_inj'. intros n Hn.
  rewrite Z.land_spec.
  destruct (Z.lt_ge_cases n k) as [Hlt | Hge].
  - rewrite !Z.shiftl_spec_low by lia. apply andb_false_r.
  - rewrite !Z.shiftl_spec by lia. rewrite Z.land_spec, Z.shiftr_spec by lia.
    replace (n - k + k) with n by lia. reflexivity.
Qed.

Lemma shiftr_byte (b k j : Z) :
  0 <= j <= k -> Z.shiftr (b * 2 ^ k) j = b * 2 ^ (k - j).
Proof.
  intros H. rewrite Z.shiftr_div_pow2 by lia.
  replace (2 ^ k) with (2 ^ (k - j) * 2 ^ j)
    by (rewrite <- Z.pow_add_r by lia; f_equal; lia).
  rewrite Z.mul_assoc, Z.div_mul; [reflexivity | ].
  apply Z.pow_nonzero; lia.
Qed.

Ltac byte_ranges :=
  repeat match goal with
  | |- context [byte_val ?b] =>
      lazymatch goal with
      | _ : 0 <= byte_val b < 256 |- _ => fail
      | _ => pose proof (byte_val_range b)
      end;
      let x := fresh "v" in
      let E := fresh "E" in
      remember (byte_val b) as x eqn:E; clear E
  end.

Ltac solve_mod := cbv beta; Z.div_mod_to_equations; lia.

Ltac lor_high k :=
  match goal with
  | |- context [Z.lor ?x ?y] =>
      lazymatch x with
      | context [Z.lor _ _] => fail
      | _ => rewrite (lor_disjoint_high x y k) by first [lia | solve_mod]
      end
  end.

Ltac lor_low k :=
  match goal with
  | |- context [Z.lor ?x ?y] =>
      lazymatch x with
      | context [Z.lor _ _] => fail
      | _ => rewrite (lor_disjoint_low x y k) by first [lia | solve_mod]
      end
  end.

Lemma bswap32_le (a b c d : Z) :
  0 <= a < 256 -> 0 <= b < 256 -> 0 <= c < 256 -> 0 <= d < 256 ->
  bswap32 false (a + 256 * (b + 256 * (c + 256 * (d + 256 * 0)))) =
  ((a * 256 + b) * 256 + c) * 256 + d.
Proof.
  intros Ha Hb Hc Hd. unfold bswap32, wrap32.
  set (val := a + _).
  change 0xFF000000 with (255 * 2 ^ 24).
  change 0x00FF0000 with (255 * 2 ^ 16).
  change 0x0000FF00 with (255 * 2 ^ 8).
  change 0x000000FF with (255 * 2 ^ 0).
  rewrite !land_byte_mask by lia.
  replace ((val / 2 ^ 24) mod 256) with d by (subst val; solve_mod).
  replace ((val / 2 ^ 16) mod 256) with c by (subst val; solve_mod).
  replace ((val / 2 ^ 8) mod 256) with b by (subst val; solve_mod).
  replace ((val / 2 ^ 0) mod 256) with a by (subst val; solve_mod).
  rewrite !shiftr_byte, !Z.shiftl_mul_pow2 by lia.
  rewrite !Z.mod_small by lia.
  lor_high 8. lor_high 16. lor_high 24. lia.
Qed.

Lemma bswap16_le (a b : Z) :
  0 <= a < 256 -> 0 <= b < 256 ->
  bswap16 false (a + 256 * (b + 256 * 0)) = a * 256 + b.
Proof.
  intros Ha Hb. unfold bswap16, wrap16.
  rewrite Z.shiftl_mul_pow2, Z.shiftr_div_pow2 by lia.
  replace ((a + 256 * (b + 256 * 0)) / 2 ^ 8) with b by solve_mod.
  lor_low 8. solve_mod.
Qed.

Lemma bswap64_le (a b c d e f g h : Z) :
  0 <= a < 256 -> 0 <= b < 256 -> 0 <= c < 256 -> 0 <= d < 256 ->
  0 <= e < 256 -> 0 <= f < 256 -> 0 <= g < 256 -> 0 <= h < 256 ->
  bswap64 false
    (a + 256 * (b + 256 * (c + 256 * (d + 256 * (e + 256 * (f + 256 *
       (g + 256 * (h + 256 * 0)))))))) =
  ((((((a * 256 + b) * 256 + c) * 256 + d) * 256 + e) * 256 + f) * 256 + g)
    * 256 + h.
Proof.
  intros Ha Hb Hc Hd He Hf Hg Hh. unfold bswap64, wrap64.
  set (val := a + _).
  change 0xFF00000000000000 with (255 * 2 ^ 56).
  change 0x00FF000000000000 with (255 * 2 ^ 48).
  change 0x0000FF0000000000 with (255 * 2 ^ 40).
  change 0x000000FF00000000 with (255 * 2 ^ 32).
  change 0x00000000FF000000 with (255 * 2 ^ 24).
  change 0x0000000000FF0000 with (255 * 2 ^ 16).
  change 0x000000000000FF00 with (255 * 2 ^ 8).
  change 0x00000000000000FF with (255 * 2 ^ 0).
  rewrite !land_byte_mask by lia.
  replace ((val / 2 ^ 56) mod 256) with h by (subst val; solve_mod).
  replace ((val / 2 ^ 48) mod 256) with g by (subst val; solve_mod).
  replace ((val / 2 ^ 40) mod 256) with f by (subst val; solve_mod).
  replace ((val / 2 ^ 32) mod 256) with e by (subst val; solve_mod).
  replace ((val / 2 ^ 24) mod 256) with d by (subst val; solve_mod).
  replace ((val / 2 ^ 16) mod 256) with c by (subst val; solve_mod).
  replace ((val / 2 ^ 8) mod 256) with b by (subst val; solve_mod).
  replace ((val / 2 ^ 0) mod 256) with a by (subst val; solve_mod).
  clearbody val.
  rewrite !shiftr_byte, !Z.shiftl_mul_pow2 by lia.
  rewrite !Z.mod_small by lia.
  lor_high 8. lor_high 16. lor_high 24. lor_high 32. lor_high 40.
  lor_high 48. lor_high 56. lia.
Qed.

Lemma byte_val_of_Z (z : Z) : byte_val (byte_of_Z z) = z mod 256.
Proof.
  unfold byte_val, byte_of_Z.
  assert (H : 0 <= z mod 256 < 256) by (apply Z.mod_pos_bound; lia).
  destruct (Byte.of_N (Z.to_N (z mod 256))) as [b | ] eqn:E.
  - apply Byte.to_of_N in E. simpl. rewrite E. lia.
  - apply Byte.of_N_None_iff in E. lia.
Qed.

Lemma be_value_snoc (bs : list byte) (b : byte) :
  be_value (bs ++ [b]) = be_value bs * 256 + byte_val b.
Proof. unfold be_value. rewrite foldl_app. reflexivity. Qed.

Lemma be_value_range (bs : list byte) :
  0 <= be_value bs < 256 ^ Z.of_nat (length bs).
Proof.
  induction bs as [ | b bs IH] using rev_ind.
  - simpl. unfold be_value. simpl. lia.
  - rewrite be_value_snoc, length_app. simpl length.
    replace (Z.of_nat (length bs + 1)) with (Z.of_nat (length bs) + 1) by lia.
    rewrite Z.pow_add_r by lia. pose proof (byte_val_range b). lia.
Qed.

Lemma be_bytes_length (size : nat) (v : Z) : length (be_bytes size v) = size.
Proof.
  revert v. induction size as [ | n IH]; intros v; simpl; [reflexivity | ].
  rewrite length_app, IH. simpl. lia.
Qed.

Lemma be_value_be_bytes (size : nat) (v : Z) :
  0 <= v < 256 ^ Z.of_nat size -> be_value (be_bytes size v) = v.
Proof.
  revert v. induction size as [ | n IH]; intros v Hv.
  - simpl in *. unfold be_value. simpl. lia.
  - simpl be_bytes. rewrite be_value_snoc, byte_val_of_Z, IH.
    + Z.div_mod_to_equations; lia.
    + replace (Z.of_nat (S n)) with (Z.of_nat n + 1) in Hv by lia.
      rewrite Z.pow_add_r in Hv by lia.
      split; [apply Z.div_pos; lia | ].
      apply Z.div_lt_upper_bound; lia.
Qed.

Lemma field_length (buffer : list byte) (offset size : nat) :
  (offset + size <= length buffer)%nat -> length (field buffer offset size) = size.
Proof. intros H. unfold field. rewrite length_take, length_drop. lia. Qed.

Lemma nanoseconds_be (bytes : list byte) :
  length bytes = 6%nat -> Timestamp48.nanoseconds bytes = be_value bytes.
Proof.
  intros H.
  destruct bytes as [ | a [ | b [ | c [ | d [ | e [ | f [ | ? ?]]]]]]];
    try discriminate H.
  unfold Timestamp48.nanoseconds, be_value, wrap64. cbn [lookup_total list_lookup_total foldl].
  byte_ranges.
  rewrite !Z.shiftl_mul_pow2 by lia.
  rewrite !Z.mod_small by lia.
  lor_low 40. lor_low 32. lor_low 24. lor_low 16. lor_low 8. lia.
Qed.

Lemma BigEndian_get_be (kIsBigEndian : bool) (size : nat) (buffer : list byte) (offset : nat) :
  size ∈ [2; 4; 8]%nat ->
  (offset + size <= length buffer)%nat ->
  BigEndian_get kIsBigEndian size buffer offset = be_value (field buffer offset size).
Proof.
  intros Hsize Hlen. unfold BigEndian_get.
  pose proof (field_length buffer offset size Hlen) as Hf.
  destruct (field buffer offset size) as [ | a [ | b [ | c [ | d [ | e [ | f [ | g [ | h [ | ? ?]]]]]]]]];
    set_unfold; destruct Hsize as [-> | [-> | [-> | []]]]; try discriminate Hf; clear Hf;
    unfold ntoh, host_value, be_value.
  all: destruct kIsBigEndian; [unfold bswap16, bswap32, bswap64; reflexivity | ].
  all: cbn [foldl foldr]; byte_ranges.
  - rewrite bswap16_le by assumption. lia.
  - rewrite bswap32_le by assumption. lia.
  - rewrite bswap64_le by assumption. lia.
Qed.

Lemma BigEndian_get_range (k : bool) (size : nat) (buffer : list byte) (offset : nat) :
  size ∈ [2; 4; 8]%nat ->
  (offset + size <= length buffer)%nat ->
  0 <= BigEndian_get k size buffer offset < 256 ^ Z.of_nat size.
Proof.
  intros Hs Hl. rewrite BigEndian_get_be by assumption.
  pose proof (be_value_range (field buffer offset size)) as Hr.
  rewrite (field_length buffer offset size Hl) in Hr. exact Hr.
Qed.

Lemma field_app_skip (seg l : list byte) (offset size : nat) :
  (length seg <= offset)%nat ->
  field (seg ++ l) offset size = field l (offset - length seg) size.
Proof. intros H. unfold field. rewrite drop_app_ge by exact H. reflexivity. Qed.

Lemma field_app_here (seg l : list byte) (size : nat) :
  length seg = size -> field (seg ++ l) 0 size = seg.
Proof.
  intros H. unfold field. rewrite drop_0.
  apply take_app_length'. symmetry. exact H.
Qed.

Lemma BigEndian_get_be_bytes (k : bool) (size : nat) (buffer : list byte)
    (offset : nat) (v : Z) :
  size ∈ [2; 4; 8]%nat ->
  field buffer offset size = be_bytes size v ->
  0 <= v < 256 ^ Z.of_nat size ->
  BigEndian_get k size buffer offset = v.
Proof.
  intros Hs Hf Hv.
  destruct (decide (offset + size <= length buffer)%nat) as [Hl | Hl].
  - rewrite BigEndian_get_be, Hf by assumption. apply be_value_be_bytes, Hv.
  - exfalso. assert (Hlen : length (field buffer offset size) = size)
      by (rewrite Hf; apply be_bytes_length).
    unfold field in Hlen. rewrite length_take, length_drop in Hlen.
    set_unfold. lia.
Qed.

Ltac skip_fields :=
  repeat (rewrite field_app_skip by (rewrite ?be_bytes_length; simpl; lia);
          rewrite ?be_bytes_length;
          repeat match goal with
                 | H : length ?s = _ |- context [length ?s] => rewrite H
                 end;
          simpl Nat.sub);
  try (apply field_app_here; first [apply be_bytes_length | assumption]).

Ltac skip_bytes :=
  repeat (rewrite lookup_total_app_r by (rewrite ?be_bytes_length; simpl; lia);
          rewrite ?be_bytes_length; simpl Nat.sub);
  try reflexivity.

Ltac solve_field :=
  lazymatch goal with
  | |- BigEndian_get _ _ _ _ = _ =>
      apply BigEndian_get_be_bytes;
      [set_unfold; tauto | skip_fields | simpl; lia]
  | |- Timestamp48.nanoseconds (field ?b ?o 6) = ?v =>
      replace (field b o 6) with (be_bytes 6 v) by (symmetry; skip_fields);
      rewrite nanoseconds_be by apply be_bytes_length;
      apply be_value_be_bytes; simpl; lia
  | |- field _ _ _ = _ => skip_fields
  | |- _ !!! _ = _ => skip_bytes
  end.

(** Claim C9.  Decoding is total and big-endian.  For every buffer that
    holds the field, [BigEndian<T>::operator T] (for the 2-, 4- and 8-byte
    fields, on hosts of either byte order) and [Timestamp48::nanoseconds]
    return the big-endian value of the bytes of the field, within the
    range of its width; and a buffer laid out big-endian at the offsets of
    the Add Order and Order Executed messages, followed by any bytes,
    decodes to the fields it was laid out from. *)
Theorem decode_big_endian :
  (forall (kIsBigEndian : bool) (size : nat) (buffer : list byte) (offset : nat),
     size ∈ [2; 4; 8]%nat ->
     (offset + size <= length buffer)%nat ->
     BigEndian_get kIsBigEndian size buffer offset
       = be_value (field buffer offset size)
     /\ 0 <= BigEndian_get kIsBigEndian size buffer offset
          < 2 ^ (8 * Z.of_nat size)) /\
  (forall (buffer : list byte) (offset : nat),
     (offset + 6 <= length buffer)%nat ->
     Timestamp48.nanoseconds (field buffer offset 6)
       = be_value (field buffer offset 6)
     /\ 0 <= Timestamp48.nanoseconds (field buffer offset 6) < 2 ^ 48) /\
  (forall (kIsBigEndian : bool) (f : Wire.add_order) (rest : list byte),
     Wire.add_order_ok f ->
     let buffer := Wire.layout_add_order f ++ rest in
     AddOrder.msg_type buffer = Wire.a_msg_type f /\
     AddOrder.stock_locate kIsBigEndian buffer = Wire.a_stock_locate f /\
     AddOrder.tracking_number kIsBigEndian buffer = Wire.a_tracking_number f /\
     AddOrder.timestamp buffer = Wire.a_timestamp f /\
     AddOrder.order_ref kIsBigEndian buffer = Wire.a_order_ref f /\
     AddOrder.side buffer = Wire.a_side f /\
     AddOrder.shares kIsBigEndian buffer = Wire.a_shares f /\
     AddOrder.stock buffer = Wire.a_stock f /\
     AddOrder.price kIsBigEndian buffer = Wire.a_price f) /\
  (forall (kIsBigEndian : bool) (f : Wire.order_executed) (rest : list byte),
     Wire.order_executed_ok f ->
     let buffer := Wire.layout_order_executed f ++ rest in
     OrderExecuted.msg_type buffer = Wire.e_msg_type f /\
     OrderExecuted.stock_locate kIsBigEndian buffer = Wire.e_stock_locate f /\
     OrderExecuted.tracking_number kIsBigEndian buffer
       = Wire.e_tracking_number f /\
     OrderExecuted.timestamp buffer = Wire.e_timestamp f /\
     OrderExecuted.order_ref kIsBigEndian buffer = Wire.e_order_ref f /\
     OrderExecuted.executed_shares kIsBigEndian buffer
       = Wire.e_executed_shares f /\
     OrderExecuted.match_number kIsBigEndian buffer = Wire.e_match_number f).
Proof.
  split; [ | split; [ | split]].
  - intros k size buffer offset Hs Hl. split.
    + apply BigEndian_get_be; assumption.
    + replace (2 ^ (8 * Z.of_nat size)) with (256 ^ Z.of_nat size)
        by (change 256 with (2 ^ 8); rewrite <- Z.pow_mul_r by lia; reflexivity).
      apply BigEndian_get_range; assumption.
  - intros buffer offset Hl.
    pose proof (field_length buffer offset 6 Hl) as Hf.
    rewrite nanoseconds_be by assumption. split; [reflexivity | ].
    pose proof (be_value_range (field buffer offset 6)) as Hr.
    rewrite Hf in Hr. exact Hr.
  - intros k f rest (Hloc & Htrk & Hts & Href & Hsh & Hst & Hpr) buffer.
    subst buffer. unfold Wire.layout_add_order.
    unfold AddOrder.msg_type, AddOrder.stock_locate, AddOrder.tracking_number,
      AddOrder.timestamp, AddOrder.order_ref, AddOrder.side, AddOrder.shares,
      AddOrder.stock, AddOrder.price.
    rewrite <- !app_assoc.
    repeat split; solve_field.
  - intros k f rest (Hloc & Htrk & Hts & Href & Hsh & Hmn) buffer.
    subst buffer. unfold Wire.layout_order_executed.
    unfold OrderExecuted.msg_type, OrderExecuted.stock_locate,
      OrderExecuted.tracking_number, OrderExecuted.timestamp,
      OrderExecuted.order_ref, OrderExecuted.executed_shares,
      OrderExecuted.match_number.
    rewrite <- !app_assoc.
    repeat split; solve_field.
Qed.

(** * Symbol equality *)

Lemma byte_eqb_eq (x y : byte) : Byte.eqb x y = true <-> x = y.
Proof. split; [apply Byte.byte_dec_bl | apply Byte.byte_dec_lb]. Qed.

Lemma bytes_eqb_eq (a b : list byte) : bytes_eqb a b = true <-> a = b.
Proof.
  revert b. induction a as [ | x a IH]; intros [ | y b]; simpl;
    try (split; [discriminate | discriminate]); try tauto.
  rewrite andb_true_iff, byte_eqb_eq, IH. split.
  - intros [-> ->]. reflexivity.
  - intros H. injection H. tauto.
Qed.

Lemma symbol_equalb_spec (data query : list byte) :
  symbol_equalb data query = true <-> symbol_equal data query.
Proof.
  unfold symbol_equalb, symbol_equal.
  rewrite andb_true_iff, bytes_eqb_eq, forallb_forall, Forall_forall.
  split; intros [H1 H2]; (split; [exact H1 | ]); intros b Hb.
  - apply byte_eqb_eq, H2. apply list_elem_of_In, Hb.
  - apply byte_eqb_eq, H2. apply list_elem_of_In, Hb.
Qed.

Lemma equals_short_query (data str : list byte) :
  length data = 8%nat -> (length str <= 8)%nat -> x00 ∉ str ->
  StockSymbol.equals data str = symbol_equalb data str.
Proof.
  intros Hd Hs Hn.
  assert (Hnul : forall c, c ∈ str -> Byte.eqb c x00 = false).
  { intros c Hc. destruct (Byte.eqb c x00) eqn:E; [ | reflexivity].
    apply byte_eqb_eq in E. subst c. contradiction. }
  destruct data as [ | d0 [ | d1 [ | d2 [ | d3 [ | d4 [ | d5 [ | d6 [ | d7 [ | ? ?]]]]]]]]];
    try discriminate Hd. clear Hd Hn.
  do 9 (try destruct str as [ | ? str]); simpl in Hs; try lia; clear Hs.
  all: unfold StockSymbol.equals, symbol_equalb.
  all: cbn [StockSymbol.match_chars StockSymbol.char_at nth lookup_total
            list_lookup_total length take drop bytes_eqb forallb firstn skipn].
  all: rewrite ?Hnul by (set_unfold; tauto).
  all: change (Byte.eqb x00 x00) with true.
  all: repeat match goal with
       | |- context [Byte.eqb ?a ?b] =>
           destruct (Byte.eqb a b); cbn -[Byte.eqb]; try reflexivity
       end.
Qed.

(** Claim C8, at the input where the code departs from it.  The query
    "ABCDEFGHI" has nine characters; its first eight match the slot
    "ABCDEFGH", and [equals] answers [true], although the query does not
    match the leading bytes of the slot. *)
Theorem equals_long_query :
  let data := list_byte_of_string "ABCDEFGH" in
  let str := list_byte_of_string "ABCDEFGHI" in
  StockSymbol.equals data str = true /\ ~ symbol_equal data str.
Proof.
  split; [reflexivity | ].
  rewrite <- symbol_equalb_spec. discriminate.
Qed.

(** On queries of at most eight characters [equals] decides symbol
    equality as specified. *)
Lemma equals_agrees_up_to_8 (data str : list byte) :
  length data = 8%nat -> (length str <= 8)%nat -> x00 ∉ str ->
  StockSymbol.equals data str = true <-> symbol_equal data str.
Proof.
  intros Hd Hs Hn. rewrite equals_short_query by assumption.
  apply symbol_equalb_spec.
Qed.

Lemma decode_big_endian_witness :
  Wire.add_order_ok scenario_add_order /\
  AddOrder.order_ref false (Wire.layout_add_order scenario_add_order ++ [])
    = 1234567890 /\
  AddOrder.price true (Wire.layout_add_order scenario_add_order ++ [])
    = 1000000.
Proof.
  assert (H : Wire.add_order_ok scenario_add_order).
  { unfold Wire.add_order_ok. simpl. repeat split; lia. }
  split; [exact H | ].
  pose proof (proj1 (proj2 (proj2 decode_big_endian))) as Hdec.
  split.
  - exact (proj1 (proj2 (proj2 (proj2 (proj2
             (Hdec false scenario_add_order [] H)))))).
  - exact (proj2 (proj2 (proj2 (proj2 (proj2 (proj2 (proj2 (proj2
             (Hdec true scenario_add_order [] H))))))))).
Defined.

(** * The order book: matching and the invariant *)


Lemma wrap32_small (x : Z) : 0 <= x < 2 ^ 32 -> wrap32 x = x.
Proof. intros H. unfold wrap32. apply Z.mod_small. exact H. Qed.

Lemma wrap64_small (x : Z) : 0 <= x < 2 ^ 64 -> wrap64 x = x.
Proof. intros H. unfold wrap64. apply Z.mod_small. exact H. Qed.

Lemma deref_store (s s' : nat) (o : Order.t) (p : MemPool.t) :
  MemPool.deref (MemPool.store s o p) s' =
  if decide (s = s' /\ (s < length (MemPool.buffer_ p))%nat) then o
  else MemPool.deref p s'.
Proof. unfold MemPool.deref, MemPool.store. simpl. apply list_lookup_total_insert. Qed.

Lemma deref_store_eq (s : nat) (o : Order.t) (p : MemPool.t) :
  (s < length (MemPool.buffer_ p))%nat ->
  MemPool.deref (MemPool.store s o p) s = o.
Proof. intros H. rewrite deref_store. rewrite decide_True; [reflexivity | auto]. Qed.

Lemma deref_store_ne (s s' : nat) (o : Order.t) (p : MemPool.t) :
  s <> s' -> MemPool.deref (MemPool.store s o p) s' = MemPool.deref p s'.
Proof. intros H. rewrite deref_store. rewrite decide_False; [reflexivity | tauto]. Qed.

Lemma deref_deallocate (s s' : nat) (p : MemPool.t) :
  MemPool.deref (MemPool.deallocate s p) s' = MemPool.deref p s'.
Proof. reflexivity. Qed.

Lemma free_slots_store (s : nat) (o : Order.t) (p : MemPool.t) :
  free_slots (MemPool.store s o p) = free_slots p.
Proof. reflexivity. Qed.

Lemma free_slots_deallocate (s : nat) (p : MemPool.t) :
  (MemPool.free_count_ p < length (MemPool.free_list_ p))%nat ->
  free_slots (MemPool.deallocate s p) = free_slots p ++ [s].
Proof.
  intros H. unfold free_slots, MemPool.deallocate. simpl.
  rewrite (take_S_r _ _ s) by (apply list_lookup_insert_eq; exact H).
  rewrite take_insert_ge by lia. reflexivity.
Qed.

Lemma sum_qty_frame (p p' : MemPool.t) (q : list nat) :
  (forall s, s ∈ q -> MemPool.deref p' s = MemPool.deref p s) ->
  sum_qty p' q = sum_qty p q.
Proof.
  induction q as [ | s q IH]; intros H; simpl; [reflexivity | ].
  rewrite H by set_solver. rewrite IH; [reflexivity | ].
  intros s' Hs'. apply H. set_solver.
Qed.

Lemma sum_qty_nonneg (om : gmap Z nat) (p : MemPool.t) (P : Z) (c : ascii)
    (q : list nat) :
  Forall (resting om p P c) q -> 0 <= sum_qty p q.
Proof.
  induction 1 as [ | s q (_ & _ & ? & _) _ IH]; simpl; lia.
Qed.

Lemma consumes_refl (q : list nat) (om : gmap Z nat) (p : MemPool.t) :
  consumes q [] om p om p.
Proof.
  split; try reflexivity.
  - rewrite app_nil_r. reflexivity.
  - simpl. lia.
  - intros i. destruct (om !! i); reflexivity.
  - intros s Hs. set_solver.
Qed.

(** One iteration of the loop of [match_at_level], when the maker is
    filled entirely... *)
Lemma match_at_level_loop_full (maker : nat) (rest : list nat)
    (level_price tv taker_id remaining : Z) (maker_side : Side)
    (on_execution : bool) (om : gmap Z nat) (p : MemPool.t) :
  let m := MemPool.deref p maker in
  0 < Order.qty m <= remaining -> remaining < 2 ^ 32 ->
  OrderBook.match_at_level_loop (maker :: rest) level_price tv taker_id
    remaining maker_side on_execution om p =
  OrderBook.report
    (if on_execution
     then [Execution.mk (Order.id m) taker_id level_price (Order.qty m)
             maker_side]
     else [])
    (OrderBook.match_at_level_loop rest level_price
       (if Order.qty m <=? tv then wrap64 (tv - Order.qty m) else 0)
       taker_id (remaining - Order.qty m) maker_side on_execution
       (delete (Order.id m) om)
       (MemPool.deallocate maker
          (MemPool.store maker
             (Order.mk (Order.id m) (Order.price m) 0 (Order.side m)) p))).
Proof.
  intros m Hq Hr. simpl.
  replace (remaining >? 0) with true by lia.
  fold m. rewrite Z.min_r by lia.
  unfold Order.reduce_qty.
  replace (Order.qty m >=? Order.qty m) with true by lia.
  simpl. rewrite wrap32_small by lia. reflexivity.
Qed.

(** ... and when it is filled in part. *)
Lemma match_at_level_loop_partial (maker : nat) (rest : list nat)
    (level_price tv taker_id remaining : Z) (maker_side : Side)
    (on_execution : bool) (om : gmap Z nat) (p : MemPool.t) :
  let m := MemPool.deref p maker in
  0 < remaining < Order.qty m -> Order.qty m < 2 ^ 32 ->
  OrderBook.match_at_level_loop (maker :: rest) level_price tv taker_id
    remaining maker_side on_execution om p =
  OrderBook.Matched 0
    (PriceLevel.mk level_price (maker :: rest)
       (if remaining <=? tv then wrap64 (tv - remaining) else 0))
    om
    (MemPool.store maker
       (Order.mk (Order.id m) (Order.price m) (Order.qty m - remaining)
          (Order.side m)) p)
    (if on_execution
     then [Execution.mk (Order.id m) taker_id level_price remaining
             maker_side]
     else []).
Proof.
  intros m Hq Hr. simpl.
  replace (remaining >? 0) with true by lia.
  fold m. rewrite Z.min_l by lia.
  unfold Order.reduce_qty.
  replace (remaining >=? Order.qty m) with false by lia.
  unfold Order.is_filled. simpl.
  rewrite (wrap32_small (Order.qty m - remaining)) by lia.
  replace (Order.qty m - remaining =? 0) with false by lia.
  unfold wrap32. rewrite Z.sub_diag. reflexivity.
Qed.

Lemma level_fills_nil_remaining (P taker : Z) (ms : Side) (makers : list Order.t) :
  level_fills P taker ms 0 makers = [].
Proof. destruct makers; reflexivity. Qed.

Lemma match_at_level_loop_spec (q : list nat) :
  forall (P tv taker rem : Z) (mside : Side) (cb : bool)
         (om : gmap Z nat) (p : MemPool.t) (c : ascii),
  NoDup q ->
  (MemPool.free_count_ p + length q <= length (MemPool.free_list_ p))%nat ->
  Forall (fun s => (s < length (MemPool.buffer_ p))%nat) q ->
  Forall (resting om p P c) q ->
  (forall i s, om !! i = Some s -> Order.id (MemPool.deref p s) = i) ->
  0 <= rem < 2 ^ 32 ->
  let r := OrderBook.match_at_level_loop q P tv taker rem mside cb om p in
  let fills := level_fills P taker mside rem (MemPool.deref p <$> q) in
  exists consumed,
    q = consumed ++ PriceLevel.orders (OrderBook.m_target r) /\
    PriceLevel.price (OrderBook.m_target r) = P /\
    consumes q consumed om p (OrderBook.m_index r) (OrderBook.m_pool r) /\
    Forall (resting (OrderBook.m_index r) (OrderBook.m_pool r) P c)
      (PriceLevel.orders (OrderBook.m_target r)) /\
    (OrderBook.m_remaining r = 0 \/
     PriceLevel.orders (OrderBook.m_target r) = []) /\
    0 <= OrderBook.m_remaining r <= rem /\
    OrderBook.m_remaining r = rem - filled fills /\
    OrderBook.m_reported r = (if cb then fills else []) /\
    (tv = sum_qty p q -> sum_qty p q < 2 ^ 64 ->
     PriceLevel.total_volume (OrderBook.m_target r)
     = sum_qty (OrderBook.m_pool r) (PriceLevel.orders (OrderBook.m_target r))).
Proof.
  induction q as [ | s rest IH];
    intros P tv taker rem mside cb om p c Hnd Hfc Hlt Hrest Hidx Hrem.
  { exists []. simpl. split_and!; auto using consumes_refl; try lia.
    destruct cb; reflexivity. }
  apply NoDup_cons in Hnd as [Hs Hnd].
  apply Forall_cons in Hlt as [Hslt Hlt].
  apply Forall_cons in Hrest as [Hsrest Hrest].
  pose proof Hsrest as (Hprice & Hside & Hqty & Hom).
  simpl length in Hfc.
  set (m := MemPool.deref p s) in *.
  destruct (Z.eq_dec rem 0) as [-> | Hrem0].
  { (* nothing left to fill *)
    exists []. simpl. split_and!; auto using consumes_refl; try lia.
    all: try (destruct cb; reflexivity).
    all: try (constructor; assumption). }
  destruct (Z_lt_le_dec rem (Order.qty m)) as [Hpart | Hfull].
  - (* the maker is filled in part and stays at the head of the queue *)
    intros r fills. subst r fills.
    rewrite match_at_level_loop_partial by (fold m; lia).
    fold m. set (m' := Order.mk _ _ _ _).
    exists []. cbn [OrderBook.m_target OrderBook.m_index OrderBook.m_pool
      OrderBook.m_remaining OrderBook.m_reported PriceLevel.orders
      PriceLevel.price PriceLevel.total_volume app].
    assert (Hframe : forall s', s' <> s ->
      MemPool.deref (MemPool.store s m' p) s' = MemPool.deref p s').
    { intros s' Hne. apply deref_store_ne. congruence. }
    assert (Hm' : MemPool.deref (MemPool.store s m' p) s = m')
      by (apply deref_store_eq; exact Hslt).
    assert (Hfills : level_fills P taker mside rem (MemPool.deref p <$> s :: rest)
      = [Execution.mk (Order.id m) taker P rem mside]).
    { simpl. fold m. replace (rem >? 0) with true by lia.
      rewrite Z.min_l by lia. rewrite Z.sub_diag, level_fills_nil_remaining.
      reflexivity. }
    rewrite Hfills.
    split_and!; auto; try (simpl; lia).
    + split; try reflexivity.
      * rewrite app_nil_r. reflexivity.
      * simpl. lia.
      * unfold MemPool.store. simpl. apply length_insert.
      * intros s' Hs'. apply Hframe. set_solver.
      * intros s'. destruct (decide (s' = s)) as [-> | Hne];
          [rewrite Hm'; reflexivity | rewrite Hframe by exact Hne; reflexivity].
      * intros s'. destruct (decide (s' = s)) as [-> | Hne];
          [rewrite Hm'; reflexivity | rewrite Hframe by exact Hne; reflexivity].
      * intros s'. destruct (decide (s' = s)) as [-> | Hne];
          [rewrite Hm'; reflexivity | rewrite Hframe by exact Hne; reflexivity].
      * intros i. destruct (om !! i); reflexivity.
      * intros s' Hs'. set_solver.
    + constructor.
      * unfold resting. rewrite Hm'. subst m'. simpl.
        split_and!; auto; lia.
      * apply Forall_forall. intros s' Hs'.
        rewrite Forall_forall in Hrest. specialize (Hrest s' Hs').
        unfold resting in *. rewrite Hframe by (intros ->; contradiction).
        exact Hrest.
    + intros Htv Hbound. simpl in Htv, Hbound |- *. fold m in Htv, Hbound.
      rewrite Hm'. subst m'. simpl.
      rewrite (sum_qty_frame p (MemPool.store s _ p) rest)
        by (intros s' Hs'; apply Hframe; intros ->; contradiction).
      pose proof (sum_qty_nonneg _ _ _ _ _ Hrest).
      replace (rem <=? tv) with true by lia.
      rewrite wrap64_small by lia. lia.
  - (* the maker is filled and leaves the queue *)
    intros r fills. subst r fills.
    rewrite match_at_level_loop_full by (fold m; lia).
    fold m. set (m0 := Order.mk _ _ 0 _).
    set (p1 := MemPool.deallocate s (MemPool.store s m0 p)).
    set (om1 := delete (Order.id m) om).
    set (tv1 := if Order.qty m <=? tv then _ else _).
    assert (Hframe : forall s', s' <> s -> MemPool.deref p1 s' = MemPool.deref p s').
    { intros s' Hne. subst p1. rewrite deref_deallocate.
      apply deref_store_ne. congruence. }
    assert (Hm0 : MemPool.deref p1 s = m0).
    { subst p1. rewrite deref_deallocate. apply deref_store_eq. exact Hslt. }
    assert (Hfree1 : free_slots p1 = free_slots p ++ [s]).
    { subst p1. rewrite free_slots_deallocate by (simpl; lia).
      reflexivity. }
    assert (Hrest1 : Forall (resting om1 p1 P c) rest).
    { apply Forall_forall. intros s' Hs'.
      rewrite Forall_forall in Hrest. specialize (Hrest s' Hs').
      assert (s' <> s) by (intros ->; contradiction).
      unfold resting in *. rewrite Hframe by assumption.
      destruct Hrest as (? & ? & ? & Hom'). split_and!; auto; try lia.
      subst om1. rewrite lookup_delete_ne; [exact Hom' | ].
      intros Heq. fold m in Hom. rewrite Heq in Hom. congruence. }
    assert (Hidx1 : forall i s', om1 !! i = Some s' ->
      Order.id (MemPool.deref p1 s') = i).
    { intros i s' Hi. subst om1. apply lookup_delete_Some in Hi as [Hne Hi].
      apply Hidx in Hi. destruct (decide (s' = s)) as [-> | Hne'].
      - rewrite Hm0. subst m0. simpl. exact Hi.
      - rewrite Hframe by exact Hne'. exact Hi. }
    destruct (IH P tv1 taker (rem - Order.qty m) mside cb om1 p1 c)
      as (consumed & Hq & Hp & Hcons & Hres & Hdone & [Hnn Hle] & Hleft & Hrep & Hvol);
      auto; try lia.
    { subst p1. simpl. rewrite length_insert. lia. }
    { subst p1. simpl. rewrite length_insert. exact Hlt. }
    set (r' := OrderBook.match_at_level_loop rest P tv1 taker
                 (rem - Order.qty m) mside cb om1 p1) in *.
    assert (Hmakers : MemPool.deref p1 <$> rest = MemPool.deref p <$> rest).
    { apply list_fmap_ext. intros ? s' Hs'%list_elem_of_lookup_2.
      apply Hframe. intros ->; contradiction. }
    rewrite Hmakers in Hleft, Hrep.
    assert (Hfills : level_fills P taker mside rem (MemPool.deref p <$> s :: rest)
      = Execution.mk (Order.id m) taker P (Order.qty m) mside
        :: level_fills P taker mside (rem - Order.qty m) (MemPool.deref p <$> rest)).
    { simpl. fold m. replace (rem >? 0) with true by lia.
      rewrite Z.min_r by lia. reflexivity. }
    rewrite Hfills.
    exists (s :: consumed).
    cbn [OrderBook.report OrderBook.m_target OrderBook.m_index OrderBook.m_pool
      OrderBook.m_remaining OrderBook.m_reported].
    split_and!; auto.
    + simpl. rewrite <- Hq. reflexivity.
    + destruct Hcons. split.
      * rewrite c_free0, Hfree1, <- app_assoc. reflexivity.
      * rewrite c_free_count0. subst p1. simpl. lia.
      * rewrite c_free_len0. subst p1. simpl. apply length_insert.
      * rewrite c_buffer_len0. subst p1. simpl. apply length_insert.
      * intros s' Hs'. apply not_elem_of_cons in Hs' as [Hne Hs'].
        rewrite c_frame0 by exact Hs'. apply Hframe. exact Hne.
      * intros s'. rewrite c_id0. destruct (decide (s' = s)) as [-> | Hne];
          [rewrite Hm0; reflexivity | rewrite Hframe by exact Hne; reflexivity].
      * intros s'. rewrite c_price0. destruct (decide (s' = s)) as [-> | Hne];
          [rewrite Hm0; reflexivity | rewrite Hframe by exact Hne; reflexivity].
      * intros s'. rewrite c_side0. destruct (decide (s' = s)) as [-> | Hne];
          [rewrite Hm0; reflexivity | rewrite Hframe by exact Hne; reflexivity].
      * intros i. rewrite c_index0. subst om1.
        destruct (decide (i = Order.id m)) as [-> | Hne].
        -- rewrite lookup_delete_eq, Hom. simpl.
           rewrite decide_True by set_solver. reflexivity.
        -- rewrite lookup_delete_ne by congruence.
           destruct (om !! i) as [s' | ] eqn:Hi; simpl; [ | reflexivity].
           assert (s' <> s).
           { intros ->. apply Hidx in Hi. fold m in Hi. congruence. }
           destruct (decide (s' ∈ consumed));
             [rewrite decide_True by set_solver | rewrite decide_False by set_solver];
             reflexivity.
      * intros s' Hs'. apply elem_of_cons in Hs' as [-> | Hs']; [set_solver | ].
        apply elem_of_cons. right. apply c_sub0. exact Hs'.
    + lia.
    + rewrite Hleft. simpl. lia.
    + rewrite Hrep. destruct cb; reflexivity.
    + intros Htv Hbound. simpl in Htv, Hbound. fold m in Htv, Hbound.
      pose proof (sum_qty_nonneg _ _ _ _ _ Hrest).
      assert (Hsum1 : sum_qty p1 rest = sum_qty p rest).
      { apply sum_qty_frame. intros s' Hs'. apply Hframe.
        intros ->; contradiction. }
      apply Hvol; rewrite Hsum1; [ | lia].
      subst tv1. replace (Order.qty m <=? tv) with true by lia.
      rewrite wrap64_small by lia. lia.
Qed.

Section Consumes.
Context {q consumed : list nat} {om om' : gmap Z nat} {p p' : MemPool.t}.
Hypothesis H : consumes q consumed om p om' p'.

Lemma consumes_lookup (i : Z) (s : nat) :
  om' !! i = Some s <-> om !! i = Some s /\ s ∉ consumed.
Proof.
  rewrite (c_index _ _ _ _ _ _ H). destruct (om !! i) as [s' | ]; simpl.
  - destruct (decide (s' ∈ consumed)); split.
    + discriminate.
    + intros [[= ->] ?]. contradiction.
    + intros [= ->]. auto.
    + intros [? _]. assumption.
  - split; [discriminate | intros [? _]; discriminate].
Qed.

Lemma consumes_resting (P : Z) (c : ascii) (s : nat) :
  s ∉ q -> resting om p P c s -> resting om' p' P c s.
Proof.
  intros Hs (Hp & Hc & Hq & Hi). unfold resting.
  rewrite (c_frame _ _ _ _ _ _ H) by exact Hs. split_and!; auto; try lia.
  apply consumes_lookup. split; [exact Hi | ].
  intros Hin. apply Hs. eapply c_sub; eauto.
Qed.

Lemma consumes_level_ok (c : ascii) (l : PriceLevel.t) :
  (forall s, s ∈ PriceLevel.orders l -> s ∉ q) ->
  level_ok om p c l -> level_ok om' p' c l.
Proof.
  intros Hd [Hne Hl]. split; [exact Hne | ].
  apply Forall_forall. intros s Hs. rewrite Forall_forall in Hl.
  apply consumes_resting; auto.
Qed.

Lemma consumes_sum_qty (k : list nat) :
  (forall s, s ∈ k -> s ∉ q) -> sum_qty p' k = sum_qty p k.
Proof.
  intros Hd. apply sum_qty_frame. intros s Hs.
  apply (c_frame _ _ _ _ _ _ H). auto.
Qed.

Lemma consumes_volume_ok (l : PriceLevel.t) :
  (forall s, s ∈ PriceLevel.orders l -> s ∉ q) ->
  volume_ok p l -> volume_ok p' l.
Proof.
  intros Hd Hv. unfold volume_ok. rewrite consumes_sum_qty by exact Hd.
  exact Hv.
Qed.

Lemma consumes_index_ok : index_ok om p -> index_ok om' p'.
Proof.
  intros Hi i s Hs. apply consumes_lookup in Hs as [Hs _].
  rewrite (c_id _ _ _ _ _ _ H). apply Hi. exact Hs.
Qed.

Lemma consumes_weaken (q' : list nat) :
  (forall s, s ∈ q -> s ∈ q') -> consumes q' consumed om p om' p'.
Proof.
  intros Hsub. destruct H. split; auto.
Qed.
End Consumes.

Lemma consumes_trans (q1 q2 c1 c2 : list nat) (om om1 om2 : gmap Z nat)
    (p p1 p2 : MemPool.t) :
  consumes q1 c1 om p om1 p1 -> consumes q2 c2 om1 p1 om2 p2 ->
  consumes (q1 ++ q2) (c1 ++ c2) om p om2 p2.
Proof.
  intros H1 H2. split.
  - rewrite (c_free _ _ _ _ _ _ H2), (c_free _ _ _ _ _ _ H1), app_assoc.
    reflexivity.
  - rewrite (c_free_count _ _ _ _ _ _ H2), (c_free_count _ _ _ _ _ _ H1),
      length_app. lia.
  - rewrite (c_free_len _ _ _ _ _ _ H2). apply (c_free_len _ _ _ _ _ _ H1).
  - rewrite (c_buffer_len _ _ _ _ _ _ H2). apply (c_buffer_len _ _ _ _ _ _ H1).
  - intros s Hs. rewrite elem_of_app in Hs.
    rewrite (c_frame _ _ _ _ _ _ H2), (c_frame _ _ _ _ _ _ H1); tauto.
  - intros s. rewrite (c_id _ _ _ _ _ _ H2). apply (c_id _ _ _ _ _ _ H1).
  - intros s. rewrite (c_price _ _ _ _ _ _ H2). apply (c_price _ _ _ _ _ _ H1).
  - intros s. rewrite (c_side _ _ _ _ _ _ H2). apply (c_side _ _ _ _ _ _ H1).
  - intros i. rewrite (c_index _ _ _ _ _ _ H2), (c_index _ _ _ _ _ _ H1).
    destruct (om !! i) as [s | ]; simpl; [ | reflexivity].
    destruct (decide (s ∈ c1)); simpl.
    + rewrite decide_True by set_solver. reflexivity.
    + destruct (decide (s ∈ c2));
        [rewrite decide_True by set_solver | rewrite decide_False by set_solver];
        reflexivity.
  - intros s Hs. rewrite elem_of_app in Hs. rewrite elem_of_app.
    destruct Hs as [Hs | Hs];
      [left; eapply c_sub; eauto | right; eapply c_sub; eauto].
Qed.

Lemma slots_cons (l : PriceLevel.t) (ls : list PriceLevel.t) :
  slots (l :: ls) = PriceLevel.orders l ++ slots ls.
Proof. reflexivity. Qed.

Lemma elem_of_slots (s : nat) (ls : list PriceLevel.t) :
  s ∈ slots ls <-> exists l, l ∈ ls /\ s ∈ PriceLevel.orders l.
Proof.
  unfold slots. rewrite list_elem_of_join. split.
  - intros (q & Hs & Hq). apply list_elem_of_fmap in Hq as (l & -> & Hl). eauto.
  - intros (l & Hl & Hs). exists (PriceLevel.orders l). split; [exact Hs | ].
    apply list_elem_of_fmap. eauto.
Qed.

Lemma book_fills_app (stop : Z -> bool) (taker P : Z) (mside : Side)
    (ms1 ms2 : list Order.t) (rem : Z) :
  stop P = false ->
  Forall (fun m => Order.price m = P) ms1 ->
  book_fills stop taker mside rem (ms1 ++ ms2) =
  level_fills P taker mside rem ms1 ++
  book_fills stop taker mside
    (rem - filled (level_fills P taker mside rem ms1)) ms2.
Proof.
  intros Hstop Hp. revert rem.
  induction Hp as [ | m ms1 Hm _ IH]; intros rem; simpl.
  - f_equal. lia.
  - rewrite Hm, Hstop. simpl. destruct (rem >? 0) eqn:Hrem; simpl.
    + rewrite IH. do 3 f_equal. lia.
    + destruct ms2 as [ | m2 ms2]; simpl; [reflexivity | ].
      rewrite Z.sub_0_r, Hrem. reflexivity.
Qed.

Lemma book_fills_zero (stop : Z -> bool) (taker : Z) (mside : Side)
    (ms : list Order.t) :
  book_fills stop taker mside 0 ms = [].
Proof. destruct ms; reflexivity. Qed.

Lemma filled_app (es1 es2 : list Execution.t) :
  filled (es1 ++ es2) = filled es1 + filled es2.
Proof. induction es1 as [ | e es1 IH]; simpl; lia. Qed.

Lemma PriceLevel_empty_iff (l : PriceLevel.t) :
  PriceLevel.empty l = true <-> PriceLevel.orders l = [].
Proof.
  unfold PriceLevel.empty, IntrusiveList.empty.
  destruct (PriceLevel.orders l); split; congruence.
Qed.

Lemma match_levels_spec (stop : Z -> bool) (mside : Side) (c : ascii)
    (L : list PriceLevel.t) :
  forall (taker rem : Z) (cb : bool) (om : gmap Z nat) (p : MemPool.t),
  NoDup (slots L) ->
  (MemPool.free_count_ p + length (slots L)
   <= length (MemPool.free_list_ p))%nat ->
  Forall (fun s => (s < length (MemPool.buffer_ p))%nat) (slots L) ->
  Forall (level_ok om p c) L ->
  index_ok om p ->
  0 <= rem < 2 ^ 32 ->
  let r := match_levels stop mside L taker rem cb om p in
  let fills := book_fills stop taker mside rem (MemPool.deref p <$> slots L) in
  exists consumed,
    slots L = consumed ++ slots (OrderBook.m_target r) /\
    consumes (slots L) consumed om p (OrderBook.m_index r)
      (OrderBook.m_pool r) /\
    Forall (level_ok (OrderBook.m_index r) (OrderBook.m_pool r) c)
      (OrderBook.m_target r) /\
    (exists k, PriceLevel.price <$> OrderBook.m_target r
               = drop k (PriceLevel.price <$> L)) /\
    (OrderBook.m_remaining r = 0 \/
     match OrderBook.m_target r with
     | [] => True
     | l :: _ => stop (PriceLevel.price l) = true
     end) /\
    0 <= OrderBook.m_remaining r <= rem /\
    OrderBook.m_remaining r = rem - filled fills /\
    OrderBook.m_reported r = (if cb then fills else []) /\
    (Forall (volume_ok p) L ->
     Forall (fun l => sum_qty p (PriceLevel.orders l) < 2 ^ 64) L ->
     Forall (volume_ok (OrderBook.m_pool r)) (OrderBook.m_target r)).
Proof.
  induction L as [ | level rest IH];
    intros taker rem cb om p Hnd Hfc Hlt Hok Hidx Hrem.
  { exists []. simpl. split_and!; auto using consumes_refl; try lia.
    - exists O. reflexivity.
    - destruct cb; reflexivity. }
  rewrite slots_cons in Hnd, Hfc, Hlt.
  apply NoDup_app in Hnd as (Hnd1 & Hdisj & Hnd2).
  apply Forall_app in Hlt as [Hlt1 Hlt2].
  apply Forall_cons in Hok as [[Hne Hres] Hok].
  rewrite length_app in Hfc.
  assert (Hhead : exists s q, PriceLevel.orders level = s :: q).
  { destruct (PriceLevel.orders level) as [ | s q]; [contradiction | eauto]. }
  destruct Hhead as (s0 & q0 & Hs0).
  assert (Hs0p : Order.price (MemPool.deref p s0) = PriceLevel.price level).
  { rewrite Hs0 in Hres. apply Forall_cons in Hres as [(? & _) _].
    assumption. }
  assert (Hok0 : Forall (level_ok om p c) (level :: rest))
    by (constructor; [split | ]; assumption).
  destruct (Z.eq_dec rem 0) as [-> | Hrem0].
  { intros r fills. subst r fills. rewrite book_fills_zero.
    exists []. simpl. split_and!; auto using consumes_refl; try lia.
    - exists O. reflexivity.
    - destruct cb; reflexivity. }
  destruct (stop (PriceLevel.price level)) eqn:Hstop.
  { intros r fills. subst r fills.
    assert (Hf : book_fills stop taker mside rem
                   (MemPool.deref p <$> slots (level :: rest)) = []).
    { rewrite slots_cons, Hs0. simpl. rewrite Hs0p, Hstop, andb_false_r.
      reflexivity. }
    rewrite Hf. exists []. simpl. replace (rem >? 0) with true by lia.
    rewrite Hstop. simpl.
    split_and!; auto using consumes_refl; try lia.
    - exists O. reflexivity.
    - destruct cb; reflexivity. }
  (* the level crosses *)
  intros r fills. subst r fills. simpl match_levels.
  replace (rem >? 0) with true by lia. rewrite Hstop.
  unfold OrderBook.match_at_level.
  destruct (match_at_level_loop_spec (PriceLevel.orders level)
              (PriceLevel.price level) (PriceLevel.total_volume level)
              taker rem mside cb om p c)
    as (c1 & Hq1 & Hp1 & Hcons1 & Hres1 & Hdone1 & [Hnn1 Hle1] & Hleft1 & Hrep1 & Hvol1);
    auto; try lia.
  set (r1 := OrderBook.match_at_level_loop _ _ _ _ _ _ _ _ _) in *.
  assert (Hmk : Forall (fun m => Order.price m = PriceLevel.price level)
                  (MemPool.deref p <$> PriceLevel.orders level)).
  { apply Forall_fmap. eapply Forall_impl; [exact Hres | ].
    intros s' (? & _). assumption. }
  rewrite slots_cons, fmap_app.
  rewrite (book_fills_app stop taker (PriceLevel.price level)) by assumption.
  assert (Hrest_d : forall l, l ∈ rest ->
            forall s', s' ∈ PriceLevel.orders l -> s' ∉ PriceLevel.orders level).
  { intros l Hl s' Hs' Hin. apply (Hdisj s' Hin).
    apply elem_of_slots. eauto. }
  assert (Hok1 : Forall (level_ok (OrderBook.m_index r1) (OrderBook.m_pool r1) c) rest).
  { apply Forall_forall. intros l Hl. rewrite Forall_forall in Hok.
    eapply consumes_level_ok; eauto. }
  destruct (PriceLevel.empty (OrderBook.m_target r1)) eqn:Hempty.
  - (* the level is emptied and erased; the loop goes on *)
    apply PriceLevel_empty_iff in Hempty.
    rewrite Hempty, app_nil_r in Hq1.
    destruct (IH taker (OrderBook.m_remaining r1) cb (OrderBook.m_index r1)
                (OrderBook.m_pool r1))
      as (c2 & Hq2 & Hcons2 & Hok2 & [k Hk] & Hdone2 & [Hnn2 Hle2] & Hleft2 & Hrep2 & Hvol2);
      auto; try lia.
    { rewrite (c_free_count _ _ _ _ _ _ Hcons1), (c_free_len _ _ _ _ _ _ Hcons1).
      rewrite <- Hq1. lia. }
    { rewrite (c_buffer_len _ _ _ _ _ _ Hcons1). exact Hlt2. }
    { eapply consumes_index_ok; eauto. }
    set (r2 := match_levels _ _ _ _ _ _ _ _) in *.
    assert (Hmk2 : MemPool.deref (OrderBook.m_pool r1) <$> slots rest
                   = MemPool.deref p <$> slots rest).
    { apply list_fmap_ext. intros ? s' Hs'%list_elem_of_lookup_2.
      apply (c_frame _ _ _ _ _ _ Hcons1). intros Hin.
      apply (Hdisj s' Hin Hs'). }
    rewrite Hmk2 in Hleft2, Hrep2. rewrite <- Hleft1.
    exists (c1 ++ c2).
    cbn [OrderBook.report OrderBook.m_target OrderBook.m_index OrderBook.m_pool
      OrderBook.m_remaining OrderBook.m_reported].
    split_and!; auto; try lia.
    + rewrite <- app_assoc, <- Hq2, <- Hq1. reflexivity.
    + eapply consumes_trans; eauto.
    + exists (S k). simpl. exact Hk.
    + rewrite Hleft2, filled_app. lia.
    + rewrite Hrep1, Hrep2. destruct cb; reflexivity.
    + intros Hv Hb. apply Forall_cons in Hv as [_ Hv].
      apply Forall_cons in Hb as [_ Hb]. apply Hvol2.
      * apply Forall_forall. intros l Hl. rewrite Forall_forall in Hv.
        eapply consumes_volume_ok; eauto.
      * apply Forall_forall. intros l Hl. rewrite Forall_forall in Hb.
        rewrite (consumes_sum_qty Hcons1) by eauto. auto.
  - (* makers are left at the level: nothing is left to fill *)
    assert (Hne1 : PriceLevel.orders (OrderBook.m_target r1) <> []).
    { intros Heq. apply PriceLevel_empty_iff in Heq. congruence. }
    destruct Hdone1 as [Hzero | Hnil]; [ | contradiction].
    exists c1.
    cbn [OrderBook.report OrderBook.m_target OrderBook.m_index OrderBook.m_pool
      OrderBook.m_remaining OrderBook.m_reported].
    rewrite <- Hleft1, Hzero.
    rewrite book_fills_zero, app_nil_r.
    split_and!; auto; try lia.
    + rewrite slots_cons, app_assoc, <- Hq1. reflexivity.
    + eapply consumes_weaken; [exact Hcons1 | ]. intros s' Hs'. set_solver.
    + constructor; [ | exact Hok1]. split; [exact Hne1 | ].
      rewrite Hp1. exact Hres1.
    + exists O. simpl. rewrite Hp1. reflexivity.
    + intros Hv Hb. apply Forall_cons in Hv as [Hv0 Hv].
      apply Forall_cons in Hb as [Hb0 Hb]. constructor.
      * apply Hvol1; assumption.
      * apply Forall_forall. intros l Hl. rewrite Forall_forall in Hv.
        eapply consumes_volume_ok; eauto.
Qed.


Lemma opposite_involutive (c : Side) : opposite (opposite c) = c.
Proof. destruct c; reflexivity. Qed.

Lemma ahead_opposite (c : Side) (a b : Z) :
  ahead (opposite c) a b = ahead c b a.
Proof. destruct c; simpl; lia. Qed.

Lemma ahead_trans (c : Side) (x y z : Z) :
  ahead c x y = true -> ahead c y z = true -> ahead c x z = true.
Proof. destruct c; simpl; lia. Qed.

Lemma ahead_irrefl (c : Side) (x : Z) : ahead c x x = false.
Proof. destruct c; simpl; lia. Qed.

Lemma ahead_total (c : Side) (x y : Z) :
  ahead c x y = false -> x <> y -> ahead c y x = true.
Proof. destruct c; simpl; lia. Qed.

Lemma wf_parts_swap (Capacity : nat) (c : Side) (own opp : list PriceLevel.t)
    (om : gmap Z nat) (p : MemPool.t) :
  wf_parts Capacity c own opp om p ->
  wf_parts Capacity (opposite c) opp own om p.
Proof.
  intros []. split; auto.
  - rewrite <- wf_pool0. apply Permutation_app_head, Permutation_app_comm.
  - rewrite opposite_involutive. assumption.
  - rewrite opposite_involutive. assumption.
  - intros i s Hi. destruct (wf_index0 i s Hi) as [Hs ?]. split; [ | assumption].
    rewrite elem_of_app in *. tauto.
  - intros lo lx Ho Hx. rewrite opposite_involutive, <- ahead_opposite. auto.
Qed.

Section PoolFacts.
Context {Capacity : nat} {c : Side} {own opp : list PriceLevel.t}
        {om : gmap Z nat} {p : MemPool.t}.
Hypothesis H : wf_parts Capacity c own opp om p.

Lemma wf_NoDup : NoDup (free_slots p ++ slots own ++ slots opp).
Proof. rewrite (wf_pool _ _ _ _ _ _ H). apply NoDup_seq. Qed.

Lemma wf_slot_lt (s : nat) :
  s ∈ free_slots p ++ slots own ++ slots opp -> (s < Capacity)%nat.
Proof.
  rewrite (wf_pool _ _ _ _ _ _ H), elem_of_seq. lia.
Qed.

Lemma wf_free_length : length (free_slots p) = MemPool.free_count_ p.
Proof.
  unfold free_slots. rewrite length_take, (wf_free_len _ _ _ _ _ _ H).
  pose proof (wf_free_count _ _ _ _ _ _ H). lia.
Qed.

Lemma wf_count :
  (MemPool.free_count_ p + length (slots own) + length (slots opp)
   = Capacity)%nat.
Proof.
  pose proof (Permutation_length (wf_pool _ _ _ _ _ _ H)) as Hl.
  rewrite !length_app, length_seq, wf_free_length in Hl. lia.
Qed.

Lemma wf_index_ok : index_ok om p.
Proof. intros i s Hi. apply (wf_index _ _ _ _ _ _ H i s Hi). Qed.
End PoolFacts.

Lemma sorted_ladder_prices (c : Side) (L : list PriceLevel.t) :
  sorted_ladder c L <->
  StronglySorted (fun a b => ahead c a b = true) (PriceLevel.price <$> L).
Proof.
  unfold sorted_ladder. induction L as [ | l L IH]; simpl.
  - split; constructor.
  - rewrite !StronglySorted_cons, IH, Forall_fmap. reflexivity.
Qed.

Lemma StronglySorted_drop {A} (R : A -> A -> Prop) (k : nat) (l : list A) :
  StronglySorted R l -> StronglySorted R (drop k l).
Proof.
  intros H. rewrite <- (take_drop k l) in H.
  apply StronglySorted_app in H. tauto.
Qed.

Lemma elem_of_prices (x : PriceLevel.t) (L L' : list PriceLevel.t) (k : nat) :
  PriceLevel.price <$> L' = drop k (PriceLevel.price <$> L) ->
  x ∈ L' -> exists y, y ∈ L /\ PriceLevel.price y = PriceLevel.price x.
Proof.
  intros Hk Hx.
  assert (Hp : PriceLevel.price x ∈ PriceLevel.price <$> L).
  { eapply subseteq_drop. rewrite <- Hk. apply list_elem_of_fmap_2. exact Hx. }
  apply list_elem_of_fmap in Hp as (y & Hy & Hin). eauto.
Qed.

(** The matching phase keeps the invariant; when something is left, no
    level of the opposite ladder crosses the incoming price. *)
Lemma match_levels_wf (Capacity : nat) (c : Side)
    (own opp : list PriceLevel.t) (om : gmap Z nat) (p : MemPool.t)
    (taker price rem : Z) (cb : bool) :
  wf_parts Capacity c own opp om p ->
  0 <= rem < 2 ^ 32 ->
  let r := match_levels (ahead (opposite c) price) (opposite c) opp taker rem
             cb om p in
  wf_parts Capacity c own (OrderBook.m_target r) (OrderBook.m_index r)
    (OrderBook.m_pool r) /\
  (OrderBook.m_remaining r = 0 \/
   forall lx, lx ∈ OrderBook.m_target r ->
     ahead (opposite c) price (PriceLevel.price lx) = true) /\
  0 <= OrderBook.m_remaining r <= rem /\
  (forall i, om !! i = None -> OrderBook.m_index r !! i = None) /\
  OrderBook.m_reported r =
    (if cb
     then book_fills (ahead (opposite c) price) taker (opposite c) rem
            (MemPool.deref p <$> slots opp)
     else []) /\
  OrderBook.m_remaining r = rem - filled
     (book_fills (ahead (opposite c) price) taker (opposite c) rem
            (MemPool.deref p <$> slots opp)) /\
  (forall s, s ∈ slots own -> 
     MemPool.deref (OrderBook.m_pool r) s = MemPool.deref p s) /\
  (Forall (volume_ok p) opp ->
   Forall (fun l => sum_qty p (PriceLevel.orders l) < 2 ^ 64) opp ->
   Forall (volume_ok (OrderBook.m_pool r)) (OrderBook.m_target r)).
Proof.
  intros Hwf Hrem r.
  pose proof (wf_NoDup Hwf) as Hnd.
  apply NoDup_app in Hnd as (Hnd_free & Hfree_d & Hnd).
  apply NoDup_app in Hnd as (Hnd_own & Hown_d & Hnd_opp).
  pose proof (wf_count Hwf) as Hcount.
  destruct (match_levels_spec (ahead (opposite c) price) (opposite c)
              (Side_to_char (opposite c)) opp taker rem cb om p)
    as (consumed & Hq & Hcons & Hok & [k Hk] & Hdone & Hle & Hleft & Hrep & Hvol);
    auto.
  { rewrite (wf_free_len _ _ _ _ _ _ Hwf). lia. }
  { apply Forall_forall. intros s Hs. rewrite (wf_buffer_len _ _ _ _ _ _ Hwf).
    apply (wf_slot_lt Hwf). set_solver. }
  { apply (wf_opp _ _ _ _ _ _ Hwf). }
  { apply (wf_index_ok Hwf). }
  fold r in Hq, Hcons, Hok, Hk, Hdone, Hle, Hleft, Hrep, Hvol.
  assert (Hsorted : sorted_ladder (opposite c) (OrderBook.m_target r)).
  { apply sorted_ladder_prices. rewrite Hk. apply StronglySorted_drop.
    apply sorted_ladder_prices, (wf_opp_sorted _ _ _ _ _ _ Hwf). }
  split_and!.
  - split.
    + rewrite (c_free _ _ _ _ _ _ Hcons).
      rewrite <- (wf_pool _ _ _ _ _ _ Hwf), Hq.
      rewrite <- !app_assoc. apply Permutation_app_head.
      rewrite !app_assoc. apply Permutation_app_tail, Permutation_app_comm.
    + rewrite (c_free_count _ _ _ _ _ _ Hcons).
      rewrite Hq, length_app in Hcount. lia.
    + rewrite (c_free_len _ _ _ _ _ _ Hcons). apply (wf_free_len _ _ _ _ _ _ Hwf).
    + rewrite (c_buffer_len _ _ _ _ _ _ Hcons).
      apply (wf_buffer_len _ _ _ _ _ _ Hwf).
    + pose proof (wf_own _ _ _ _ _ _ Hwf) as Hown.
      apply Forall_forall. intros l Hl. rewrite Forall_forall in Hown.
      eapply consumes_level_ok; eauto.
      intros s Hs. apply Hown_d. apply elem_of_slots. eauto.
    + exact Hok.
    + apply (wf_own_sorted _ _ _ _ _ _ Hwf).
    + exact Hsorted.
    + intros i s Hi. apply (consumes_lookup Hcons) in Hi as [Hi Hnc].
      destruct (wf_index _ _ _ _ _ _ Hwf i s Hi) as [Hin Hid].
      split; [ | rewrite (c_id _ _ _ _ _ _ Hcons); exact Hid].
      rewrite Hq in Hin. set_solver.
    + intros lo lx Hlo Hlx.
      destruct (elem_of_prices lx opp _ k Hk Hlx) as (y & Hy & <-).
      apply (wf_spread _ _ _ _ _ _ Hwf); assumption.
  - destruct Hdone as [Hz | Hstop]; [left; exact Hz | right].
    intros lx Hlx. destruct (OrderBook.m_target r) as [ | l0 ls]; [set_solver | ].
    apply elem_of_cons in Hlx as [-> | Hlx]; [exact Hstop | ].
    apply StronglySorted_cons in Hsorted as [Hall _].
    rewrite Forall_forall in Hall. eapply ahead_trans; eauto.
  - lia.
  - lia.
  - intros i Hi. destruct (OrderBook.m_index r !! i) as [s | ] eqn:E; [ | reflexivity].
    apply (consumes_lookup Hcons) in E as [E _]. congruence.
  - exact Hrep.
  - exact Hleft.
  - intros s Hs. apply (c_frame _ _ _ _ _ _ Hcons). apply Hown_d. exact Hs.
  - exact Hvol.
Qed.

Section AddToLevels.
Variable comp : PriceLevel.t -> Z -> bool.
Variable p : MemPool.t.
Variable s : nat.
Let v : Z := Order.price (MemPool.deref p s).

Lemma add_to_levels_nil :
  OrderBook.add_to_levels comp [] p s =
  [PriceLevel.add_order p s (PriceLevel.new v)].
Proof. reflexivity. Qed.

Lemma add_to_levels_cons (l : PriceLevel.t) (ls : list PriceLevel.t) :
  OrderBook.add_to_levels comp (l :: ls) p s =
  if comp l v then l :: OrderBook.add_to_levels comp ls p s
  else if PriceLevel.price l =? v then PriceLevel.add_order p s l :: ls
  else PriceLevel.add_order p s (PriceLevel.new v) :: l :: ls.
Proof.
  unfold OrderBook.add_to_levels. fold v. simpl OrderBook.lower_bound.
  destruct (comp l v); simpl.
  - destruct (match ls !! OrderBook.lower_bound comp ls v with
              | Some level => PriceLevel.price level =? v
              | None => false
              end); reflexivity.
  - destruct (PriceLevel.price l =? v); reflexivity.
Qed.
End AddToLevels.

Lemma sum_qty_app (p : MemPool.t) (q1 q2 : list nat) :
  sum_qty p (q1 ++ q2) = sum_qty p q1 + sum_qty p q2.
Proof. induction q1 as [ | s q1 IH]; simpl; lia. Qed.

Section AddToLadder.
Variable c : Side.
Variable om : gmap Z nat.
Variable p : MemPool.t.
Variable s : nat.
Let v : Z := Order.price (MemPool.deref p s).
Let comp : PriceLevel.t -> Z -> bool :=
  fun level price => ahead c (PriceLevel.price level) price.

Lemma add_to_levels_slots (ls : list PriceLevel.t) :
  slots (OrderBook.add_to_levels comp ls p s) ≡ₚ s :: slots ls.
Proof.
  induction ls as [ | l ls IH].
  - reflexivity.
  - rewrite add_to_levels_cons.
    destruct (comp l _).
    + rewrite !slots_cons, IH. symmetry. apply Permutation_middle.
    + destruct (_ =? _).
      * rewrite !slots_cons. simpl. unfold IntrusiveList.push_back.
        rewrite <- app_assoc. simpl.
        symmetry. apply Permutation_middle.
      * reflexivity.
Qed.

Lemma add_to_levels_prices (ls : list PriceLevel.t) (x : PriceLevel.t) :
  x ∈ OrderBook.add_to_levels comp ls p s ->
  PriceLevel.price x = v \/
  exists y, y ∈ ls /\ PriceLevel.price y = PriceLevel.price x.
Proof.
  induction ls as [ | l ls IH].
  - rewrite add_to_levels_nil. intros ->%list_elem_of_singleton. left. reflexivity.
  - rewrite add_to_levels_cons. destruct (comp l _).
    + intros [-> | Hx]%elem_of_cons.
      * right. exists l. split; [left | reflexivity].
      * destruct (IH Hx) as [? | (y & Hy & Hp)]; [left; assumption | right].
        exists y. split; [right; exact Hy | exact Hp].
    + destruct (_ =? _).
      * intros [-> | Hx]%elem_of_cons; right.
        -- exists l. split; [left | reflexivity].
        -- exists x. split; [right; exact Hx | reflexivity].
      * intros [-> | Hx]%elem_of_cons; [left; reflexivity | right].
        exists x. split; [exact Hx | reflexivity].
Qed.

Lemma add_to_levels_level_ok (ch : ascii) (ls : list PriceLevel.t) :
  Forall (level_ok om p ch) ls -> resting om p v ch s ->
  Forall (level_ok om p ch) (OrderBook.add_to_levels comp ls p s).
Proof.
  intros Hls Hs. induction Hls as [ | l ls Hl Hls IH].
  - rewrite add_to_levels_nil. constructor; [ | constructor].
    split; simpl; [discriminate | ]. constructor; [exact Hs | constructor].
  - rewrite add_to_levels_cons. destruct (comp l _).
    + constructor; assumption.
    + destruct (_ =? _) eqn:E.
      * constructor; [ | exact Hls]. destruct Hl as [Hne Hq].
        split; simpl; unfold IntrusiveList.push_back.
        -- destruct (PriceLevel.orders l); discriminate.
        -- apply Forall_app. split; [exact Hq | ].
           constructor; [ | constructor].
           replace (PriceLevel.price l) with v by lia. exact Hs.
      * constructor; [ | constructor; assumption].
        split; simpl; [discriminate | ].
        constructor; [exact Hs | constructor].
Qed.

Lemma add_to_levels_sorted (ls : list PriceLevel.t) :
  sorted_ladder c ls ->
  sorted_ladder c (OrderBook.add_to_levels comp ls p s).
Proof.
  unfold sorted_ladder. induction 1 as [ | l ls Hls IH Hl].
  - rewrite add_to_levels_nil. repeat constructor.
  - rewrite add_to_levels_cons. destruct (comp l _) eqn:Hc.
    + constructor; [exact IH | ].
      apply Forall_forall. intros x Hx.
      destruct (add_to_levels_prices ls x Hx) as [-> | (y & Hy & <-)].
      * exact Hc.
      * rewrite Forall_forall in Hl. auto.
    + destruct (_ =? _) eqn:E.
      * constructor; [exact Hls | exact Hl].
      * assert (Hv : ahead c v (PriceLevel.price l) = true)
          by (apply ahead_total; [exact Hc | lia]).
        constructor; [constructor; assumption | ].
        constructor; [exact Hv | ].
        eapply Forall_impl; [exact Hl | ].
        intros x Hx. simpl. eapply ahead_trans; eauto.
Qed.

Lemma add_to_levels_volume (ls : list PriceLevel.t) :
  Forall (volume_ok p) ls ->
  Forall (fun l => 0 <= sum_qty p (PriceLevel.orders l) /\
                   sum_qty p (PriceLevel.orders l)
                   + Order.qty (MemPool.deref p s) < 2 ^ 64) ls ->
  0 <= Order.qty (MemPool.deref p s) < 2 ^ 64 ->
  Forall (volume_ok p) (OrderBook.add_to_levels comp ls p s).
Proof.
  intros Hls Hb Hq. induction Hls as [ | l ls Hl Hls IH].
  - rewrite add_to_levels_nil. constructor; [ | constructor].
    unfold volume_ok. simpl. rewrite wrap64_small by lia. lia.
  - apply Forall_cons in Hb as [[Hb0 Hb1] Hb].
    rewrite add_to_levels_cons. destruct (comp l _).
    + constructor; auto.
    + destruct (_ =? _).
      * constructor; [ | exact Hls]. unfold volume_ok in *. simpl.
        unfold IntrusiveList.push_back. rewrite sum_qty_app. simpl.
        rewrite Hl. rewrite wrap64_small by lia. lia.
      * constructor; [ | constructor; assumption].
        unfold volume_ok. simpl. rewrite wrap64_small by lia. lia.
Qed.
End AddToLadder.

Lemma allocate_Some (p p1 : MemPool.t) (s : nat) :
  MemPool.allocate p = (Some s, p1) ->
  (MemPool.free_count_ p <= length (MemPool.free_list_ p))%nat ->
  MemPool.free_count_ p = S (MemPool.free_count_ p1) /\
  MemPool.free_list_ p1 = MemPool.free_list_ p /\
  MemPool.buffer_ p1 = MemPool.buffer_ p /\
  free_slots p = free_slots p1 ++ [s].
Proof.
  unfold MemPool.allocate, free_slots.
  destruct (MemPool.free_count_ p) as [ | n] eqn:E; [discriminate | ].
  intros [= <- <-] Hlen. simpl. split_and!; try reflexivity.
  apply take_S_r. apply list_lookup_lookup_total_lt. lia.
Qed.

Lemma allocate_None (p p1 : MemPool.t) :
  MemPool.allocate p = (None, p1) -> MemPool.free_count_ p = O /\ p1 = p.
Proof.
  unfold MemPool.allocate.
  destruct (MemPool.free_count_ p); [intros [= <-]; auto | discriminate].
Qed.

(** Resting the residual of an incoming order keeps the invariant. *)
Lemma rest_wf (Capacity : nat) (c : Side) (own opp : list PriceLevel.t)
    (om : gmap Z nat) (p p1 : MemPool.t) (id price rem : Z) (s : nat) :
  wf_parts Capacity c own opp om p ->
  om !! id = None ->
  0 < rem < 2 ^ 32 ->
  (forall lx, lx ∈ opp ->
     ahead (opposite c) price (PriceLevel.price lx) = true) ->
  MemPool.allocate p = (Some s, p1) ->
  let p2 := MemPool.store s (Order.mk id price rem (Side_to_char c)) p1 in
  wf_parts Capacity c
    (OrderBook.add_to_levels
       (fun level v => ahead c (PriceLevel.price level) v) own p2 s)
    opp (<[id := s]> om) p2.
Proof.
  intros Hwf Hfresh Hrem Hcross Halloc p2.
  pose proof (wf_free_len _ _ _ _ _ _ Hwf) as Hfl.
  pose proof (wf_free_count _ _ _ _ _ _ Hwf) as Hfc.
  pose proof (wf_buffer_len _ _ _ _ _ _ Hwf) as Hbl.
  destruct (allocate_Some p p1 s Halloc) as (Hn & Hfl1 & Hbuf1 & Hfree);
    [lia | ].
  pose proof (wf_NoDup Hwf) as Hnd. rewrite Hfree in Hnd.
  rewrite <- app_assoc in Hnd. apply NoDup_app in Hnd as (_ & _ & Hnd).
  simpl in Hnd. apply NoDup_cons in Hnd as [Hs_live _].
  assert (Hs_lt : (s < Capacity)%nat).
  { apply (wf_slot_lt Hwf). rewrite Hfree. set_solver. }
  assert (Hnew : MemPool.deref p2 s = Order.mk id price rem (Side_to_char c)).
  { subst p2. apply deref_store_eq. rewrite Hbuf1. lia. }
  assert (Hframe : forall s', s' ∈ slots own ++ slots opp ->
            MemPool.deref p2 s' = MemPool.deref p s').
  { intros s' Hs'. subst p2. rewrite deref_store_ne by (intros ->; contradiction).
    unfold MemPool.deref. rewrite Hbuf1. reflexivity. }
  assert (Hrest : forall P ch s', s' ∈ slots own ++ slots opp ->
            resting om p P ch s' -> resting (<[id := s]> om) p2 P ch s').
  { intros P ch s' Hs' (? & ? & ? & Hi). unfold resting.
    rewrite Hframe by exact Hs'. split_and!; auto; try lia.
    rewrite lookup_insert_ne; [exact Hi | ].
    intros Heq. rewrite Heq in Hfresh. congruence. }
  assert (Hlevels : forall ch L, (forall s', s' ∈ slots L -> s' ∈ slots own ++ slots opp) ->
            Forall (level_ok om p ch) L ->
            Forall (level_ok (<[id := s]> om) p2 ch) L).
  { intros ch L Hsub HL. apply Forall_forall. intros l Hl.
    rewrite Forall_forall in HL. destruct (HL l Hl) as [Hne Hq].
    split; [exact Hne | ]. apply Forall_forall. intros s' Hs'.
    rewrite Forall_forall in Hq. apply Hrest; [ | auto].
    apply Hsub, elem_of_slots. eauto. }
  assert (Hv : Order.price (MemPool.deref p2 s) = price)
    by (rewrite Hnew; reflexivity).
  split.
  - rewrite add_to_levels_slots. unfold free_slots at 1. subst p2. simpl.
    fold (free_slots p1).
    rewrite <- (wf_pool _ _ _ _ _ _ Hwf), Hfree, <- app_assoc. reflexivity.
  - subst p2. simpl. lia.
  - subst p2. simpl. congruence.
  - subst p2. simpl. rewrite length_insert. congruence.
  - apply add_to_levels_level_ok.
    + apply Hlevels; [set_solver | apply (wf_own _ _ _ _ _ _ Hwf)].
    + unfold resting. rewrite Hnew. simpl. split_and!; auto; try lia.
      apply lookup_insert_eq.
  - apply Hlevels; [set_solver | apply (wf_opp _ _ _ _ _ _ Hwf)].
  - apply add_to_levels_sorted, (wf_own_sorted _ _ _ _ _ _ Hwf).
  - apply (wf_opp_sorted _ _ _ _ _ _ Hwf).
  - intros i s' Hi. apply lookup_insert_Some in Hi as [[<- <-] | [Hne Hi]].
    + split; [ | rewrite Hnew; reflexivity].
      apply elem_of_app. left. rewrite add_to_levels_slots. left.
    + destruct (wf_index _ _ _ _ _ _ Hwf i s' Hi) as [Hin Hid]. split.
      * rewrite elem_of_app in *. rewrite add_to_levels_slots. set_solver.
      * rewrite Hframe by exact Hin. exact Hid.
  - intros lo lx Hlo Hlx.
    destruct (add_to_levels_prices c p2 s own lo Hlo) as [-> | (y & Hy & <-)].
    + rewrite Hv. apply Hcross. exact Hlx.
    + apply (wf_spread _ _ _ _ _ _ Hwf); assumption.
Qed.

Lemma filter_ne_id (s : nat) (l : list nat) :
  s ∉ l -> filter (fun x => x <> s) l = l.
Proof.
  induction l as [ | x l IH]; intros Hs; [reflexivity | ].
  apply not_elem_of_cons in Hs as [Hne Hs].
  rewrite filter_cons_True by congruence. rewrite IH by exact Hs. reflexivity.
Qed.

Lemma sum_qty_remove (p : MemPool.t) (s : nat) (q : list nat) :
  NoDup q -> s ∈ q ->
  sum_qty p (filter (fun x => x <> s) q)
  = sum_qty p q - Order.qty (MemPool.deref p s).
Proof.
  induction q as [ | x q IH]; intros Hnd Hs; [set_solver | ].
  apply NoDup_cons in Hnd as [Hx Hnd].
  destruct (decide (x = s)) as [-> | Hne].
  - rewrite filter_cons_False by tauto.
    rewrite filter_ne_id by exact Hx. simpl. lia.
  - rewrite filter_cons_True by exact Hne. simpl. rewrite IH; [lia | exact Hnd | ].
    set_solver.
Qed.

Lemma remove_from_levels_spec (c : Side) (om : gmap Z nat) (p : MemPool.t)
    (ch : ascii) (s : nat) (L : list PriceLevel.t) :
  sorted_ladder c L -> Forall (level_ok om p ch) L -> NoDup (slots L) ->
  s ∈ slots L ->
  let L' := OrderBook.remove_from_levels L p s in
  slots L' = filter (fun x => x <> s) (slots L) /\
  Forall (level_ok om p ch) L' /\
  (forall x, x ∈ L' ->
     exists y, y ∈ L /\ PriceLevel.price y = PriceLevel.price x) /\
  sorted_ladder c L' /\
  (Forall (volume_ok p) L ->
   Forall (fun l => sum_qty p (PriceLevel.orders l) < 2 ^ 64) L ->
   Forall (volume_ok p) L').
Proof.
  unfold sorted_ladder.
  induction L as [ | l ls IH]; intros Hsorted Hok Hnd Hs; [set_solver | ].
  apply StronglySorted_cons in Hsorted as [Hl Hsorted].
  apply Forall_cons in Hok as [[Hne Hq] Hok].
  rewrite slots_cons in Hnd, Hs.
  apply NoDup_app in Hnd as (Hnd_l & Hdisj & Hnd_ls).
  cbv zeta. rewrite (slots_cons l ls). simpl OrderBook.remove_from_levels.
  set (v := Order.price (MemPool.deref p s)).
  assert (Hin_ls : s ∈ slots ls -> PriceLevel.price l <> v).
  { intros (l2 & Hl2 & Hs2)%elem_of_slots Heq.
    rewrite Forall_forall in Hok, Hl.
    destruct (Hok l2 Hl2) as [_ Hq2]. rewrite Forall_forall in Hq2.
    destruct (Hq2 s Hs2) as (Hp2 & _). fold v in Hp2.
    specialize (Hl l2 Hl2). simpl in Hl.
    rewrite Heq, <- Hp2, ahead_irrefl in Hl. discriminate. }
  assert (Hin_l : s ∈ PriceLevel.orders l -> PriceLevel.price l = v).
  { intros Hs1. rewrite Forall_forall in Hq. destruct (Hq s Hs1) as (Hp1 & _).
    symmetry. exact Hp1. }
  destruct (PriceLevel.price l =? v) eqn:E.
  - assert (Hs1 : s ∈ PriceLevel.orders l).
    { apply elem_of_app in Hs as [? | Hs2]; [assumption | ].
      apply Hin_ls in Hs2. lia. }
    assert (Hs2 : s ∉ slots ls) by auto.
    set (l' := PriceLevel.remove_order p s l).
    assert (Hfilter : filter (fun x => x <> s)
                        (PriceLevel.orders l ++ slots ls)
                      = PriceLevel.orders l' ++ slots ls).
    { rewrite filter_app, (filter_ne_id s (slots ls)) by exact Hs2. reflexivity. }
    assert (Hq' : Forall (resting om p (PriceLevel.price l') ch)
                    (PriceLevel.orders l')).
    { simpl. unfold IntrusiveList.remove. apply Forall_forall.
      intros x [_ Hx]%list_elem_of_filter. rewrite Forall_forall in Hq. auto. }
    assert (Hv' : volume_ok p l ->
              sum_qty p (PriceLevel.orders l) < 2 ^ 64 -> volume_ok p l').
    { unfold volume_ok. simpl. unfold IntrusiveList.remove. intros Hv Hb.
      rewrite sum_qty_remove by assumption. rewrite Hv.
      pose proof (sum_qty_nonneg _ _ _ _ _ Hq') as Hnn. simpl in Hnn.
      unfold IntrusiveList.remove in Hnn.
      rewrite sum_qty_remove in Hnn by assumption.
      pose proof (proj1 (Forall_forall _ _) Hq s Hs1) as (_ & _ & Hqs & _).
      replace (_ <=? _) with true by lia.
      rewrite wrap64_small by lia. reflexivity. }
    destruct (PriceLevel.empty l') eqn:Hempty.
    + apply PriceLevel_empty_iff in Hempty. rewrite Hfilter, Hempty.
      split_and!; auto.
      * intros x Hx. exists x. split; [right; exact Hx | reflexivity].
      * intros Hv Hb. apply Forall_cons in Hv as [_ Hv]. exact Hv.
    + assert (PriceLevel.orders l' <> []).
      { intros Heq%PriceLevel_empty_iff. congruence. }
      rewrite slots_cons, Hfilter. split_and!; auto.
      * constructor; [split; assumption | exact Hok].
      * intros x [-> | Hx]%elem_of_cons.
        -- exists l. split; [left | reflexivity].
        -- exists x. split; [right; exact Hx | reflexivity].
      * constructor; [exact Hsorted | exact Hl].
      * intros Hv Hb. apply Forall_cons in Hv as [Hv0 Hv].
        apply Forall_cons in Hb as [Hb0 Hb]. constructor; auto.
  - assert (Hs1 : s ∉ PriceLevel.orders l).
    { intros Hs1%Hin_l. lia. }
    assert (Hs2 : s ∈ slots ls) by set_solver.
    destruct (IH Hsorted Hok Hnd_ls Hs2) as (Hslots & Hok' & Hprices & Hsorted' & Hvol').
    rewrite slots_cons, Hslots, filter_app, (filter_ne_id s _ Hs1).
    split_and!; auto.
    + constructor; [split; assumption | exact Hok'].
    + intros x [-> | Hx]%elem_of_cons.
      * exists l. split; [left | reflexivity].
      * destruct (Hprices x Hx) as (y & Hy & Hp). exists y.
        split; [right; exact Hy | exact Hp].
    + constructor; [exact Hsorted' | ].
      apply Forall_forall. intros x Hx.
      destruct (Hprices x Hx) as (y & Hy & <-).
      rewrite Forall_forall in Hl. auto.
    + intros Hv Hb. apply Forall_cons in Hv as [Hv0 Hv].
      apply Forall_cons in Hb as [Hb0 Hb]. constructor; auto.
Qed.


Lemma match_buy_loop_eq (asks : list PriceLevel.t) :
  forall (taker price rem : Z) (cb : bool) (om : gmap Z nat) (p : MemPool.t),
  OrderBook.match_buy_loop asks taker price rem cb om p =
  match_levels (ahead Sell price) Sell asks taker rem cb om p.
Proof.
  induction asks as [ | level rest IH]; intros; simpl; [reflexivity | ].
  rewrite IH. reflexivity.
Qed.

Lemma match_sell_loop_eq (bids : list PriceLevel.t) :
  forall (taker price rem : Z) (cb : bool) (om : gmap Z nat) (p : MemPool.t),
  OrderBook.match_sell_loop bids taker price rem cb om p =
  match_levels (ahead Buy price) Buy bids taker rem cb om p.
Proof.
  induction bids as [ | level rest IH]; intros; simpl; [reflexivity | ].
  rewrite IH. reflexivity.
Qed.

(** [add_order] on a fresh identifier, read from the side of the incoming
    order. *)
Lemma add_order_parts (b : OrderBook.t) (id price qty : Z) (side : Side)
    (cb : bool) :
  OrderBook.order_map_ b !! id = None ->
  let own := ladder side b in
  let r := match_levels (ahead (opposite side) price) (opposite side)
             (ladder (opposite side) b) id qty cb
             (OrderBook.order_map_ b) (OrderBook.pool_ b) in
  let b1 := with_ladders side own (OrderBook.m_target r)
              (OrderBook.m_index r) (OrderBook.m_pool r) in
  OrderBook.add_order b id price qty side cb =
  if OrderBook.m_remaining r =? 0
  then OrderBook.Outcome true b1 (OrderBook.m_reported r)
  else
    match MemPool.allocate (OrderBook.m_pool r) with
    | (None, _) => OrderBook.Outcome false b1 (OrderBook.m_reported r)
    | (Some s, p1) =>
        let p2 :=
          MemPool.store s
            (Order.mk id price (OrderBook.m_remaining r) (Side_to_char side))
            p1 in
        OrderBook.Outcome true
          (with_ladders side
             (OrderBook.add_to_levels
                (fun level v => ahead side (PriceLevel.price level) v)
                own p2 s)
             (OrderBook.m_target r) (<[id := s]> (OrderBook.m_index r)) p2)
          (OrderBook.m_reported r)
    end.
Proof.
  intros Hfresh. unfold OrderBook.add_order. rewrite Hfresh.
  destruct side; simpl.
  - unfold OrderBook.match_buy. rewrite match_buy_loop_eq.
    destruct (_ =? 0); [reflexivity | ].
    simpl. destruct (MemPool.allocate _) as [[s | ] p1]; reflexivity.
  - unfold OrderBook.match_sell. rewrite match_sell_loop_eq.
    destruct (_ =? 0); [reflexivity | ].
    simpl. destruct (MemPool.allocate _) as [[s | ] p1]; reflexivity.
Qed.

Lemma wf_with_ladders (Capacity : nat) (c : Side)
    (own opp : list PriceLevel.t) (om : gmap Z nat) (p : MemPool.t) :
  wf_parts Capacity c own opp om p ->
  wf Capacity (with_ladders c own opp om p).
Proof.
  destruct c; unfold wf; simpl; [auto | ].
  intros H. apply (wf_parts_swap _ Sell). exact H.
Qed.

Lemma wf_ladders (Capacity : nat) (c : Side) (b : OrderBook.t) :
  wf Capacity b ->
  wf_parts Capacity c (ladder c b) (ladder (opposite c) b)
    (OrderBook.order_map_ b) (OrderBook.pool_ b).
Proof.
  destruct c; unfold wf; simpl; [auto | ].
  intros H. apply (wf_parts_swap _ Buy). exact H.
Qed.

Theorem add_order_wf (Capacity : nat) (b : OrderBook.t) (id price qty : Z)
    (side : Side) (cb : bool) :
  wf Capacity b -> 0 <= qty < 2 ^ 32 ->
  wf Capacity (OrderBook.book (OrderBook.add_order b id price qty side cb)).
Proof.
  intros Hwf Hqty.
  destruct (OrderBook.order_map_ b !! id) as [s | ] eqn:Hid.
  { unfold OrderBook.add_order. rewrite Hid. exact Hwf. }
  rewrite add_order_parts by exact Hid. cbv zeta.
  destruct (match_levels_wf Capacity side _ _ _ _ id price qty cb
              (wf_ladders Capacity side b Hwf) Hqty)
    as (Hwf1 & Hstop & Hle & Hnone & _).
  set (r := match_levels _ _ _ _ _ _ _ _) in *.
  destruct (OrderBook.m_remaining r =? 0) eqn:Hz.
  { simpl. apply wf_with_ladders. exact Hwf1. }
  destruct (MemPool.allocate (OrderBook.m_pool r)) as [[s | ] p1] eqn:Ha.
  - simpl. apply wf_with_ladders. eapply rest_wf; eauto; [lia | ].
    destruct Hstop as [? | ?]; [lia | assumption].
  - simpl. apply wf_with_ladders. exact Hwf1.
Qed.

Lemma filter_ne_Permutation (s : nat) (l : list nat) :
  NoDup l -> s ∈ l -> s :: filter (fun x => x <> s) l ≡ₚ l.
Proof.
  induction l as [ | x l IH]; intros Hnd Hs; [set_solver | ].
  apply NoDup_cons in Hnd as [Hx Hnd].
  destruct (decide (x = s)) as [-> | Hne].
  - rewrite filter_cons_False by tauto. rewrite filter_ne_id by exact Hx.
    reflexivity.
  - rewrite filter_cons_True by exact Hne. rewrite Permutation_swap.
    apply Permutation_skip, IH; [exact Hnd | set_solver].
Qed.

(** Cancelling a resting order keeps the invariant. *)
Lemma cancel_parts_wf (Capacity : nat) (c : Side)
    (own opp : list PriceLevel.t) (om : gmap Z nat) (p : MemPool.t)
    (id : Z) (s : nat) :
  wf_parts Capacity c own opp om p ->
  om !! id = Some s -> s ∈ slots own ->
  wf_parts Capacity c (OrderBook.remove_from_levels own p s) opp
    (delete id om) (MemPool.deallocate s p).
Proof.
  intros Hwf Hid Hs.
  pose proof (wf_NoDup Hwf) as Hnd.
  apply NoDup_app in Hnd as (Hnd_free & Hfree_d & Hnd).
  apply NoDup_app in Hnd as (Hnd_own & Hown_d & Hnd_opp).
  pose proof (wf_count Hwf) as Hcount.
  pose proof (wf_free_len _ _ _ _ _ _ Hwf) as Hfl.
  destruct (remove_from_levels_spec c om p (Side_to_char c) s own)
    as (Hslots & Hok & Hprices & Hsorted & _); auto.
  { apply (wf_own_sorted _ _ _ _ _ _ Hwf). }
  { apply (wf_own _ _ _ _ _ _ Hwf). }
  set (own' := OrderBook.remove_from_levels own p s) in *.
  assert (Hlen : (0 < length (slots own))%nat).
  { destruct (slots own); [set_solver | simpl; lia]. }
  assert (Hs_id : Order.id (MemPool.deref p s) = id)
    by apply (wf_index _ _ _ _ _ _ Hwf id s Hid).
  assert (Hrest : forall P ch s', s' <> s ->
            resting om p P ch s' ->
            resting (delete id om) (MemPool.deallocate s p) P ch s').
  { intros P ch s' Hne (? & ? & ? & Hi). unfold resting.
    rewrite deref_deallocate. split_and!; auto; try lia.
    rewrite lookup_delete_ne; [exact Hi | ].
    intros Heq. rewrite <- Heq in Hi. congruence. }
  assert (Hlevels : forall ch L, s ∉ slots L ->
            Forall (level_ok om p ch) L ->
            Forall (level_ok (delete id om) (MemPool.deallocate s p) ch) L).
  { intros ch L Hns HL. apply Forall_forall. intros l Hl.
    rewrite Forall_forall in HL. destruct (HL l Hl) as [Hne Hq].
    split; [exact Hne | ]. apply Forall_forall. intros s' Hs'.
    rewrite Forall_forall in Hq. apply Hrest; [ | auto].
    intros ->. apply Hns, elem_of_slots. eauto. }
  assert (Hs_own' : s ∉ slots own').
  { rewrite Hslots. intros [? _]%list_elem_of_filter. congruence. }
  split.
  - rewrite free_slots_deallocate by lia.
    rewrite <- (wf_pool _ _ _ _ _ _ Hwf), <- app_assoc.
    apply Permutation_app_head. simpl. rewrite Hslots.
    rewrite (app_comm_cons _ _ s). apply Permutation_app_tail.
    apply filter_ne_Permutation; assumption.
  - simpl. lia.
  - simpl. rewrite length_insert. exact Hfl.
  - apply (wf_buffer_len _ _ _ _ _ _ Hwf).
  - apply Hlevels; assumption.
  - apply Hlevels; [auto | apply (wf_opp _ _ _ _ _ _ Hwf)].
  - exact Hsorted.
  - apply (wf_opp_sorted _ _ _ _ _ _ Hwf).
  - intros i s' [Hne Hi]%lookup_delete_Some.
    destruct (wf_index _ _ _ _ _ _ Hwf i s' Hi) as [Hin Hid']. split; [ | exact Hid'].
    assert (s' <> s) by (intros ->; congruence).
    rewrite elem_of_app in *. rewrite Hslots, list_elem_of_filter. tauto.
  - intros lo lx Hlo Hlx. destruct (Hprices lo Hlo) as (y & Hy & <-).
    apply (wf_spread _ _ _ _ _ _ Hwf); assumption.
Qed.

Lemma Side_to_char_inj (c c' : Side) :
  Side_to_char c = Side_to_char c' -> c = c'.
Proof. destruct c, c'; simpl; congruence. Qed.

Lemma wf_slot_side (Capacity : nat) (b : OrderBook.t) (c : Side) (s : nat) :
  wf Capacity b -> s ∈ slots (ladder c b) ->
  Order.side (MemPool.deref (OrderBook.pool_ b) s) = Side_to_char c.
Proof.
  intros Hwf (l & Hl & Hs)%elem_of_slots.
  pose proof (wf_own _ _ _ _ _ _ (wf_ladders Capacity c b Hwf)) as Hown.
  rewrite Forall_forall in Hown. destruct (Hown l Hl) as [_ Hq].
  rewrite Forall_forall in Hq. apply (Hq s Hs).
Qed.

(** [cancel_order] on a registered identifier, read from the side of the
    cancelled order. *)
Lemma cancel_order_parts (Capacity : nat) (b : OrderBook.t) (id : Z) (s : nat) :
  wf Capacity b -> OrderBook.order_map_ b !! id = Some s ->
  exists c, s ∈ slots (ladder c b) /\
    OrderBook.cancel_order b id =
    (true,
     with_ladders c
       (OrderBook.remove_from_levels (ladder c b) (OrderBook.pool_ b) s)
       (ladder (opposite c) b) (delete id (OrderBook.order_map_ b))
       (MemPool.deallocate s (OrderBook.pool_ b))).
Proof.
  intros Hwf Hid. unfold OrderBook.cancel_order. rewrite Hid. simpl.
  destruct (wf_index _ _ _ _ _ _ Hwf id s Hid) as [Hin _].
  apply elem_of_app in Hin as [Hin | Hin].
  - exists Buy. split; [exact Hin | ].
    pose proof (wf_slot_side Capacity b Buy s Hwf Hin) as Hside.
    unfold Order.is_buy. rewrite Hside. reflexivity.
  - exists Sell. split; [exact Hin | ].
    pose proof (wf_slot_side Capacity b Sell s Hwf Hin) as Hside.
    unfold Order.is_buy. rewrite Hside. reflexivity.
Qed.

Theorem cancel_order_wf (Capacity : nat) (b : OrderBook.t) (id : Z) :
  wf Capacity b -> wf Capacity (OrderBook.cancel_order b id).2.
Proof.
  intros Hwf.
  destruct (OrderBook.order_map_ b !! id) as [s | ] eqn:Hid.
  - destruct (cancel_order_parts Capacity b id s Hwf Hid) as (c & Hs & ->).
    simpl. apply wf_with_ladders. apply cancel_parts_wf; auto.
    apply wf_ladders. exact Hwf.
  - unfold OrderBook.cancel_order. rewrite Hid. exact Hwf.
Qed.

Lemma init_free_list (n : nat) :
  (fun i => n - 1 - i)%nat <$> seq 0 n = reverse (seq 0 n).
Proof.
  apply list_eq. intros i. rewrite list_lookup_fmap.
  destruct (decide (i < n)%nat) as [Hi | Hi].
  - rewrite reverse_lookup by (rewrite length_seq; exact Hi).
    rewrite length_seq, !lookup_seq_lt by lia. simpl. f_equal. lia.
  - rewrite lookup_seq_ge by lia. symmetry. apply lookup_ge_None.
    rewrite length_reverse, length_seq. lia.
Qed.

Lemma init_wf (Capacity : nat) : wf Capacity (OrderBook.init Capacity).
Proof.
  split; simpl.
  - unfold free_slots. simpl. rewrite !app_nil_r.
    rewrite firstn_all2 by (rewrite length_fmap, length_seq; lia).
    rewrite init_free_list. apply reverse_Permutation.
  - lia.
  - rewrite length_fmap, length_seq. reflexivity.
  - apply length_replicate.
  - constructor.
  - constructor.
  - constructor.
  - constructor.
  - intros i s. rewrite lookup_empty. discriminate.
  - intros lo lx Hlo. set_solver.
Qed.

(** ** The cached volume of a level *)

Lemma sum_qty_le (om : gmap Z nat) (p : MemPool.t) (P : Z) (ch : ascii)
    (q : list nat) :
  Forall (resting om p P ch) q ->
  0 <= sum_qty p q <= (2 ^ 32 - 1) * Z.of_nat (length q).
Proof.
  induction 1 as [ | s q (_ & _ & ? & _) _ IH]; simpl length; simpl sum_qty; lia.
Qed.

Lemma level_length_le (l : PriceLevel.t) (L : list PriceLevel.t) :
  l ∈ L -> (length (PriceLevel.orders l) <= length (slots L))%nat.
Proof.
  induction L as [ | x L IH]; [set_solver | ].
  rewrite slots_cons, length_app.
  intros [-> | Hl]%elem_of_cons; [lia | ].
  specialize (IH Hl). lia.
Qed.

Section VolumeBound.
Context {Capacity : nat} {c : Side} {own opp : list PriceLevel.t}
        {om : gmap Z nat} {p : MemPool.t}.
Hypothesis H : wf_parts Capacity c own opp om p.

Lemma wf_level_sum (l : PriceLevel.t) :
  l ∈ own ++ opp ->
  0 <= sum_qty p (PriceLevel.orders l)
  <= (2 ^ 32 - 1)
     * (Z.of_nat Capacity - Z.of_nat (MemPool.free_count_ p)).
Proof.
  intros Hl. pose proof (wf_count H) as Hcount.
  assert (Hlen : (length (PriceLevel.orders l)
                  <= Capacity - MemPool.free_count_ p)%nat).
  { apply elem_of_app in Hl as [Hl | Hl];
      apply level_length_le in Hl; lia. }
  assert (Hq : exists ch,
            Forall (resting om p (PriceLevel.price l) ch)
              (PriceLevel.orders l)).
  { apply elem_of_app in Hl as [Hl | Hl].
    - pose proof (wf_own _ _ _ _ _ _ H) as Ho.
      rewrite Forall_forall in Ho. destruct (Ho l Hl). eauto.
    - pose proof (wf_opp _ _ _ _ _ _ H) as Ho.
      rewrite Forall_forall in Ho. destruct (Ho l Hl). eauto. }
  destruct Hq as [ch Hq]. pose proof (sum_qty_le _ _ _ _ _ Hq). nia.
Qed.
End VolumeBound.

(** The matching phase keeps the cached volumes. *)
Lemma match_levels_volume (Capacity : nat) (c : Side)
    (own opp : list PriceLevel.t) (om : gmap Z nat) (p : MemPool.t)
    (taker price rem : Z) (cb : bool) :
  wf_parts Capacity c own opp om p ->
  (Z.of_nat Capacity <= 2 ^ 32) ->
  0 <= rem < 2 ^ 32 ->
  Forall (volume_ok p) own -> Forall (volume_ok p) opp ->
  let r := match_levels (ahead (opposite c) price) (opposite c) opp taker rem
             cb om p in
  Forall (volume_ok (OrderBook.m_pool r)) own /\
  Forall (volume_ok (OrderBook.m_pool r)) (OrderBook.m_target r).
Proof.
  intros Hwf Hcap Hrem Hown Hopp r.
  destruct (match_levels_wf Capacity c own opp om p taker price rem cb Hwf Hrem)
    as (_ & _ & _ & _ & _ & _ & Hframe & Hvol).
  fold r in Hframe, Hvol. split.
  - apply Forall_forall. intros l Hl. rewrite Forall_forall in Hown.
    unfold volume_ok. rewrite (Hown l Hl). symmetry.
    apply sum_qty_frame. intros s Hs. apply Hframe, elem_of_slots. eauto.
  - apply Hvol; [exact Hopp | ].
    apply Forall_forall. intros l Hl.
    pose proof (wf_level_sum Hwf l) as Hb.
    assert (l ∈ own ++ opp) by set_solver. specialize (Hb H). nia.
Qed.

(** Resting the residual keeps the cached volumes. *)
Lemma rest_volume (Capacity : nat) (c : Side) (own opp : list PriceLevel.t)
    (om : gmap Z nat) (p p1 : MemPool.t) (id price rem : Z) (s : nat) :
  wf_parts Capacity c own opp om p ->
  (Z.of_nat Capacity <= 2 ^ 32) ->
  0 < rem < 2 ^ 32 ->
  MemPool.allocate p = (Some s, p1) ->
  Forall (volume_ok p) own -> Forall (volume_ok p) opp ->
  let p2 := MemPool.store s (Order.mk id price rem (Side_to_char c)) p1 in
  Forall (volume_ok p2)
    (OrderBook.add_to_levels
       (fun level v => ahead c (PriceLevel.price level) v) own p2 s) /\
  Forall (volume_ok p2) opp.
Proof.
  intros Hwf Hcap Hrem Halloc Hown Hopp p2.
  pose proof (wf_free_len _ _ _ _ _ _ Hwf) as Hfl.
  pose proof (wf_free_count _ _ _ _ _ _ Hwf) as Hfc.
  pose proof (wf_buffer_len _ _ _ _ _ _ Hwf) as Hbl.
  destruct (allocate_Some p p1 s Halloc) as (Hn & Hfl1 & Hbuf1 & Hfree);
    [lia | ].
  pose proof (wf_NoDup Hwf) as Hnd. rewrite Hfree in Hnd.
  rewrite <- app_assoc in Hnd. apply NoDup_app in Hnd as (_ & _ & Hnd).
  simpl in Hnd. apply NoDup_cons in Hnd as [Hs_live _].
  assert (Hs_lt : (s < Capacity)%nat).
  { apply (wf_slot_lt Hwf). rewrite Hfree. set_solver. }
  assert (Hnew : MemPool.deref p2 s = Order.mk id price rem (Side_to_char c)).
  { subst p2. apply deref_store_eq. rewrite Hbuf1. lia. }
  assert (Hframe : forall s', s' ∈ slots own ++ slots opp ->
            MemPool.deref p2 s' = MemPool.deref p s').
  { intros s' Hs'. subst p2. rewrite deref_store_ne by (intros ->; contradiction).
    unfold MemPool.deref. rewrite Hbuf1. reflexivity. }
  assert (Hsum : forall l, l ∈ own ++ opp ->
            sum_qty p2 (PriceLevel.orders l) = sum_qty p (PriceLevel.orders l)).
  { intros l Hl. apply sum_qty_frame. intros s' Hs'. apply Hframe.
    apply elem_of_app. apply elem_of_app in Hl.
    destruct Hl as [Hl | Hl]; [left | right]; apply elem_of_slots; eauto. }
  assert (Hkeep : forall L, (forall l, l ∈ L -> l ∈ own ++ opp) ->
            Forall (volume_ok p) L -> Forall (volume_ok p2) L).
  { intros L Hsub HL. apply Forall_forall. intros l Hl.
    rewrite Forall_forall in HL. unfold volume_ok.
    rewrite Hsum by auto. apply HL. exact Hl. }
  split; [ | apply Hkeep; [set_solver | exact Hopp]].
  apply add_to_levels_volume.
  - apply Hkeep; [set_solver | exact Hown].
  - apply Forall_forall. intros l Hl. rewrite Hnew. simpl.
    assert (Hin : l ∈ own ++ opp) by set_solver.
    rewrite Hsum by exact Hin.
    pose proof (wf_level_sum Hwf l Hin) as Hb. nia.
  - rewrite Hnew. simpl. lia.
Qed.

(** Cancelling keeps the cached volumes. *)
Lemma cancel_volume (Capacity : nat) (c : Side)
    (own opp : list PriceLevel.t) (om : gmap Z nat) (p : MemPool.t)
    (s : nat) :
  wf_parts Capacity c own opp om p ->
  (Z.of_nat Capacity <= 2 ^ 32) ->
  s ∈ slots own ->
  Forall (volume_ok p) own -> Forall (volume_ok p) opp ->
  Forall (volume_ok (MemPool.deallocate s p))
    (OrderBook.remove_from_levels own p s) /\
  Forall (volume_ok (MemPool.deallocate s p)) opp.
Proof.
  intros Hwf Hcap Hs Hown Hopp.
  pose proof (wf_NoDup Hwf) as Hnd.
  apply NoDup_app in Hnd as (_ & _ & Hnd).
  apply NoDup_app in Hnd as (Hnd_own & _ & _).
  destruct (remove_from_levels_spec c om p (Side_to_char c) s own)
    as (_ & _ & _ & _ & Hvol); auto.
  { apply (wf_own_sorted _ _ _ _ _ _ Hwf). }
  { apply (wf_own _ _ _ _ _ _ Hwf). }
  split; [ | exact Hopp].
  apply Hvol; [exact Hown | ].
  apply Forall_forall. intros l Hl.
  assert (Hin : l ∈ own ++ opp) by set_solver.
  pose proof (wf_level_sum Hwf l Hin) as Hb. nia.
Qed.

(** * Reachable books *)


Lemma reachable_wf (Capacity : nat) (b : OrderBook.t) :
  reachable Capacity b -> wf Capacity b.
Proof.
  induction 1 as [ | b id price qty side cb _ IH _ _ Hq | b id _ IH _].
  - apply init_wf.
  - apply add_order_wf; assumption.
  - apply cancel_order_wf; assumption.
Qed.

Lemma volumes_with_ladders (c : Side) (own opp : list PriceLevel.t)
    (om : gmap Z nat) (p : MemPool.t) :
  Forall (volume_ok p) own /\ Forall (volume_ok p) opp ->
  volumes_ok (with_ladders c own opp om p).
Proof. destruct c; unfold volumes_ok; simpl; tauto. Qed.

Lemma volumes_ladders (c : Side) (b : OrderBook.t) :
  volumes_ok b ->
  Forall (volume_ok (OrderBook.pool_ b)) (ladder c b) /\
  Forall (volume_ok (OrderBook.pool_ b)) (ladder (opposite c) b).
Proof. destruct c; unfold volumes_ok; simpl; tauto. Qed.

Lemma add_order_volumes (Capacity : nat) (b : OrderBook.t)
    (id price qty : Z) (side : Side) (cb : bool) :
  wf Capacity b -> Z.of_nat Capacity <= 2 ^ 32 -> 0 <= qty < 2 ^ 32 ->
  volumes_ok b ->
  volumes_ok (OrderBook.book (OrderBook.add_order b id price qty side cb)).
Proof.
  intros Hwf Hcap Hqty Hvol.
  destruct (OrderBook.order_map_ b !! id) as [s | ] eqn:Hid.
  { unfold OrderBook.add_order. rewrite Hid. exact Hvol. }
  rewrite add_order_parts by exact Hid. cbv zeta.
  pose proof (wf_ladders Capacity side b Hwf) as Hparts.
  destruct (volumes_ladders side b Hvol) as [Hown Hopp].
  destruct (match_levels_wf Capacity side _ _ _ _ id price qty cb Hparts Hqty)
    as (Hwf1 & _ & Hle & _).
  destruct (match_levels_volume Capacity side _ _ _ _ id price qty cb
              Hparts Hcap Hqty Hown Hopp) as [Hown1 Hopp1].
  set (r := match_levels _ _ _ _ _ _ _ _) in *.
  destruct (OrderBook.m_remaining r =? 0) eqn:Hz.
  { simpl. apply volumes_with_ladders. auto. }
  destruct (MemPool.allocate (OrderBook.m_pool r)) as [[s | ] p1] eqn:Ha.
  - simpl. apply volumes_with_ladders.
    eapply rest_volume; eauto. lia.
  - simpl. apply volumes_with_ladders. auto.
Qed.

Lemma cancel_order_volumes (Capacity : nat) (b : OrderBook.t) (id : Z) :
  wf Capacity b -> Z.of_nat Capacity <= 2 ^ 32 ->
  volumes_ok b -> volumes_ok (OrderBook.cancel_order b id).2.
Proof.
  intros Hwf Hcap Hvol.
  destruct (OrderBook.order_map_ b !! id) as [s | ] eqn:Hid.
  - destruct (cancel_order_parts Capacity b id s Hwf Hid) as (c & Hs & ->).
    simpl. apply volumes_with_ladders.
    destruct (volumes_ladders c b Hvol) as [Hown Hopp].
    eapply cancel_volume; eauto. apply wf_ladders. exact Hwf.
  - unfold OrderBook.cancel_order. rewrite Hid. exact Hvol.
Qed.

Lemma reachable_volumes (Capacity : nat) (b : OrderBook.t) :
  Z.of_nat Capacity <= 2 ^ 32 -> reachable Capacity b -> volumes_ok b.
Proof.
  intros Hcap.
  induction 1 as [ | b id price qty side cb Hb IH _ _ Hq | b id Hb IH _].
  - split; constructor.
  - apply (add_order_volumes Capacity); auto using reachable_wf.
  - apply (cancel_order_volumes Capacity); auto using reachable_wf.
Qed.

(** Claim C4.  In every reachable book whose two ladders are both
    non-empty, [best_bid] and [best_ask] are present and the best ask is
    strictly above the best bid. *)
Theorem best_ask_above_best_bid (Capacity : nat) (b : OrderBook.t) :
  reachable Capacity b ->
  OrderBook.bids_ b <> [] -> OrderBook.asks_ b <> [] ->
  exists bid ask,
    OrderBook.best_bid b = Some bid /\ OrderBook.best_ask b = Some ask /\
    bid < ask.
Proof.
  intros Hr Hb Ha. pose proof (reachable_wf _ _ Hr) as Hwf.
  unfold OrderBook.best_bid, OrderBook.best_ask.
  destruct (OrderBook.bids_ b) as [ | lb bids] eqn:Eb; [contradiction | ].
  destruct (OrderBook.asks_ b) as [ | la asks] eqn:Ea; [contradiction | ].
  pose proof (wf_own _ _ _ _ _ _ Hwf) as Hown. rewrite Eb in Hown.
  pose proof (wf_opp _ _ _ _ _ _ Hwf) as Hopp. rewrite Ea in Hopp.
  apply Forall_cons in Hown as [[Hnb _] _].
  apply Forall_cons in Hopp as [[Hna _] _].
  assert (Heb : PriceLevel.empty lb = false).
  { destruct (PriceLevel.empty lb) eqn:E; [ | reflexivity].
    apply PriceLevel_empty_iff in E. contradiction. }
  assert (Hea : PriceLevel.empty la = false).
  { destruct (PriceLevel.empty la) eqn:E; [ | reflexivity].
    apply PriceLevel_empty_iff in E. contradiction. }
  rewrite Heb, Hea. exists (PriceLevel.price lb), (PriceLevel.price la).
  split_and!; try reflexivity.
  pose proof (wf_spread _ _ _ _ _ _ Hwf lb la) as Hs.
  rewrite Eb, Ea in Hs. simpl in Hs.
  assert ((PriceLevel.price lb <? PriceLevel.price la) = true)
    by (apply Hs; left). lia.
Qed.

(** * Executions *)

Lemma match_levels_no_fill (Capacity : nat) (c : Side)
    (own opp : list PriceLevel.t) (om : gmap Z nat) (p : MemPool.t)
    (taker price rem : Z) (cb : bool) :
  wf_parts Capacity c own opp om p ->
  0 <= rem < 2 ^ 32 ->
  let r := match_levels (ahead (opposite c) price) (opposite c) opp taker rem
             cb om p in
  OrderBook.m_remaining r <> 0 ->
  MemPool.free_count_ (OrderBook.m_pool r) = O ->
  book_fills (ahead (opposite c) price) taker (opposite c) rem
    (MemPool.deref p <$> slots opp) = [].
Proof.
  intros Hwf Hrem r Hleft Hfull.
  pose proof (wf_NoDup Hwf) as Hnd.
  apply NoDup_app in Hnd as (_ & _ & Hnd).
  apply NoDup_app in Hnd as (_ & _ & Hnd_opp).
  pose proof (wf_count Hwf) as Hcount.
  destruct (match_levels_spec (ahead (opposite c) price) (opposite c)
              (Side_to_char (opposite c)) opp taker rem cb om p)
    as (consumed & Hq & Hcons & Hok & _ & Hdone & _);
    auto.
  { rewrite (wf_free_len _ _ _ _ _ _ Hwf). lia. }
  { apply Forall_forall. intros s Hs. rewrite (wf_buffer_len _ _ _ _ _ _ Hwf).
    apply (wf_slot_lt Hwf). set_solver. }
  { apply (wf_opp _ _ _ _ _ _ Hwf). }
  { apply (wf_index_ok Hwf). }
  fold r in Hq, Hcons, Hok, Hdone.
  assert (consumed = []) as ->.
  { pose proof (c_free_count _ _ _ _ _ _ Hcons) as Hc.
    destruct consumed; [reflexivity | simpl in Hc; lia]. }
  simpl in Hq. destruct Hdone as [? | Hstop]; [contradiction | ].
  destruct (OrderBook.m_target r) as [ | l ls] eqn:Et.
  { rewrite Hq. reflexivity. }
  apply Forall_cons in Hok as [[Hne Hres] _].
  rewrite Hq, slots_cons.
  destruct (PriceLevel.orders l) as [ | s0 q0]; [contradiction | ].
  apply Forall_cons in Hres as [(Hp0 & _) _].
  rewrite (c_price _ _ _ _ _ _ Hcons) in Hp0.
  simpl. rewrite Hp0, Hstop, andb_false_r. reflexivity.
Qed.

(** The executions of a call to [add_order] on a fresh identifier are
    those of its matching phase. *)
Lemma add_order_executions (b : OrderBook.t) (id price qty : Z) (side : Side)
    (cb : bool) :
  OrderBook.order_map_ b !! id = None ->
  OrderBook.executions (OrderBook.add_order b id price qty side cb) =
  OrderBook.m_reported
    (match_levels (ahead (opposite side) price) (opposite side)
       (ladder (opposite side) b) id qty cb
       (OrderBook.order_map_ b) (OrderBook.pool_ b)).
Proof.
  intros Hid. rewrite add_order_parts by exact Hid. cbv zeta.
  destruct (_ =? 0); [reflexivity | ].
  destruct (MemPool.allocate _) as [[s | ] p1]; reflexivity.
Qed.


Lemma book_fills_maker (stop : Z -> bool) (taker : Z) (mside : Side)
    (makers : list Order.t) :
  forall (rem : Z) (e : Execution.t),
  e ∈ book_fills stop taker mside rem makers ->
  exists m, m ∈ makers /\ Execution.maker_id e = Order.id m /\
            Execution.price e = Order.price m /\
            Execution.taker_id e = taker /\
            Execution.maker_side e = mside /\
            stop (Execution.price e) = false.
Proof.
  induction makers as [ | m makers IH]; intros rem e; simpl; [set_solver | ].
  destruct (rem >? 0); simpl; [ | set_solver].
  destruct (stop (Order.price m)) eqn:Hs; simpl; [set_solver | ].
  intros [-> | He]%elem_of_cons.
  - exists m. simpl. split_and!; auto. left.
  - destruct (IH _ _ He) as (m' & Hm' & ?). exists m'. split; [right | ]; auto.
Qed.


(** Claim C1.  On a reachable book, every execution that a call to
    [add_order] passes to the callback names a maker that is registered
    and queued at a level of the opposite ladder, and its price is the
    price held by that maker's order (which is also the price of its
    level): the resting price, whatever the limit of the incoming order.
    The maker is read in the book as the call finds it; no operation
    writes the price of a resting order ([c_price]). *)
Theorem execution_price_is_maker_price (Capacity : nat) (b : OrderBook.t)
    (id price qty : Z) (side : Side) (on_execution : bool)
    (e : Execution.t) :
  reachable Capacity b -> is_u32 qty ->
  e ∈ OrderBook.executions
        (OrderBook.add_order b id price qty side on_execution) ->
  exists (maker : nat) (level : PriceLevel.t),
    OrderBook.order_map_ b !! Execution.maker_id e = Some maker /\
    level ∈ ladder (opposite side) b /\
    maker ∈ PriceLevel.orders level /\
    Execution.price e = Order.price (MemPool.deref (OrderBook.pool_ b) maker) /\
    Execution.price e = PriceLevel.price level.
Proof.
  intros Hr Hqty He. pose proof (reachable_wf _ _ Hr) as Hwf.
  destruct (OrderBook.order_map_ b !! id) as [s | ] eqn:Hid.
  { unfold OrderBook.add_order in He. rewrite Hid in He. set_solver. }
  rewrite add_order_executions in He by exact Hid.
  pose proof (wf_ladders Capacity side b Hwf) as Hparts.
  destruct (match_levels_wf Capacity side _ _ _ _ id price qty on_execution
              Hparts Hqty)
    as (_ & _ & _ & _ & Hrep & _).
  rewrite Hrep in He. destruct on_execution; [ | set_solver].
  apply book_fills_maker in He as (m & Hm & Hmid & Hmp & _).
  apply list_elem_of_fmap in Hm as (maker & -> & Hs).
  apply elem_of_slots in Hs as (level & Hl & Hs).
  pose proof (wf_opp _ _ _ _ _ _ Hparts) as Hopp.
  rewrite Forall_forall in Hopp. destruct (Hopp level Hl) as [_ Hq].
  rewrite Forall_forall in Hq. destruct (Hq maker Hs) as (Hp & _ & _ & Hi).
  exists maker, level. rewrite Hmid, Hmp. split_and!; auto.
Qed.

(** Claim C3.  Take a call to [add_order] on a reachable book with a
    fresh identifier, and let [m] be what its matching phase ([match_buy]
    or [match_sell]) hands back.  If a quantity is left and the pool has no
    free slot when the residual is to be allocated, then [add_order]
    returns [false] with the book and the executions of the matching
    phase as they are (nothing is undone), the identifier is not
    registered, and the ladder of the order's side is as before the call
    (the residual is not rested).  The last conjunct adds that in this
    situation the matching phase has filled nothing: a fill that leaves a
    residual releases the slot of its maker. *)
Theorem pool_exhausted_drops_residual (Capacity : nat) (b : OrderBook.t)
    (id price qty : Z) (side : Side) (on_execution : bool) :
  reachable Capacity b -> is_u32 qty ->
  OrderBook.order_map_ b !! id = None ->
  let m :=
    match side with
    | Buy => OrderBook.match_buy b id price qty on_execution
    | Sell => OrderBook.match_sell b id price qty on_execution
    end in
  m.1.1 <> 0 ->
  MemPool.available (OrderBook.pool_ m.1.2) = O ->
  OrderBook.add_order b id price qty side on_execution
    = OrderBook.Outcome false m.1.2 m.2 /\
  OrderBook.order_map_ m.1.2 !! id = None /\
  ladder side m.1.2 = ladder side b /\
  m.2 = [].
Proof.
  intros Hr Hqty Hid. pose proof (reachable_wf _ _ Hr) as Hwf.
  pose proof (wf_ladders Capacity side b Hwf) as Hparts.
  pose proof (add_order_parts b id price qty side on_execution Hid) as Hadd.
  destruct (match_levels_wf Capacity side _ _ _ _ id price qty on_execution
              Hparts Hqty)
    as (_ & _ & _ & Hnone & Hrep & _).
  pose proof (match_levels_no_fill Capacity side _ _ _ _ id price qty
                on_execution Hparts Hqty) as Hnofill.
  cbv zeta in Hadd, Hnofill.
  assert (Hmatch :
    match side with
    | Buy => OrderBook.match_buy b id price qty on_execution
    | Sell => OrderBook.match_sell b id price qty on_execution
    end =
    let r := match_levels (ahead (opposite side) price) (opposite side)
               (ladder (opposite side) b) id qty on_execution
               (OrderBook.order_map_ b) (OrderBook.pool_ b) in
    (OrderBook.m_remaining r,
     with_ladders side (ladder side b) (OrderBook.m_target r)
       (OrderBook.m_index r) (OrderBook.m_pool r),
     OrderBook.m_reported r)).
  { destruct side; simpl.
    - unfold OrderBook.match_buy. rewrite match_buy_loop_eq. reflexivity.
    - unfold OrderBook.match_sell. rewrite match_sell_loop_eq. reflexivity. }
  rewrite Hmatch. cbv zeta.
  set (r := match_levels _ _ _ _ _ _ _ _) in *.
  cbn [fst snd]. intros Hrem Hfull.
  assert (Hfc : MemPool.free_count_ (OrderBook.m_pool r) = O).
  { destruct side; exact Hfull. }
  split_and!.
  - rewrite Hadd. replace (OrderBook.m_remaining r =? 0) with false by lia.
    unfold MemPool.allocate. rewrite Hfc. reflexivity.
  - destruct side; simpl; apply Hnone, Hid.
  - destruct side; reflexivity.
  - rewrite Hrep, Hnofill by assumption. destruct on_execution; reflexivity.
Qed.

(** Claim C10.  On any book, [add_order] with a fresh identifier and
    quantity zero returns [true], reports no execution and leaves the book
    as it is: both ladders, the identifier index (where the identifier
    stays unregistered) and the pool with its free count. *)
Theorem add_order_zero_qty (b : OrderBook.t) (id price : Z) (side : Side)
    (on_execution : bool) :
  OrderBook.order_map_ b !! id = None ->
  let r := OrderBook.add_order b id price 0 side on_execution in
  r = OrderBook.Outcome true b [] /\
  OrderBook.returned r = true /\
  OrderBook.executions r = [] /\
  OrderBook.bids_ (OrderBook.book r) = OrderBook.bids_ b /\
  OrderBook.asks_ (OrderBook.book r) = OrderBook.asks_ b /\
  OrderBook.order_map_ (OrderBook.book r) !! id = None /\
  MemPool.available (OrderBook.pool_ (OrderBook.book r))
  = MemPool.available (OrderBook.pool_ b).
Proof.
  intros Hid r.
  assert (Hr : r = OrderBook.Outcome true b []).
  { subst r. unfold OrderBook.add_order. rewrite Hid.
    destruct b as [bids asks om p].
    destruct side; simpl.
    - unfold OrderBook.match_buy. simpl. destruct asks; reflexivity.
    - unfold OrderBook.match_sell. simpl. destruct bids; reflexivity. }
  rewrite Hr. simpl. split_and!; auto.
Qed.

(** * Price-time priority *)








(** * Ladders, volumes and queries *)


Lemma StronglySorted_impl {A} (R R' : A -> A -> Prop) (l : list A) :
  (forall x y, R x y -> R' x y) -> StronglySorted R l -> StronglySorted R' l.
Proof.
  intros HR. induction 1 as [ | x l _ IH Hx]; constructor; [exact IH | ].
  eapply Forall_impl; [exact Hx | ]. intros y. apply HR.
Qed.

(** Claim C5.  In every reachable book the prices of the bid ladder
    descend strictly, the prices of the ask ladder ascend strictly, and no
    level of either ladder is empty. *)
Theorem ladders_strictly_monotone (Capacity : nat) (b : OrderBook.t) :
  reachable Capacity b ->
  StronglySorted (fun x y => PriceLevel.price x > PriceLevel.price y)
    (OrderBook.bids_ b) /\
  StronglySorted (fun x y => PriceLevel.price x < PriceLevel.price y)
    (OrderBook.asks_ b) /\
  Forall (fun l => PriceLevel.empty l = false)
    (OrderBook.bids_ b ++ OrderBook.asks_ b).
Proof.
  intros Hr. pose proof (reachable_wf _ _ Hr) as Hwf. split_and!.
  - eapply StronglySorted_impl; [ | apply (wf_own_sorted _ _ _ _ _ _ Hwf)].
    simpl. intros x y H. lia.
  - eapply StronglySorted_impl; [ | apply (wf_opp_sorted _ _ _ _ _ _ Hwf)].
    simpl. intros x y H. lia.
  - assert (Hne : forall ch l, level_ok (OrderBook.order_map_ b)
                    (OrderBook.pool_ b) ch l -> PriceLevel.empty l = false).
    { intros ch l [Hl _]. destruct (PriceLevel.empty l) eqn:E; [ | reflexivity].
      apply PriceLevel_empty_iff in E. contradiction. }
    apply Forall_app. split.
    + eapply Forall_impl; [apply (wf_own _ _ _ _ _ _ Hwf) | ]. apply Hne.
    + eapply Forall_impl; [apply (wf_opp _ _ _ _ _ _ Hwf) | ]. apply Hne.
Qed.

(** ** Where the cached volume wraps *)












(** Claim C7 as stated fails: on the empty book the bid side is empty and
    [best_bid_volume] answers with the value [0]. *)
Lemma best_bid_volume_not_absent :
  ladder (query_side BestBidVolume) (OrderBook.init 1) = [] /\
  answer BestBidVolume (OrderBook.init 1) = Some 0.
Proof. split; reflexivity. Qed.

(** Claim C7, amended.  When a side of the book is empty, its best price
    is absent and its best volume is [0]; [spread] is absent when either
    side is empty. *)
Theorem queries_on_empty_side (b : OrderBook.t) :
  (OrderBook.bids_ b = [] ->
   OrderBook.best_bid b = None /\ OrderBook.best_bid_volume b = 0) /\
  (OrderBook.asks_ b = [] ->
   OrderBook.best_ask b = None /\ OrderBook.best_ask_volume b = 0) /\
  (OrderBook.bids_ b = [] \/ OrderBook.asks_ b = [] ->
   OrderBook.spread b = None).
Proof.
  unfold OrderBook.spread, OrderBook.best_bid, OrderBook.best_ask,
    OrderBook.best_bid_volume, OrderBook.best_ask_volume.
  split_and!.
  - intros ->. split; reflexivity.
  - intros ->. split; reflexivity.
  - intros [-> | ->]; [reflexivity | ].
    destruct (OrderBook.bids_ b) as [ | front ?]; [reflexivity | ].
    destruct (PriceLevel.empty front); reflexivity.
Qed.

Lemma queries_on_empty_side_witness :
  OrderBook.bids_ (OrderBook.init 2) = [] /\
  OrderBook.best_bid (OrderBook.init 2) = None /\
  OrderBook.best_bid_volume (OrderBook.init 2) = 0 /\
  OrderBook.spread (OrderBook.init 2) = None.
Proof.
  assert (H : OrderBook.bids_ (OrderBook.init 2) = []) by reflexivity.
  split; [exact H | ].
  destruct (queries_on_empty_side (OrderBook.init 2)) as (Hb & _ & Hs).
  split; [exact (proj1 (Hb H)) | ].
  split; [exact (proj2 (Hb H)) | exact (Hs (or_introl H))].
Defined.

Lemma one_bid_reachable : reachable 4 one_bid.
Proof.
  unfold one_bid. apply reachable_add_order;
    [apply reachable_init | unfold is_u64; lia ..| unfold is_u32; lia].
Defined.

Lemma bid_and_ask_reachable : reachable 4 bid_and_ask.
Proof.
  unfold bid_and_ask. apply reachable_add_order;
    [apply one_bid_reachable | unfold is_u64; lia ..| unfold is_u32; lia].
Defined.

Lemma full_pool_reachable : reachable 1 full_pool.
Proof.
  unfold full_pool. apply reachable_add_order;
    [apply reachable_init | unfold is_u64; lia ..| unfold is_u32; lia].
Defined.

Lemma best_ask_above_best_bid_witness :
  exists bid ask,
    OrderBook.best_bid bid_and_ask = Some bid /\
    OrderBook.best_ask bid_and_ask = Some ask /\ bid < ask.
Proof.
  apply (best_ask_above_best_bid 4 bid_and_ask bid_and_ask_reachable);
    vm_compute; discriminate.
Defined.

Lemma ladders_strictly_monotone_witness :
  StronglySorted (fun x y => PriceLevel.price x > PriceLevel.price y)
    (OrderBook.bids_ bid_and_ask) /\
  StronglySorted (fun x y => PriceLevel.price x < PriceLevel.price y)
    (OrderBook.asks_ bid_and_ask) /\
  Forall (fun l => PriceLevel.empty l = false)
    (OrderBook.bids_ bid_and_ask ++ OrderBook.asks_ bid_and_ask).
Proof.
  exact (ladders_strictly_monotone 4 bid_and_ask bid_and_ask_reachable).
Defined.


Lemma execution_price_is_maker_price_witness :
  let e := Execution.mk 1 2 1000000 30 Buy in
  e ∈ OrderBook.executions (OrderBook.add_order one_bid 2 990000 30 Sell true)
  /\
  exists (maker : nat) (level : PriceLevel.t),
    OrderBook.order_map_ one_bid !! Execution.maker_id e = Some maker /\
    level ∈ ladder (opposite Sell) one_bid /\
    maker ∈ PriceLevel.orders level /\
    Execution.price e
    = Order.price (MemPool.deref (OrderBook.pool_ one_bid) maker) /\
    Execution.price e = PriceLevel.price level.
Proof.
  intros e.
  assert (H : e ∈ OrderBook.executions
                    (OrderBook.add_order one_bid 2 990000 30 Sell true)).
  { vm_compute. apply list_elem_of_here. }
  split; [exact H | ].
  apply (execution_price_is_maker_price 4 one_bid 2 990000 30 Sell true e
           one_bid_reachable); [unfold is_u32; lia | exact H].
Defined.

Lemma add_order_zero_qty_witness :
  OrderBook.add_order one_bid 7 1000000 0 Sell true
  = OrderBook.Outcome true one_bid [].
Proof.
  apply (add_order_zero_qty one_bid 7 1000000 Sell true). reflexivity.
Defined.



(** ** The loops, as recursions on the queue and on the ladder *)

(** An iteration of the loop of [match_at_level] that does not fill the
    maker leaves nothing to fill: the guard of the [while] then fails. *)
Lemma match_at_level_loop_done (remaining : Z) (m : Order.t) :
  let fill_qty := Z.min remaining (Order.qty m) in
  Order.is_filled (Order.reduce_qty fill_qty m) = false ->
  wrap32 (remaining - fill_qty) = 0.
Proof.
  intros fill_qty. unfold Order.is_filled, Order.reduce_qty.
  destruct (fill_qty >=? Order.qty m) eqn:E; simpl; [discriminate | ].
  intros _. subst fill_qty.
  rewrite Z.min_l by lia. rewrite Z.sub_diag. reflexivity.
Qed.

Lemma match_at_level_loop_stops (queue : list nat) :
  forall (level_price tv taker_id remaining : Z) (maker_side : Side)
         (cb : bool) (om : gmap Z nat) (p : MemPool.t),
  0 <= remaining ->
  let r := OrderBook.match_at_level_loop queue level_price tv taker_id
             remaining maker_side cb om p in
  OrderBook.m_remaining r = 0 \/ PriceLevel.empty (OrderBook.m_target r) = true.
Proof.
  induction queue as [ | maker rest IH]; intros P tv taker rem ms cb om p Hrem;
    simpl; [right; reflexivity | ].
  destruct (rem >? 0) eqn:Hpos; [ | left; simpl; lia].
  destruct (Order.is_filled _) eqn:Hfilled.
  - apply IH. unfold wrap32. apply Z.mod_pos_bound. lia.
  - left. simpl. apply match_at_level_loop_done. exact Hfilled.
Qed.

(** When [match_at_level] returns with makers left at the level, nothing
    is left to fill: the guard of the loop of [match_buy] and of
    [match_sell] then fails. *)
Lemma match_at_level_done (level : PriceLevel.t) (taker_id qty : Z)
    (maker_side : Side) (cb : bool) (om : gmap Z nat) (p : MemPool.t) :
  0 <= qty ->
  let r := OrderBook.match_at_level level taker_id qty maker_side cb om p in
  PriceLevel.empty (OrderBook.m_target r) = false ->
  OrderBook.m_remaining r = 0.
Proof.
  intros Hq r Hne.
  destruct (match_at_level_loop_stops (PriceLevel.orders level)
              (PriceLevel.price level) (PriceLevel.total_volume level)
              taker_id qty maker_side cb om p Hq) as [H | H]; [exact H | ].
  fold (OrderBook.match_at_level level taker_id qty maker_side cb om p) in H.
  fold r in H. congruence.
Qed.

(** ** The scenarios of the specification *)

Example scenario_exact_cross :
  OrderBook.executions (OrderBook.add_order one_bid 2 990000 100 Sell true)
  = [Execution.mk 1 2 1000000 100 Buy] /\
  OrderBook.empty
    (OrderBook.book (OrderBook.add_order one_bid 2 990000 100 Sell true))
  = true.
Proof. split; vm_compute; reflexivity. Qed.

Example scenario_partial_fill :
  let r := OrderBook.add_order one_bid 2 990000 30 Sell true in
  OrderBook.executions r = [Execution.mk 1 2 1000000 30 Buy] /\
  OrderBook.best_bid_volume (OrderBook.book r) = 70 /\
  OrderBook.best_bid (OrderBook.book r) = Some 1000000.
Proof. split_and!; vm_compute; reflexivity. Qed.

Example scenario_sweep :
  let r := OrderBook.add_order three_bid_levels 4 980000 120 Sell true in
  OrderBook.executions r
  = [Execution.mk 1 4 1000000 50 Buy; Execution.mk 2 4 990000 70 Buy] /\
  (fun l => (PriceLevel.price l, PriceLevel.total_volume l))
    <$> OrderBook.bids_ (OrderBook.book r)
  = [(990000, 30); (980000, 200)].
Proof. split; vm_compute; reflexivity. Qed.

Example scenario_fifo :
  let b := add_all Buy 1000000 (OrderBook.init 8)
             [(1, 100); (2, 100); (3, 100)] in
  let r := OrderBook.add_order b 4 990000 150 Sell true in
  OrderBook.executions r
  = [Execution.mk 1 4 1000000 100 Buy; Execution.mk 2 4 1000000 50 Buy] /\
  OrderBook.best_bid_volume (OrderBook.book r) = 150 /\
  (OrderBook.cancel_order (OrderBook.book r) 2).1 = true /\
  (OrderBook.cancel_order (OrderBook.book r) 1).1 = false.
Proof. split_and!; vm_compute; reflexivity. Qed.

Example scenario_spread :
  OrderBook.spread bid_and_ask = Some 10000 /\
  OrderBook.best_bid_volume bid_and_ask = 100 /\
  OrderBook.best_ask_volume bid_and_ask = 50.
Proof. split_and!; vm_compute; reflexivity. Qed.

(** A pool that is full when [add_order] is called may have a free slot
    when the residual is allocated: the matching phase releases the slot
    of every maker it fills.  Here the only slot holds an ask of 10; a bid
    of 15 fills it and its residual of 5 rests in the slot released. *)
Example full_pool_at_call_may_rest :
  MemPool.available (OrderBook.pool_ one_ask_full_pool) = O /\
  let r := OrderBook.add_order one_ask_full_pool 2 100 15 Buy true in
  OrderBook.returned r = true /\
  OrderBook.executions r = [Execution.mk 1 2 100 10 Sell] /\
  OrderBook.best_bid (OrderBook.book r) = Some 100 /\
  OrderBook.best_bid_volume (OrderBook.book r) = 5.
Proof.
  split; [reflexivity | ]. intros r. split_and!; vm_compute; reflexivity.
Qed.

Lemma pool_exhausted_drops_residual_witness :
  let m := OrderBook.match_buy full_pool 2 99 5 true in
  m.1.1 <> 0 /\
  MemPool.available (OrderBook.pool_ m.1.2) = O /\
  OrderBook.add_order full_pool 2 99 5 Buy true
    = OrderBook.Outcome false m.1.2 m.2 /\
  OrderBook.order_map_ m.1.2 !! 2 = None /\
  ladder Buy m.1.2 = ladder Buy full_pool /\
  m.2 = [].
Proof.
  intros m.
  assert (H1 : m.1.1 <> 0) by (vm_compute; discriminate).
  assert (H2 : MemPool.available (OrderBook.pool_ m.1.2) = O) by reflexivity.
  split; [exact H1 | ]. split; [exact H2 | ].
  apply (pool_exhausted_drops_residual 1 full_pool 2 99 5 Buy true
           full_pool_reachable); [unfold is_u32; lia | reflexivity | exact H1 | exact H2].
Defined.

(** * The linked list: the pointers and the sequence *)

Section LinkedList.
Import IntrusiveListPtr.
Local Open Scope mem_scope.

(** ** Reading and writing nodes *)

Lemma valid_set_prev (h : memory) (a b : nat) (v : ptr) :
  valid (set_prev a v h) b <-> valid h b.
Proof.
  unfold valid, set_prev. destruct (decide (a = b)) as [-> | Hne].
  - rewrite lookup_alter_eq. rewrite fmap_is_Some. reflexivity.
  - rewrite lookup_alter_ne by exact Hne. reflexivity.
Qed.

Lemma valid_set_next (h : memory) (a b : nat) (v : ptr) :
  valid (set_next a v h) b <-> valid h b.
Proof.
  unfold valid, set_next. destruct (decide (a = b)) as [-> | Hne].
  - rewrite lookup_alter_eq. rewrite fmap_is_Some. reflexivity.
  - rewrite lookup_alter_ne by exact Hne. reflexivity.
Qed.

Lemma prev_of_set_prev_eq (h : memory) (a : nat) (v : ptr) :
  valid h a -> prev_of (set_prev a v h) a = v.
Proof.
  intros [n Hn]. unfold prev_of, set_prev.
  rewrite lookup_alter_eq, Hn. reflexivity.
Qed.

Lemma prev_of_set_prev_ne (h : memory) (a b : nat) (v : ptr) :
  a <> b -> prev_of (set_prev a v h) b = prev_of h b.
Proof.
  intros Hne. unfold prev_of, set_prev.
  rewrite lookup_alter_ne by exact Hne. reflexivity.
Qed.

Lemma next_of_set_next_eq (h : memory) (a : nat) (v : ptr) :
  valid h a -> next_of (set_next a v h) a = v.
Proof.
  intros [n Hn]. unfold next_of, set_next.
  rewrite lookup_alter_eq, Hn. reflexivity.
Qed.

Lemma next_of_set_next_ne (h : memory) (a b : nat) (v : ptr) :
  a <> b -> next_of (set_next a v h) b = next_of h b.
Proof.
  intros Hne. unfold next_of, set_next.
  rewrite lookup_alter_ne by exact Hne. reflexivity.
Qed.

Lemma prev_of_set_next (h : memory) (a b : nat) (v : ptr) :
  prev_of (set_next a v h) b = prev_of h b.
Proof.
  unfold prev_of, set_next. destruct (decide (a = b)) as [-> | Hne].
  - rewrite lookup_alter_eq. destruct (h !! b); reflexivity.
  - rewrite lookup_alter_ne by exact Hne. reflexivity.
Qed.

Lemma next_of_set_prev (h : memory) (a b : nat) (v : ptr) :
  next_of (set_prev a v h) b = next_of h b.
Proof.
  unfold next_of, set_prev. destruct (decide (a = b)) as [-> | Hne].
  - rewrite lookup_alter_eq. destruct (h !! b); reflexivity.
  - rewrite lookup_alter_ne by exact Hne. reflexivity.
Qed.

Lemma lookup_set_prev_ne (h : memory) (a b : nat) (v : ptr) :
  a <> b -> set_prev a v h !! b = h !! b.
Proof. intros Hne. unfold set_prev. apply lookup_alter_ne, Hne. Qed.

Lemma lookup_set_next_ne (h : memory) (a b : nat) (v : ptr) :
  a <> b -> set_next a v h !! b = h !! b.
Proof. intros Hne. unfold set_next. apply lookup_alter_ne, Hne. Qed.

Lemma next_of_valid (h : memory) (a b : nat) :
  next_of h a = Some b -> valid h a.
Proof.
  unfold next_of, valid. destruct (h !! a); [eauto | discriminate].
Qed.

Lemma prev_of_valid (h : memory) (a b : nat) :
  prev_of h a = Some b -> valid h a.
Proof.
  unfold prev_of, valid. destruct (h !! a); [eauto | discriminate].
Qed.

Lemma load_prev_valid (h : memory) (a : nat) :
  valid h a -> load_prev (Some a) h = Some (prev_of h a, h).
Proof.
  intros [n Hn]. unfold load_prev, prev_of. rewrite Hn. reflexivity.
Qed.

Lemma load_next_valid (h : memory) (a : nat) :
  valid h a -> load_next (Some a) h = Some (next_of h a, h).
Proof.
  intros [n Hn]. unfold load_next, next_of. rewrite Hn. reflexivity.
Qed.

Lemma store_prev_valid (h : memory) (a : nat) (v : ptr) :
  valid h a -> store_prev (Some a) v h = Some (tt, set_prev a v h).
Proof. intros [n Hn]. unfold store_prev. rewrite Hn. reflexivity. Qed.

Lemma store_next_valid (h : memory) (a : nat) (v : ptr) :
  valid h a -> store_next (Some a) v h = Some (tt, set_next a v h).
Proof. intros [n Hn]. unfold store_next. rewrite Hn. reflexivity. Qed.

Lemma bind_Some {A B} (m : M A) (k : A -> M B) (h h' : memory) (x : A) :
  m h = Some (x, h') -> bind m k h = k x h'.
Proof. intros Hm. unfold bind. rewrite Hm. reflexivity. Qed.

(** ** Chains *)

Lemma chain_cons2 (h : memory) (a b : nat) (p : list nat) :
  chain h (a :: b :: p) <->
  next_of h a = Some b /\ prev_of h b = Some a /\ chain h (b :: p).
Proof. reflexivity. Qed.

Lemma chain_app (h : memory) (p1 p2 : list nat) (a : nat) :
  chain h (p1 ++ a :: p2) <-> chain h (p1 ++ [a]) /\ chain h (a :: p2).
Proof.
  induction p1 as [ | x p1 IH]; simpl app.
  - simpl. tauto.
  - destruct p1 as [ | y p1].
    + simpl app in *. rewrite chain_cons2. simpl chain at 2. tauto.
    + simpl app in *. rewrite !chain_cons2. rewrite IH. tauto.
Qed.

Lemma chain_frame (h h' : memory) (p : list nat) :
  (forall a, a ∈ removelast p -> next_of h' a = next_of h a) ->
  (forall b, b ∈ tail p -> prev_of h' b = prev_of h b) ->
  chain h p -> chain h' p.
Proof.
  induction p as [ | a p IH]; [auto | ].
  destruct p as [ | b p]; [auto | ].
  intros Hn Hp. rewrite !chain_cons2. intros (H1 & H2 & H3). split_and!.
  - rewrite Hn; [exact H1 | ]. simpl. left.
  - rewrite Hp; [exact H2 | ]. simpl. left.
  - apply IH; [ | | exact H3].
    + intros x Hx. apply Hn. simpl. right. exact Hx.
    + intros x Hx. apply Hp. simpl. right. exact Hx.
Qed.

Lemma chain_valid (h : memory) (p : list nat) (a : nat) :
  chain h p -> (2 <= length p)%nat -> a ∈ p -> valid h a.
Proof.
  induction p as [ | x p IH]; [simpl; lia | ].
  destruct p as [ | y p]; [simpl; lia | ].
  rewrite chain_cons2. intros (H1 & H2 & H3) _ Ha.
  apply elem_of_cons in Ha as [-> | Ha]; [eapply next_of_valid, H1 | ].
  destruct p as [ | z p].
  - apply list_elem_of_singleton in Ha as ->. eapply prev_of_valid, H2.
  - apply IH; [exact H3 | simpl; lia | exact Ha].
Qed.

Lemma valid_set_prev_intro (h : memory) (a b : nat) (v : ptr) :
  valid h b -> valid (set_prev a v h) b.
Proof. apply valid_set_prev. Qed.

Lemma valid_set_next_intro (h : memory) (a b : nat) (v : ptr) :
  valid h b -> valid (set_next a v h) b.
Proof. apply valid_set_next. Qed.

Ltac solve_valid :=
  repeat first [ apply valid_set_prev_intro | apply valid_set_next_intro ];
  first [ assumption | eapply next_of_valid; eassumption
        | eapply prev_of_valid; eassumption ].

Ltac solve_ne := first [ assumption | congruence | (intros ->; tauto) ].

Ltac mem_simpl :=
  repeat first
    [ rewrite prev_of_set_next
    | rewrite next_of_set_prev
    | rewrite next_of_set_next_eq by solve_valid
    | rewrite prev_of_set_prev_eq by solve_valid
    | rewrite next_of_set_next_ne by solve_ne
    | rewrite prev_of_set_prev_ne by solve_ne ].

(** Running one step of a computation whose pointer is valid. *)
Lemma bind_load_prev {B} (h : memory) (a : nat) (k : ptr -> M B) :
  valid h a -> bind (load_prev (Some a)) k h = k (prev_of h a) h.
Proof. intros Hv. apply bind_Some, load_prev_valid, Hv. Qed.

Lemma bind_load_next {B} (h : memory) (a : nat) (k : ptr -> M B) :
  valid h a -> bind (load_next (Some a)) k h = k (next_of h a) h.
Proof. intros Hv. apply bind_Some, load_next_valid, Hv. Qed.

Lemma bind_store_prev {B} (h : memory) (a : nat) (v : ptr) (k : unit -> M B) :
  valid h a -> bind (store_prev (Some a) v) k h = k tt (set_prev a v h).
Proof. intros Hv. apply bind_Some, store_prev_valid, Hv. Qed.

Lemma bind_store_next {B} (h : memory) (a : nat) (v : ptr) (k : unit -> M B) :
  valid h a -> bind (store_next (Some a) v) k h = k tt (set_next a v h).
Proof. intros Hv. apply bind_Some, store_next_valid, Hv. Qed.

Ltac mem_step :=
  first
    [ rewrite bind_load_prev by solve_valid
    | rewrite bind_load_next by solve_valid
    | rewrite bind_store_prev by solve_valid
    | rewrite bind_store_next by solve_valid
    | rewrite store_prev_valid by solve_valid
    | rewrite store_next_valid by solve_valid
    | rewrite load_prev_valid by solve_valid
    | rewrite load_next_valid by solve_valid ];
  mem_simpl.

(** ** [remove] *)

Lemma elem_of_removelast {A} (x : A) (l : list A) :
  x ∈ removelast l -> x ∈ l.
Proof.
  induction l as [ | z l IH]; simpl; [auto | ].
  destruct l as [ | z' l]; [intros H; apply elem_of_nil in H; contradiction | ].
  intros H. apply elem_of_cons in H as [-> | H]; [left | right; auto].
Qed.

Lemma elem_of_tail {A} (x : A) (l : list A) : x ∈ tail l -> x ∈ l.
Proof. destruct l; simpl; [auto | intros H; right; exact H]. Qed.

Lemma remove_chain (h : memory) (A B : list nat) (a x b : nat) :
  chain h (A ++ a :: x :: b :: B) ->
  x <> a -> x <> b -> x ∉ A -> x ∉ B ->
  a ∉ A -> b ∉ B -> a ∉ removelast (b :: B) -> b ∉ tail (A ++ [a]) ->
  remove (Some x) h
  = Some (tt, set_next x None (set_prev x None
                (set_prev b (Some a) (set_next a (Some b) h)))) /\
  chain (set_next x None (set_prev x None
           (set_prev b (Some a) (set_next a (Some b) h))))
    (A ++ a :: b :: B).
Proof.
  intros Hc Hxa Hxb HxA HxB HaA HbB HaB HbA.
  apply chain_app in Hc as [HcA Hc].
  rewrite !chain_cons2 in Hc. destruct Hc as (Hax & Hxa' & Hxb' & Hbx & HcB).
  assert (Hva : valid h a) by solve_valid.
  assert (Hvx : valid h x) by solve_valid.
  assert (Hvb : valid h b) by solve_valid.
  split.
  - unfold remove, unlink.
    mem_step. mem_step. rewrite Hxa'. mem_step. rewrite Hxb'.
    mem_step. mem_step. rewrite Hxb', Hxa'. mem_step. mem_step. mem_step.
    reflexivity.
  - apply chain_app. split.
    + eapply chain_frame; [ | | exact HcA].
      * intros y Hy. rewrite removelast_last in Hy.
        assert (a <> y) by (intros ->; contradiction).
        assert (x <> y) by (intros ->; contradiction).
        mem_simpl. reflexivity.
      * intros y Hy.
        assert (b <> y) by (intros ->; contradiction).
        assert (x <> y).
        { intros ->. apply elem_of_tail, elem_of_app in Hy as [Hy | Hy];
            [contradiction | ].
          apply list_elem_of_singleton in Hy. contradiction. }
        mem_simpl. reflexivity.
    + rewrite chain_cons2. split_and!.
      * mem_simpl. reflexivity.
      * mem_simpl. reflexivity.
      * eapply chain_frame; [ | | exact HcB].
        -- intros y Hy.
           assert (a <> y) by (intros ->; contradiction).
           assert (x <> y).
           { intros ->. apply elem_of_removelast, elem_of_cons in Hy
               as [Hy | Hy]; [contradiction | contradiction]. }
           mem_simpl. reflexivity.
        -- intros y Hy. simpl in Hy.
           assert (b <> y) by (intros ->; contradiction).
           assert (x <> y) by (intros ->; contradiction).
           mem_simpl. reflexivity.
Qed.

Lemma path_split (this : nat) (l1 l2 : list nat) :
  NoDup (this :: l1 ++ l2) ->
  exists A a b B,
    this :: l1 = A ++ [a] /\ l2 ++ [this] = b :: B /\
    (a ∉ A) /\ (b ∉ B) /\ (a ∉ removelast (b :: B)) /\
    (b ∉ tail (A ++ [a])) /\
    (forall e, e ∉ this :: l1 ++ l2 ->
               e <> a /\ e <> b /\ (e ∉ A) /\ (e ∉ B)).
Proof.
  intros Hnd.
  destruct (exists_last (l := this :: l1)) as (A & a & HA); [discriminate | ].
  assert (exists b B, l2 ++ [this] = b :: B) as (b & B & HB).
  { destruct l2 as [ | y l2]; simpl; eauto. }
  exists A, a, b, B.
  apply NoDup_cons in Hnd as [Hthis Hnd].
  apply NoDup_app in Hnd as (Hnd1 & Hdisj & Hnd2).
  assert (Ha : a ∈ this :: l1) by (rewrite HA; set_solver).
  assert (Hb : b ∈ l2 ++ [this]) by (rewrite HB; set_solver).
  assert (HndA : NoDup (A ++ [a])).
  { rewrite <- HA. apply NoDup_cons. split; [set_solver | exact Hnd1]. }
  assert (HndB : NoDup (b :: B)).
  { rewrite <- HB. apply NoDup_app. split_and!; [exact Hnd2 | | apply NoDup_singleton].
    intros y Hy Hy'. apply list_elem_of_singleton in Hy' as ->. set_solver. }
  split_and!; try done.
  - apply NoDup_app in HndA as (_ & Hd & _). intros HaA. apply (Hd a HaA). set_solver.
  - apply NoDup_cons in HndB as [Hd _]. exact Hd.
  - rewrite <- HB, removelast_last. set_solver.
  - rewrite <- HA. simpl. set_solver.
  - intros e He.
    assert (HAsub : forall y, y ∈ A -> y ∈ this :: l1).
    { intros y Hy. rewrite HA. set_solver. }
    assert (HBsub : forall y, y ∈ B -> y ∈ l2 ++ [this]).
    { intros y Hy. rewrite HB. set_solver. }
    split_and!.
    + intros ->. set_solver.
    + intros ->. set_solver.
    + intros HeA. apply HAsub in HeA. set_solver.
    + intros HeB. apply HBsub in HeB. set_solver.
Qed.

Lemma is_list_frame (h h' : memory) (this : nat) (l : list nat) :
  (forall y, y ∈ this :: l -> h' !! y = h !! y) ->
  is_list h this l -> is_list h' this l.
Proof.
  intros Hf [Hnd Hc]. split; [exact Hnd | ].
  eapply chain_frame; [ | | exact Hc].
  - intros a Ha. unfold next_of. rewrite Hf; [reflexivity | ].
    change (this :: l ++ [this]) with ((this :: l) ++ [this]) in Ha.
    rewrite removelast_last in Ha. exact Ha.
  - intros b Hb. unfold prev_of. rewrite Hf; [reflexivity | ].
    simpl in Hb. set_solver.
Qed.

Lemma is_list_valid (h : memory) (this : nat) (l : list nat) (a : nat) :
  is_list h this l -> a ∈ this :: l -> valid h a.
Proof.
  intros [_ Hc] Ha. eapply chain_valid; [exact Hc | | ].
  - simpl. rewrite length_app. simpl. lia.
  - set_solver.
Qed.

Lemma lookup_unlink (h : memory) (x : nat) :
  valid h x ->
  set_next x None (set_prev x None h) !! x
  = Some (IntrusiveNode.mk None None).
Proof.
  intros [n Hn]. unfold set_next, set_prev.
  rewrite !lookup_alter_eq, Hn. reflexivity.
Qed.

Lemma remove_middle (x : nat) (l1 l2 : list nat) :
  x ∉ l1 -> x ∉ l2 -> IntrusiveList.remove x (l1 ++ x :: l2) = l1 ++ l2.
Proof.
  intros H1 H2. unfold IntrusiveList.remove, IntrusiveList.t.
  rewrite filter_app, filter_cons_False by auto.
  rewrite !filter_ne_id by assumption. reflexivity.
Qed.

Lemma NoDup_middle (this x : nat) (l1 l2 : list nat) :
  NoDup (this :: l1 ++ x :: l2) ->
  NoDup (this :: l1 ++ l2) /\ x ∉ this :: l1 ++ l2.
Proof.
  intros Hnd. apply NoDup_cons in Hnd as [Hthis Hnd].
  apply NoDup_app in Hnd as (Hnd1 & Hdisj & Hnd2).
  apply NoDup_cons in Hnd2 as [Hx Hnd2]. split.
  - apply NoDup_cons. split; [set_solver | ].
    apply NoDup_app. split_and!; [exact Hnd1 | set_solver | exact Hnd2].
  - set_solver.
Qed.

Lemma path_eq (this : nat) (l1 l2 A B : list nat) (a b : nat) :
  this :: l1 = A ++ [a] -> l2 ++ [this] = b :: B ->
  this :: (l1 ++ l2) ++ [this] = A ++ a :: b :: B.
Proof.
  intros HA HB.
  change (this :: (l1 ++ l2) ++ [this]) with ((this :: l1 ++ l2) ++ [this]).
  rewrite (app_comm_cons l1), HA, <- !app_assoc. simpl.
  rewrite HB. reflexivity.
Qed.

Lemma path_eq_middle (this x : nat) (l1 l2 A B : list nat) (a b : nat) :
  this :: l1 = A ++ [a] -> l2 ++ [this] = b :: B ->
  this :: (l1 ++ x :: l2) ++ [this] = A ++ a :: x :: b :: B.
Proof.
  intros HA HB.
  change (this :: (l1 ++ x :: l2) ++ [this])
    with ((this :: l1 ++ x :: l2) ++ [this]).
  rewrite (app_comm_cons l1), HA, <- !app_assoc. simpl.
  rewrite HB. reflexivity.
Qed.

Lemma remove_list (h : memory) (this : nat) (l1 l2 : list nat) (x : nat) :
  is_list h this (l1 ++ x :: l2) ->
  exists h',
    remove (Some x) h = Some (tt, h') /\
    is_list h' this (l1 ++ l2) /\
    h' !! x = Some (IntrusiveNode.mk None None) /\
    (forall y, y ∉ this :: l1 ++ x :: l2 -> h' !! y = h !! y) /\
    next_of h x = Some (hd this l2) /\ valid h x.
Proof.
  intros [Hnd Hc].
  destruct (NoDup_middle _ _ _ _ Hnd) as [Hnd' Hx].
  destruct (path_split this l1 l2 Hnd')
    as (A & a & b & B & HA & HB & HaA & HbB & HaB & HbA & Hfresh).
  destruct (Hfresh x Hx) as (Hxa & Hxb & HxA & HxB).
  rewrite (path_eq_middle _ _ _ _ _ _ _ _ HA HB) in Hc.
  destruct (remove_chain h A B a x b Hc Hxa Hxb HxA HxB HaA HbB HaB HbA)
    as [Hrun Hc'].
  assert (Hvx : valid h x).
  { eapply chain_valid; [exact Hc | | ].
    - rewrite length_app. simpl. lia.
    - set_solver. }
  eexists. split; [exact Hrun | ]. split_and!.
  - split; [exact Hnd' | ].
    rewrite (path_eq _ _ _ _ _ _ _ HA HB). exact Hc'.
  - rewrite lookup_unlink by solve_valid. reflexivity.
  - intros y Hy.
    assert (Hya : a <> y).
    { intros ->. apply Hy. rewrite (app_comm_cons l1), HA. set_solver. }
    assert (Hyb : b <> y).
    { intros ->. apply Hy.
      assert (Hb : y ∈ l2 ++ [this]) by (rewrite HB; set_solver).
      set_solver. }
    assert (Hyx : x <> y) by (intros ->; set_solver).
    rewrite lookup_set_next_ne, lookup_set_prev_ne, lookup_set_prev_ne,
      lookup_set_next_ne by assumption.
    reflexivity.
  - apply chain_app in Hc as [_ Hc]. rewrite !chain_cons2 in Hc.
    destruct Hc as (_ & _ & Hxb' & _). rewrite Hxb'. f_equal.
    destruct l2; simpl in HB; injection HB as <- _; reflexivity.
  - exact Hvx.
Qed.

(** ** [insert_before] and [insert_after] *)

Lemma insert_before_chain (h : memory) (A B : list nat) (a pos e : nat) :
  chain h (A ++ a :: pos :: B) -> valid h e ->
  e <> a -> e <> pos -> e ∉ A -> e ∉ B ->
  a ∉ A -> pos ∉ B -> a ∉ removelast (pos :: B) -> pos ∉ tail (A ++ [a]) ->
  insert_before (Some pos) (Some e) h
  = Some (tt, set_prev pos (Some e) (set_next a (Some e)
                (set_prev e (Some a) (set_next e (Some pos) h)))) /\
  chain (set_prev pos (Some e) (set_next a (Some e)
           (set_prev e (Some a) (set_next e (Some pos) h))))
    (A ++ a :: e :: pos :: B).
Proof.
  intros Hc Hve Hea Hep HeA HeB HaA HpB HaB HpA.
  apply chain_app in Hc as [HcA Hc].
  rewrite chain_cons2 in Hc. destruct Hc as (Hap & Hpa & HcB).
  assert (Hva : valid h a) by solve_valid.
  assert (Hvp : valid h pos) by solve_valid.
  split.
  - unfold insert_before.
    mem_step. mem_step. rewrite Hpa. mem_step. mem_step. rewrite Hpa.
    mem_step. mem_step. reflexivity.
  - apply chain_app. split.
    + eapply chain_frame; [ | | exact HcA].
      * intros y Hy. rewrite removelast_last in Hy.
        assert (a <> y) by (intros ->; contradiction).
        assert (e <> y) by (intros ->; contradiction).
        mem_simpl. reflexivity.
      * intros y Hy.
        assert (pos <> y) by (intros ->; contradiction).
        assert (e <> y).
        { intros ->. apply elem_of_tail, elem_of_app in Hy as [Hy | Hy];
            [contradiction | ].
          apply list_elem_of_singleton in Hy. contradiction. }
        mem_simpl. reflexivity.
    + rewrite !chain_cons2. split_and!.
      * mem_simpl. reflexivity.
      * mem_simpl. reflexivity.
      * mem_simpl. reflexivity.
      * mem_simpl. reflexivity.
      * eapply chain_frame; [ | | exact HcB].
        -- intros y Hy.
           assert (a <> y) by (intros ->; contradiction).
           assert (e <> y).
           { intros ->. apply elem_of_removelast, elem_of_cons in Hy
               as [Hy | Hy]; contradiction. }
           mem_simpl. reflexivity.
        -- intros y Hy. simpl in Hy.
           assert (pos <> y) by (intros ->; contradiction).
           assert (e <> y) by (intros ->; contradiction).
           mem_simpl. reflexivity.
Qed.

Lemma insert_after_chain (h : memory) (A B : list nat) (pos b e : nat) :
  chain h (A ++ pos :: b :: B) -> valid h e ->
  e <> pos -> e <> b -> e ∉ A -> e ∉ B ->
  pos ∉ A -> b ∉ B -> pos ∉ removelast (b :: B) -> b ∉ tail (A ++ [pos]) ->
  insert_after (Some pos) (Some e) h
  = Some (tt, set_next pos (Some e) (set_prev b (Some e)
                (set_next e (Some b) (set_prev e (Some pos) h)))) /\
  chain (set_next pos (Some e) (set_prev b (Some e)
           (set_next e (Some b) (set_prev e (Some pos) h))))
    (A ++ pos :: e :: b :: B).
Proof.
  intros Hc Hve Hep Heb HeA HeB HpA HbB HpB HbA.
  apply chain_app in Hc as [HcA Hc].
  rewrite chain_cons2 in Hc. destruct Hc as (Hpb & Hbp & HcB).
  assert (Hvp : valid h pos) by solve_valid.
  assert (Hvb : valid h b) by solve_valid.
  split.
  - unfold insert_after.
    mem_step. mem_step. rewrite Hpb. mem_step. mem_step. rewrite Hpb.
    mem_step. mem_step. reflexivity.
  - apply chain_app. split.
    + eapply chain_frame; [ | | exact HcA].
      * intros y Hy. rewrite removelast_last in Hy.
        assert (pos <> y) by (intros ->; contradiction).
        assert (e <> y) by (intros ->; contradiction).
        mem_simpl. reflexivity.
      * intros y Hy.
        assert (b <> y) by (intros ->; contradiction).
        assert (e <> y).
        { intros ->. apply elem_of_tail, elem_of_app in Hy as [Hy | Hy];
            [contradiction | ].
          apply list_elem_of_singleton in Hy. contradiction. }
        mem_simpl. reflexivity.
    + rewrite !chain_cons2. split_and!.
      * mem_simpl. reflexivity.
      * mem_simpl. reflexivity.
      * mem_simpl. reflexivity.
      * mem_simpl. reflexivity.
      * eapply chain_frame; [ | | exact HcB].
        -- intros y Hy.
           assert (pos <> y) by (intros ->; contradiction).
           assert (e <> y).
           { intros ->. apply elem_of_removelast, elem_of_cons in Hy
               as [Hy | Hy]; contradiction. }
           mem_simpl. reflexivity.
        -- intros y Hy. simpl in Hy.
           assert (b <> y) by (intros ->; contradiction).
           assert (e <> y) by (intros ->; contradiction).
           mem_simpl. reflexivity.
Qed.

Lemma NoDup_insert_middle (this e : nat) (l1 l2 : list nat) :
  NoDup (this :: l1 ++ l2) -> e ∉ this :: l1 ++ l2 ->
  NoDup (this :: l1 ++ e :: l2).
Proof.
  intros Hnd He. apply NoDup_cons in Hnd as [Hthis Hnd].
  apply NoDup_app in Hnd as (Hnd1 & Hdisj & Hnd2).
  apply NoDup_cons. split; [set_solver | ].
  apply NoDup_app. split_and!; [exact Hnd1 | set_solver | ].
  apply NoDup_cons. split; [set_solver | exact Hnd2].
Qed.

Lemma hd_of_path (this b : nat) (l2 B : list nat) :
  l2 ++ [this] = b :: B -> hd this l2 = b.
Proof. destruct l2; simpl; intros H; injection H as -> _; reflexivity. Qed.

Lemma last_of_path (this a : nat) (l1 A : list nat) :
  this :: l1 = A ++ [a] -> default this (last l1) = a.
Proof.
  destruct l1 as [ | z l1 _] using rev_ind; intros H.
  - destruct A as [ | ? [ | ? ?]]; simpl in H; try discriminate.
    injection H as ->. reflexivity.
  - rewrite last_snoc. simpl. rewrite app_comm_cons in H.
    apply app_inj_tail in H as [_ ->]. reflexivity.
Qed.

Lemma insert_before_list (h : memory) (this : nat) (l1 l2 : list nat)
    (e : nat) :
  is_list h this (l1 ++ l2) -> valid h e -> e ∉ this :: l1 ++ l2 ->
  exists h',
    insert_before (Some (hd this l2)) (Some e) h = Some (tt, h') /\
    is_list h' this (l1 ++ e :: l2) /\
    (forall y, y ∉ this :: e :: l1 ++ l2 -> h' !! y = h !! y).
Proof.
  intros [Hnd Hc] Hve He.
  destruct (path_split this l1 l2 Hnd)
    as (A & a & b & B & HA & HB & HaA & HbB & HaB & HbA & Hfresh).
  destruct (Hfresh e He) as (Hea & Heb & HeA & HeB).
  rewrite (path_eq _ _ _ _ _ _ _ HA HB) in Hc.
  rewrite (hd_of_path _ _ _ _ HB).
  destruct (insert_before_chain h A B a b e Hc Hve Hea Heb HeA HeB
              HaA HbB HaB HbA) as [Hrun Hc'].
  eexists. split; [exact Hrun | ]. split.
  - split; [apply NoDup_insert_middle; assumption | ].
    rewrite (path_eq_middle _ _ _ _ _ _ _ _ HA HB). exact Hc'.
  - intros y Hy.
    assert (Hya : a <> y).
    { intros ->. apply Hy.
      assert (Ha : y ∈ this :: l1) by (rewrite HA; set_solver).
      set_solver. }
    assert (Hyb : b <> y).
    { intros ->. apply Hy.
      assert (Hb : y ∈ l2 ++ [this]) by (rewrite HB; set_solver).
      set_solver. }
    assert (Hye : e <> y) by (intros ->; set_solver).
    rewrite lookup_set_prev_ne, lookup_set_next_ne, lookup_set_prev_ne,
      lookup_set_next_ne by assumption.
    reflexivity.
Qed.

Lemma insert_after_list (h : memory) (this : nat) (l1 l2 : list nat)
    (e : nat) :
  is_list h this (l1 ++ l2) -> valid h e -> e ∉ this :: l1 ++ l2 ->
  exists h',
    insert_after (Some (default this (last l1))) (Some e) h
    = Some (tt, h') /\
    is_list h' this (l1 ++ e :: l2) /\
    (forall y, y ∉ this :: e :: l1 ++ l2 -> h' !! y = h !! y).
Proof.
  intros [Hnd Hc] Hve He.
  destruct (path_split this l1 l2 Hnd)
    as (A & a & b & B & HA & HB & HaA & HbB & HaB & HbA & Hfresh).
  destruct (Hfresh e He) as (Hea & Heb & HeA & HeB).
  rewrite (path_eq _ _ _ _ _ _ _ HA HB) in Hc.
  rewrite (last_of_path _ _ _ _ HA).
  destruct (insert_after_chain h A B a b e Hc Hve Hea Heb HeA HeB
              HaA HbB HaB HbA) as [Hrun Hc'].
  eexists. split; [exact Hrun | ]. split.
  - split; [apply NoDup_insert_middle; assumption | ].
    rewrite (path_eq_middle _ _ _ _ _ _ _ _ HA HB). exact Hc'.
  - intros y Hy.
    assert (Hya : a <> y).
    { intros ->. apply Hy.
      assert (Ha : y ∈ this :: l1) by (rewrite HA; set_solver).
      set_solver. }
    assert (Hyb : b <> y).
    { intros ->. apply Hy.
      assert (Hb : y ∈ l2 ++ [this]) by (rewrite HB; set_solver).
      set_solver. }
    assert (Hye : e <> y) by (intros ->; set_solver).
    rewrite lookup_set_next_ne, lookup_set_prev_ne, lookup_set_next_ne,
      lookup_set_prev_ne by assumption.
    reflexivity.
Qed.

(** ** Observers *)

Lemma is_list_next_head (h : memory) (this : nat) (l : list nat) :
  is_list h this l -> next_of h this = Some (hd this l).
Proof.
  intros [_ Hc]. destruct l as [ | x l]; simpl in Hc; tauto.
Qed.

Lemma is_list_prev_last (h : memory) (this : nat) (l : list nat) :
  is_list h this l -> prev_of h this = Some (default this (last l)).
Proof.
  intros [_ Hc]. destruct l as [ | z l _] using rev_ind.
  - simpl in Hc. tauto.
  - rewrite last_snoc. simpl.
    replace (this :: (l ++ [z]) ++ [this])
      with ((this :: l) ++ z :: [this]) in Hc
      by (simpl; rewrite <- app_assoc; reflexivity).
    apply chain_app in Hc as [_ Hc]. simpl in Hc. tauto.
Qed.

Lemma chain_tail (h : memory) (a : nat) (p : list nat) :
  chain h (a :: p) -> chain h p.
Proof. destruct p as [ | b p]; [auto | ]. rewrite chain_cons2. tauto. Qed.

Lemma empty_list (h : memory) (this : nat) (l : list nat) :
  is_list h this l -> empty this h = Some (IntrusiveList.empty l, h).
Proof.
  intros Hl. unfold empty.
  rewrite bind_load_next by (eapply is_list_valid; [exact Hl | left]).
  rewrite (is_list_next_head _ _ _ Hl). unfold ret. do 2 f_equal.
  destruct Hl as [Hnd _]. destruct l as [ | x l]; simpl.
  - apply bool_decide_true. reflexivity.
  - apply bool_decide_false. intros [= ->].
    apply NoDup_cons in Hnd as [Hn _]. apply Hn. left.
Qed.

Lemma size_loop_spec (h : memory) (this : nat) (suf : list nat) :
  forall (fuel : nat) (count : Z),
  this ∉ suf -> chain h (suf ++ [this]) -> Forall (valid h) suf ->
  (length suf < fuel)%nat -> 0 <= count ->
  count + Z.of_nat (length suf) < 2 ^ 64 ->
  size_loop fuel this (Some (hd this suf)) count h
  = Some (count + Z.of_nat (length suf), h).
Proof.
  induction suf as [ | x suf IH]; intros fuel count Hthis Hc Hv Hf H0 Hb.
  - destruct fuel as [ | fuel]; [simpl in Hf; lia | ]. simpl.
    rewrite bool_decide_false by (intros H; apply H; reflexivity).
    unfold ret. rewrite Z.add_0_r. reflexivity.
  - destruct fuel as [ | fuel]; [simpl in Hf; lia | ].
    apply not_elem_of_cons in Hthis as [Hne Hthis].
    apply Forall_cons in Hv as [Hvx Hv].
    cbn [size_loop hd].
    rewrite bool_decide_true by congruence.
    unfold iterator_incr. rewrite bind_load_next by exact Hvx.
    assert (Hnext : next_of h x = Some (hd this suf)).
    { destruct suf as [ | y suf]; simpl in Hc; tauto. }
    rewrite Hnext.
    assert (Hw : wrap64 (count + 1) = count + 1).
    { apply wrap64_small. rewrite length_cons in Hb. lia. }
    rewrite Hw. rewrite IH.
    + do 2 f_equal. rewrite length_cons. lia.
    + exact Hthis.
    + apply chain_tail in Hc. exact Hc.
    + exact Hv.
    + simpl in Hf. lia.
    + lia.
    + rewrite length_cons in Hb. lia.
Qed.

Lemma clear_list (this : nat) (l : list nat) :
  forall (h : memory) (fuel : nat),
  is_list h this l -> (length l < fuel)%nat ->
  exists h',
    clear fuel this h = Some (tt, h') /\
    is_list h' this [] /\
    (forall x, x ∈ l -> h' !! x = Some (IntrusiveNode.mk None None)) /\
    (forall y, y ∉ this :: l -> h' !! y = h !! y).
Proof.
  induction l as [ | x l IH]; intros h fuel Hl Hf.
  - destruct fuel as [ | fuel]; [simpl in Hf; lia | ].
    exists h. cbn [clear].
    rewrite (bind_Some _ _ _ _ _ (empty_list _ _ _ Hl)). simpl.
    split_and!; [reflexivity | exact Hl | | reflexivity].
    intros y Hy. apply elem_of_nil in Hy. contradiction.
  - destruct fuel as [ | fuel]; [simpl in Hf; lia | ].
    cbn [clear].
    rewrite (bind_Some _ _ _ _ _ (empty_list _ _ _ Hl)).
    cbn [IntrusiveList.empty negb].
    pose proof (is_list_next_head _ _ _ Hl) as Hhead. simpl in Hhead.
    destruct (remove_list h this [] l x Hl)
      as (h1 & Hrun & Hl1 & Hx & Hframe & _ & _).
    simpl in Hl1.
    destruct (IH h1 fuel Hl1) as (h' & Hrun' & Hl' & Hun & Hframe').
    { simpl in Hf. lia. }
    exists h'.
    assert (Hxl : x ∉ this :: l).
    { destruct Hl as [Hnd _]. apply NoDup_cons in Hnd as [Hn Hnd].
      apply NoDup_cons in Hnd as [Hx' _]. set_solver. }
    assert (Hpop : pop_front this h = Some (tt, h1)).
    { unfold pop_front.
      rewrite bind_load_next by (eapply is_list_valid; [exact Hl | left]).
      rewrite Hhead. exact Hrun. }
    split_and!.
    + rewrite (bind_Some _ _ _ _ _ Hpop). exact Hrun'.
    + exact Hl'.
    + intros y Hy. apply elem_of_cons in Hy as [-> | Hy].
      * rewrite Hframe' by exact Hxl. exact Hx.
      * apply Hun, Hy.
    + intros y Hy. rewrite Hframe' by set_solver. apply Hframe. exact Hy.
Qed.

(** ** [splice_all] *)

Lemma splice_list (h : memory) (this other : nat) (l1 l2 : list nat) :
  is_list h this l1 -> is_list h other l2 ->
  (forall y, y ∈ this :: l1 -> y ∉ other :: l2) ->
  exists h',
    splice_all this other h = Some (tt, h') /\
    is_list h' this (l1 ++ l2) /\
    is_list h' other [] /\
    (forall y, y ∉ this :: l1 -> y ∉ other :: l2 -> h' !! y = h !! y).
Proof.
  intros Hthis Hother Hdisj. unfold splice_all.
  rewrite (bind_Some _ _ _ _ _ (empty_list _ _ _ Hother)).
  destruct l2 as [ | f l2'].
  { exists h. cbn [IntrusiveList.empty]. rewrite app_nil_r.
    split_and!; [reflexivity | exact Hthis | exact Hother | reflexivity]. }
  cbn [IntrusiveList.empty].
  pose proof (is_list_next_head _ _ _ Hother) as Hof. simpl in Hof.
  pose proof (is_list_prev_last _ _ _ Hthis) as Htl.
  pose proof (is_list_prev_last _ _ _ Hother) as Hol.
  destruct (exists_last (l := this :: l1)) as (A & t & HA); [discriminate | ].
  destruct (exists_last (l := f :: l2')) as (L & lst & HL); [discriminate | ].
  rewrite (last_of_path _ _ _ _ HA) in Htl.
  assert (Hlast : default other (last (f :: l2')) = lst).
  { rewrite HL, last_snoc. reflexivity. }
  rewrite Hlast in Hol.
  assert (Hvthis : valid h this) by (eapply is_list_valid; [exact Hthis | left]).
  assert (Hvother : valid h other)
    by (eapply is_list_valid; [exact Hother | left]).
  assert (Hvf : valid h f).
  { eapply is_list_valid; [exact Hother | right; left]. }
  assert (Hlst_in : lst ∈ f :: l2') by (rewrite HL; set_solver).
  assert (Ht_in : t ∈ this :: l1) by (rewrite HA; set_solver).
  assert (Hvt : valid h t) by (eapply is_list_valid; [exact Hthis | exact Ht_in]).
  assert (Hvl : valid h lst).
  { eapply is_list_valid; [exact Hother | right; exact Hlst_in]. }
  destruct Hthis as [Hnd1 Hc1]. destruct Hother as [Hnd2 Hc2].
  assert (Hto : this <> other) by (intros ->; eapply Hdisj; left).
  assert (Hfo : f <> other).
  { apply NoDup_cons in Hnd2 as [Hn _]. intros ->. apply Hn. left. }
  assert (Hft : f <> this).
  { intros ->. eapply (Hdisj this); [left | right; left]. }
  assert (Hlo : lst <> other).
  { apply NoDup_cons in Hnd2 as [Hn _]. intros ->. apply Hn. exact Hlst_in. }
  assert (Hlt : lst <> this).
  { intros ->. eapply (Hdisj this); [left | right; exact Hlst_in]. }
  assert (Htt : t <> other).
  { intros ->. eapply (Hdisj other); [exact Ht_in | left]. }
  assert (Htl' : t <> lst).
  { intros ->. eapply (Hdisj lst); [exact Ht_in | right; exact Hlst_in]. }
  assert (Htf : t <> f).
  { intros ->. eapply (Hdisj f); [exact Ht_in | right; left]. }
  eexists. split_and!.
  - mem_step. rewrite Hof. mem_step. rewrite Htl. mem_step.
    mem_step. rewrite Htl. mem_step. rewrite Hof. mem_step.
    mem_step. rewrite Hol. mem_step. mem_step. rewrite Hol.
    mem_step. mem_step. mem_step. reflexivity.
  - split.
    + apply NoDup_cons in Hnd1 as [Hn1 Hnd1].
      apply NoDup_cons in Hnd2 as [Hn2 Hnd2].
      apply NoDup_cons. split.
      * intros Hin. apply elem_of_app in Hin as [Hin | Hin]; [contradiction | ].
        eapply (Hdisj this); [left | right; exact Hin].
      * apply NoDup_app. split_and!; [exact Hnd1 | | exact Hnd2].
        intros y Hy Hy'. eapply (Hdisj y); [right; exact Hy | right; exact Hy'].
    + replace (this :: (l1 ++ f :: l2') ++ [this])
        with (A ++ t :: f :: l2' ++ [this]).
      2:{ change (this :: (l1 ++ f :: l2') ++ [this])
            with ((this :: l1 ++ f :: l2') ++ [this]).
          rewrite (app_comm_cons l1), HA, <- !app_assoc. reflexivity. }
      assert (HcA : chain h (A ++ [t])).
      { change (this :: l1 ++ [this]) with ((this :: l1) ++ [this]) in Hc1.
        rewrite HA, <- app_assoc in Hc1. simpl in Hc1.
        apply chain_app in Hc1 as [Hc1 _]. exact Hc1. }
      assert (HcL : chain h (L ++ [lst])).
      { apply chain_tail in Hc2.
        change (f :: l2' ++ [other]) with ((f :: l2') ++ [other]) in Hc2.
        rewrite HL, <- app_assoc in Hc2. simpl in Hc2.
        apply chain_app in Hc2 as [Hc2 _]. exact Hc2. }
      assert (HndA : NoDup (A ++ [t])) by (rewrite <- HA; exact Hnd1).
      assert (HndL : NoDup (L ++ [lst])).
      { rewrite <- HL. apply NoDup_cons in Hnd2 as [_ Hnd2]. exact Hnd2. }
      apply chain_app. split.
      * eapply chain_frame; [ | | exact HcA].
        -- intros y Hy. rewrite removelast_last in Hy.
           assert (Hy1 : y ∈ this :: l1) by (rewrite HA; set_solver).
           assert (other <> y) by (intros ->; eapply Hdisj; [exact Hy1 | left]).
           assert (lst <> y).
           { intros ->. eapply Hdisj; [exact Hy1 | right; exact Hlst_in]. }
           assert (t <> y).
           { intros ->. apply NoDup_app in HndA as (_ & Hd & _).
             apply (Hd y Hy). left. }
           mem_simpl. reflexivity.
        -- intros y Hy. rewrite <- HA in Hy. simpl in Hy.
           assert (Hy1 : y ∈ this :: l1) by (right; exact Hy).
           assert (other <> y) by (intros ->; eapply Hdisj; [exact Hy1 | left]).
           assert (this <> y).
           { intros ->. apply NoDup_cons in Hnd1 as [Hn _]. contradiction. }
           assert (f <> y).
           { intros ->. eapply Hdisj; [exact Hy1 | right; left]. }
           mem_simpl. reflexivity.
      * rewrite chain_cons2. split_and!.
        -- mem_simpl. reflexivity.
        -- mem_simpl. reflexivity.
        -- change (f :: l2' ++ [this]) with ((f :: l2') ++ [this]).
           rewrite HL, <- app_assoc. simpl. apply chain_app. split.
           ++ eapply chain_frame; [ | | exact HcL].
              ** intros y Hy. rewrite removelast_last in Hy.
                 assert (Hy2 : y ∈ f :: l2') by (rewrite HL; set_solver).
                 assert (other <> y).
                 { intros ->. apply NoDup_cons in Hnd2 as [Hn _].
                   contradiction. }
                 assert (lst <> y).
                 { intros ->. apply NoDup_app in HndL as (_ & Hd & _).
                   apply (Hd y Hy). left. }
                 assert (t <> y).
                 { intros ->. eapply Hdisj; [exact Ht_in | right; exact Hy2]. }
                 mem_simpl. reflexivity.
              ** intros y Hy. rewrite <- HL in Hy. simpl in Hy.
                 assert (other <> y).
                 { intros ->. apply NoDup_cons in Hnd2 as [Hn _].
                   apply Hn. right. exact Hy. }
                 assert (this <> y).
                 { intros <-. eapply (Hdisj this); [left | right; right; exact Hy]. }
                 assert (f <> y).
                 { intros ->. apply NoDup_cons in Hnd2 as [_ Hnd2].
                   apply NoDup_cons in Hnd2 as [Hn _]. contradiction. }
                 mem_simpl. reflexivity.
           ++ simpl. split_and!; [ | | exact I].
              ** mem_simpl. reflexivity.
              ** mem_simpl. reflexivity.
  - split; [apply NoDup_singleton | ]. simpl. split_and!; [ | | exact I].
    + mem_simpl. reflexivity.
    + mem_simpl. reflexivity.
  - intros y Hy1 Hy2.
    assert (other <> y) by (intros ->; apply Hy2; left).
    assert (this <> y) by (intros ->; apply Hy1; left).
    assert (lst <> y) by (intros ->; apply Hy2; right; exact Hlst_in).
    assert (t <> y) by (intros ->; apply Hy1; exact Ht_in).
    assert (f <> y) by (intros ->; apply Hy2; right; left).
    rewrite lookup_set_prev_ne, lookup_set_next_ne, lookup_set_prev_ne,
      lookup_set_next_ne, lookup_set_next_ne, lookup_set_prev_ne
      by assumption.
    reflexivity.
Qed.

(** * The linked list: what each operation does to the sequence *)

Lemma sample_memory_list : is_list sample_memory 0 [1; 2]%nat.
Proof.
  split; [apply (bool_decide_unpack _); vm_compute; exact I | ].
  vm_compute. tauto.
Defined.

Lemma sample_memory_other : is_list sample_memory 4 [5%nat].
Proof.
  split; [apply (bool_decide_unpack _); vm_compute; exact I | ].
  vm_compute. tauto.
Defined.

Lemma sample_memory_empty : is_list sample_memory 6 [].
Proof.
  split; [apply NoDup_singleton | ]. vm_compute. tauto.
Defined.

Lemma sample_memory_valid : valid sample_memory 3.
Proof. vm_compute. eauto. Defined.

(** X1.  [remove(elem)] on a list that holds [elem] succeeds, takes
    exactly [elem] out of the sequence and keeps the others in their
    order; afterwards [elem] reports that it is not linked, and no node
    outside the list has been written. *)
Theorem remove_unlinks_element (h : memory) (this : nat) (l : list nat)
    (elem : nat) :
  is_list h this l -> elem ∈ l ->
  exists h',
    remove (Some elem) h = Some (tt, h') /\
    is_list h' this (IntrusiveList.remove elem l) /\
    is_linked (Some elem) h' = Some (false, h') /\
    (forall y, y ∉ this :: l -> h' !! y = h !! y).
Proof.
  intros Hl He. pose proof Hl as [Hnd _].
  apply list_elem_of_split in He as (l1 & l2 & ->).
  destruct (NoDup_middle _ _ _ _ Hnd) as [_ Hx].
  destruct (remove_list h this l1 l2 elem Hl)
    as (h' & Hrun & Hl' & Hun & Hframe & _).
  exists h'. split_and!; [exact Hrun | | | exact Hframe].
  - rewrite remove_middle by set_solver. exact Hl'.
  - unfold is_linked. rewrite Hun. reflexivity.
Qed.

Lemma remove_unlinks_element_witness :
  is_list sample_memory 0 [1; 2]%nat /\ 2%nat ∈ [1; 2]%nat /\
  exists h',
    remove (Some 2%nat) sample_memory = Some (tt, h') /\
    is_list h' 0 (IntrusiveList.remove 2%nat [1; 2]%nat) /\
    is_linked (Some 2%nat) h' = Some (false, h') /\
    (forall y, y ∉ [0; 1; 2]%nat -> h' !! y = sample_memory !! y).
Proof.
  assert (H : 2%nat ∈ [1; 2]%nat) by (apply (bool_decide_unpack _); vm_compute; exact I).
  split; [exact sample_memory_list | ]. split; [exact H | ].
  exact (remove_unlinks_element sample_memory 0 [1; 2]%nat 2
           sample_memory_list H).
Defined.

(** X2.  [push_back(elem)] of a node that is not in the list appends it:
    the list then holds the former sequence followed by [elem], and no
    node outside the list and [elem] has been written. *)
Theorem push_back_appends (h : memory) (this : nat) (l : list nat)
    (elem : nat) :
  is_list h this l -> valid h elem -> elem ∉ this :: l ->
  exists h',
    push_back this (Some elem) h = Some (tt, h') /\
    is_list h' this (IntrusiveList.push_back elem l) /\
    (forall y, y ∉ this :: elem :: l -> h' !! y = h !! y).
Proof.
  intros Hl Hv He.
  destruct (insert_before_list h this l [] elem) as (h' & Hrun & Hl' & Hf).
  - rewrite app_nil_r. exact Hl.
  - exact Hv.
  - rewrite app_nil_r. exact He.
  - exists h'. split_and!; [exact Hrun | exact Hl' | ].
    intros y Hy. apply Hf. rewrite app_nil_r. exact Hy.
Qed.

Lemma push_back_appends_witness :
  is_list sample_memory 0 [1; 2]%nat /\ valid sample_memory 3 /\
  (3%nat ∉ [0; 1; 2]%nat) /\
  exists h',
    push_back 0 (Some 3%nat) sample_memory = Some (tt, h') /\
    is_list h' 0 (IntrusiveList.push_back 3%nat [1; 2]%nat) /\
    (forall y, y ∉ [0; 3; 1; 2]%nat -> h' !! y = sample_memory !! y).
Proof.
  assert (H : 3%nat ∉ [0; 1; 2]%nat)
    by (apply (bool_decide_unpack _); vm_compute; exact I).
  split; [exact sample_memory_list | ]. split; [exact sample_memory_valid | ].
  split; [exact H | ].
  exact (push_back_appends sample_memory 0 [1; 2]%nat 3
           sample_memory_list sample_memory_valid H).
Defined.

(** X3.  [push_front(elem)] of a node that is not in the list puts it
    first, before the former sequence. *)
Theorem push_front_prepends (h : memory) (this : nat) (l : list nat)
    (elem : nat) :
  is_list h this l -> valid h elem -> elem ∉ this :: l ->
  exists h',
    push_front this (Some elem) h = Some (tt, h') /\
    is_list h' this (elem :: l) /\
    (forall y, y ∉ this :: elem :: l -> h' !! y = h !! y).
Proof.
  intros Hl Hv He.
  destruct (insert_after_list h this [] l elem Hl Hv He)
    as (h' & Hrun & Hl' & Hf).
  exists h'. split_and!; [exact Hrun | exact Hl' | exact Hf].
Qed.

Lemma push_front_prepends_witness :
  is_list sample_memory 0 [1; 2]%nat /\ valid sample_memory 3 /\
  (3%nat ∉ [0; 1; 2]%nat) /\
  exists h',
    push_front 0 (Some 3%nat) sample_memory = Some (tt, h') /\
    is_list h' 0 [3; 1; 2]%nat /\
    (forall y, y ∉ [0; 3; 1; 2]%nat -> h' !! y = sample_memory !! y).
Proof.
  assert (H : 3%nat ∉ [0; 1; 2]%nat)
    by (apply (bool_decide_unpack _); vm_compute; exact I).
  split; [exact sample_memory_list | ]. split; [exact sample_memory_valid | ].
  split; [exact H | ].
  exact (push_front_prepends sample_memory 0 [1; 2]%nat 3
           sample_memory_list sample_memory_valid H).
Defined.

(** X6.  On a list that is not empty, [pop_front] takes out the first
    node and [pop_back] the last one; the other nodes keep their
    order. *)
Theorem pop_takes_an_end (h : memory) (this : nat) (l : list nat) :
  is_list h this l -> l <> [] ->
  (exists h',
     pop_front this h = Some (tt, h') /\
     is_list h' this (IntrusiveList.pop_front l) /\
     is_linked (Some (hd this l)) h' = Some (false, h')) /\
  (exists h',
     pop_back this h = Some (tt, h') /\
     is_list h' this (removelast l) /\
     is_linked (Some (default this (last l))) h' = Some (false, h')).
Proof.
  intros Hl Hne.
  assert (Hvt : valid h this) by (eapply is_list_valid; [exact Hl | left]).
  split.
  - destruct l as [ | x l]; [contradiction | ].
    destruct (remove_list h this [] l x Hl)
      as (h' & Hrun & Hl' & Hun & _).
    exists h'. split_and!.
    + unfold pop_front. rewrite bind_load_next by exact Hvt.
      rewrite (is_list_next_head _ _ _ Hl). exact Hrun.
    + exact Hl'.
    + unfold is_linked. simpl. rewrite Hun. reflexivity.
  - destruct l as [ | z l _] using rev_ind; [contradiction | ].
    destruct (remove_list h this l [] z Hl)
      as (h' & Hrun & Hl' & Hun & _).
    exists h'. rewrite removelast_last, last_snoc. split_and!.
    + unfold pop_back. rewrite bind_load_prev by exact Hvt.
      rewrite (is_list_prev_last _ _ _ Hl), last_snoc. exact Hrun.
    + rewrite app_nil_r in Hl'. exact Hl'.
    + unfold is_linked. simpl. rewrite Hun. reflexivity.
Qed.

Lemma pop_takes_an_end_witness :
  is_list sample_memory 0 [1; 2]%nat /\ [1; 2]%nat <> [] /\
  (exists h',
     pop_front 0 sample_memory = Some (tt, h') /\
     is_list h' 0 (IntrusiveList.pop_front [1; 2]%nat) /\
     is_linked (Some (hd 0%nat [1; 2]%nat)) h' = Some (false, h')) /\
  (exists h',
     pop_back 0 sample_memory = Some (tt, h') /\
     is_list h' 0 (removelast [1; 2]%nat) /\
     is_linked (Some (default 0%nat (last [1; 2]%nat))) h'
     = Some (false, h')).
Proof.
  assert (H : [1; 2]%nat <> []) by discriminate.
  split; [exact sample_memory_list | ]. split; [exact H | ].
  exact (pop_takes_an_end sample_memory 0 [1; 2]%nat sample_memory_list H).
Defined.

(** X7.  What the observers return on a list that holds [l]: [empty]
    tells whether [l] is empty, [front] is the first node and [back]
    the last one (on an empty list both are the sentinel itself), and
    none of them writes. *)
Theorem observers_read_the_sequence (h : memory) (this : nat)
    (l : list nat) :
  is_list h this l ->
  empty this h = Some (IntrusiveList.empty l, h) /\
  front this h = Some (Some (hd this l), h) /\
  back this h = Some (Some (default this (last l)), h).
Proof.
  intros Hl.
  assert (Hvt : valid h this) by (eapply is_list_valid; [exact Hl | left]).
  split_and!.
  - apply empty_list, Hl.
  - unfold front. rewrite load_next_valid by exact Hvt.
    rewrite (is_list_next_head _ _ _ Hl). reflexivity.
  - unfold back. rewrite load_prev_valid by exact Hvt.
    rewrite (is_list_prev_last _ _ _ Hl). reflexivity.
Qed.

Lemma observers_read_the_sequence_witness :
  is_list sample_memory 0 [1; 2]%nat /\
  empty 0 sample_memory = Some (IntrusiveList.empty [1; 2]%nat, sample_memory)
  /\
  front 0 sample_memory = Some (Some (hd 0%nat [1; 2]%nat), sample_memory) /\
  back 0 sample_memory
  = Some (Some (default 0%nat (last [1; 2]%nat)), sample_memory).
Proof.
  split; [exact sample_memory_list | ].
  exact (observers_read_the_sequence sample_memory 0 [1; 2]%nat
           sample_memory_list).
Defined.

(** X8.  [size] returns the number of nodes of the list: with more
    iterations allowed than the list has nodes, the loop ends at
    [end()] having counted each node once, and it writes nothing. *)
Theorem size_counts_nodes (h : memory) (this : nat) (l : list nat)
    (fuel : nat) :
  is_list h this l -> (length l < fuel)%nat ->
  Z.of_nat (length l) < 2 ^ 64 ->
  size fuel this h = Some (Z.of_nat (length l), h).
Proof.
  intros Hl Hf Hb. pose proof Hl as [Hnd Hc].
  unfold size, begin.
  rewrite bind_load_next by (eapply is_list_valid; [exact Hl | left]).
  rewrite (is_list_next_head _ _ _ Hl).
  rewrite size_loop_spec.
  - reflexivity.
  - apply NoDup_cons in Hnd as [Hn _]. exact Hn.
  - apply chain_tail in Hc. exact Hc.
  - apply Forall_forall. intros x Hx.
    eapply is_list_valid; [exact Hl | right; exact Hx].
  - exact Hf.
  - lia.
  - lia.
Qed.

Lemma size_counts_nodes_witness :
  is_list sample_memory 0 [1; 2]%nat /\
  (length [1; 2]%nat < 3)%nat /\
  Z.of_nat (length [1; 2]%nat) < 2 ^ 64 /\
  size 3 0 sample_memory = Some (Z.of_nat (length [1; 2]%nat), sample_memory).
Proof.
  assert (H1 : (length [1; 2]%nat < 3)%nat) by (simpl; lia).
  assert (H2 : Z.of_nat (length [1; 2]%nat) < 2 ^ 64) by (simpl; lia).
  split; [exact sample_memory_list | ]. split; [exact H1 | ].
  split; [exact H2 | ].
  exact (size_counts_nodes sample_memory 0 [1; 2]%nat 3
           sample_memory_list H1 H2).
Defined.

(** X9.  [clear] empties the list: with more iterations allowed than the
    list has nodes it ends, the list is then empty, every node it held
    is unlinked, and no node outside the list has been written. *)
Theorem clear_unlinks_every_node (h : memory) (this : nat) (l : list nat)
    (fuel : nat) :
  is_list h this l -> (length l < fuel)%nat ->
  exists h',
    clear fuel this h = Some (tt, h') /\
    is_list h' this [] /\
    (forall x, x ∈ l -> is_linked (Some x) h' = Some (false, h')) /\
    (forall y, y ∉ this :: l -> h' !! y = h !! y).
Proof.
  intros Hl Hf.
  destruct (clear_list this l h fuel Hl Hf) as (h' & Hrun & Hl' & Hun & Hfr).
  exists h'. split_and!; [exact Hrun | exact Hl' | | exact Hfr].
  intros x Hx. unfold is_linked. rewrite (Hun x Hx). reflexivity.
Qed.

Lemma clear_unlinks_every_node_witness :
  is_list sample_memory 0 [1; 2]%nat /\ (length [1; 2]%nat < 3)%nat /\
  exists h',
    clear 3 0 sample_memory = Some (tt, h') /\
    is_list h' 0 [] /\
    (forall x, x ∈ [1; 2]%nat -> is_linked (Some x) h' = Some (false, h')) /\
    (forall y, y ∉ [0; 1; 2]%nat -> h' !! y = sample_memory !! y).
Proof.
  assert (H1 : (length [1; 2]%nat < 3)%nat) by (simpl; lia).
  split; [exact sample_memory_list | ]. split; [exact H1 | ].
  exact (clear_unlinks_every_node sample_memory 0 [1; 2]%nat 3
           sample_memory_list H1).
Defined.

(** X10.  Move construction: a list constructed at [this] from the list
    at [other] takes over its nodes in their order, and [other] is left
    an empty list. *)
Theorem move_construct_takes_nodes (h : memory) (this other : nat)
    (l : list nat) :
  is_list h other l -> valid h this -> this ∉ other :: l ->
  exists h',
    move_construct this other h = Some (tt, h') /\
    is_list h' this l /\ is_list h' other [] /\
    (forall y, y ∉ this :: other :: l -> h' !! y = h !! y).
Proof.
  intros Hl Hv Hthis. unfold move_construct.
  rewrite bind_store_next by exact Hv.
  rewrite bind_store_prev by solve_valid.
  set (h1 := set_prev this (Some this) (set_next this (Some this) h)).
  assert (Hl1 : is_list h1 other l).
  { eapply is_list_frame; [ | exact Hl]. intros y Hy. unfold h1.
    assert (this <> y) by (intros ->; contradiction).
    rewrite lookup_set_prev_ne, lookup_set_next_ne by assumption.
    reflexivity. }
  assert (Hl0 : is_list h1 this []).
  { split; [apply NoDup_singleton | ]. simpl. unfold h1.
    split_and!; [ | | exact I]; mem_simpl; reflexivity. }
  destruct (splice_list h1 this other [] l Hl0 Hl1)
    as (h' & Hrun & Hl' & Ho & Hf).
  { intros y Hy. apply list_elem_of_singleton in Hy as ->. exact Hthis. }
  exists h'. split_and!; [exact Hrun | exact Hl' | exact Ho | ].
  intros y Hy. rewrite Hf by set_solver. unfold h1.
  assert (this <> y) by (intros ->; set_solver).
  rewrite lookup_set_prev_ne, lookup_set_next_ne by assumption.
  reflexivity.
Qed.

Lemma move_construct_takes_nodes_witness :
  is_list sample_memory 0 [1; 2]%nat /\ valid sample_memory 3 /\
  (3%nat ∉ [0; 1; 2]%nat) /\
  exists h',
    move_construct 3 0 sample_memory = Some (tt, h') /\
    is_list h' 3 [1; 2]%nat /\ is_list h' 0 [] /\
    (forall y, y ∉ [3; 0; 1; 2]%nat -> h' !! y = sample_memory !! y).
Proof.
  assert (H : 3%nat ∉ [0; 1; 2]%nat)
    by (apply (bool_decide_unpack _); vm_compute; exact I).
  split; [exact sample_memory_list | ]. split; [exact sample_memory_valid | ].
  split; [exact H | ].
  exact (move_construct_takes_nodes sample_memory 3 0 [1; 2]%nat
           sample_memory_list sample_memory_valid H).
Defined.

(** X11.  Move assignment from another list: the nodes the target held
    are unlinked, the target takes over the nodes of [other] in their
    order, and [other] is left empty. *)
Theorem move_assign_replaces_nodes (h : memory) (this other : nat)
    (l1 l2 : list nat) (fuel : nat) :
  is_list h this l1 -> is_list h other l2 ->
  (forall y, y ∈ this :: l1 -> y ∉ other :: l2) ->
  (length l1 < fuel)%nat ->
  exists h',
    move_assign fuel this other h = Some (tt, h') /\
    is_list h' this l2 /\ is_list h' other [] /\
    (forall x, x ∈ l1 -> is_linked (Some x) h' = Some (false, h')).
Proof.
  intros Hl1 Hl2 Hdisj Hf. unfold move_assign.
  assert (Hne : this <> other) by (intros ->; eapply Hdisj; left).
  rewrite bool_decide_true by exact Hne.
  destruct (clear_list this l1 h fuel Hl1 Hf) as (h1 & Hrun & Hl' & Hun & Hfr).
  rewrite (bind_Some _ _ _ _ _ Hrun).
  assert (Hl2' : is_list h1 other l2).
  { eapply is_list_frame; [ | exact Hl2]. intros y Hy. apply Hfr.
    intros Hy'. exact (Hdisj y Hy' Hy). }
  destruct (splice_list h1 this other [] l2 Hl' Hl2')
    as (h' & Hrun' & Hl'' & Ho & Hf').
  { intros y Hy. apply Hdisj. set_solver. }
  exists h'. split_and!; [exact Hrun' | exact Hl'' | exact Ho | ].
  intros x Hx. unfold is_linked. rewrite Hf'.
  - rewrite (Hun x Hx). reflexivity.
  - destruct Hl1 as [Hnd _]. apply NoDup_cons in Hnd as [Hn _]. set_solver.
  - apply Hdisj. right. exact Hx.
Qed.

Lemma move_assign_replaces_nodes_witness :
  is_list sample_memory 0 [1; 2]%nat /\ is_list sample_memory 4 [5%nat] /\
  (forall y, y ∈ [0; 1; 2]%nat -> y ∉ [4; 5]%nat) /\
  (length [1; 2]%nat < 3)%nat /\
  exists h',
    move_assign 3 0 4 sample_memory = Some (tt, h') /\
    is_list h' 0 [5%nat] /\ is_list h' 4 [] /\
    (forall x, x ∈ [1; 2]%nat -> is_linked (Some x) h' = Some (false, h')).
Proof.
  assert (H1 : forall y, y ∈ [0; 1; 2]%nat -> y ∉ [4; 5]%nat).
  { intros y Hy Hy'. set_unfold. lia. }
  assert (H2 : (length [1; 2]%nat < 3)%nat) by (simpl; lia).
  split; [exact sample_memory_list | ]. split; [exact sample_memory_other | ].
  split; [exact H1 | ]. split; [exact H2 | ].
  exact (move_assign_replaces_nodes sample_memory 0 4 [1; 2]%nat [5%nat] 3
           sample_memory_list sample_memory_other H1 H2).
Defined.

(** X12.  [pop_front] on an empty list (its documented precondition
    broken) ends without a fault but destroys the list: the sentinel is
    unlinked from itself, so [empty] answers [false] afterwards although
    the list holds no node. *)
Theorem pop_front_on_empty_breaks_sentinel (h : memory) (this : nat) :
  is_list h this [] ->
  exists h',
    pop_front this h = Some (tt, h') /\
    empty this h' = Some (false, h') /\
    front this h' = Some (None, h').
Proof.
  intros Hl.
  assert (Hv : valid h this) by (eapply is_list_valid; [exact Hl | left]).
  destruct Hl as [_ Hc]. simpl in Hc. destruct Hc as (Hn & Hp & _).
  eexists. split_and!.
  - unfold pop_front, remove, unlink.
    mem_step. rewrite Hn. mem_step. rewrite Hp. mem_step. rewrite Hn.
    mem_step. mem_step. mem_step. mem_step. mem_step. mem_step.
    reflexivity.
  - unfold empty. mem_step. reflexivity.
  - unfold front. mem_step. reflexivity.
Qed.

Lemma pop_front_on_empty_breaks_sentinel_witness :
  is_list sample_memory 6 [] /\
  exists h',
    pop_front 6 sample_memory = Some (tt, h') /\
    empty 6 h' = Some (false, h') /\
    front 6 h' = Some (None, h').
Proof.
  split; [exact sample_memory_empty | ].
  exact (pop_front_on_empty_breaks_sentinel sample_memory 6
           sample_memory_empty).
Defined.

End LinkedList.

(** * The pool: slots are handed out once *)

Lemma pool_inv_count (Capacity : nat) (p : MemPool.t) (live : gset nat) :
  pool_inv Capacity p live ->
  (MemPool.free_count_ p + size live = Capacity)%nat.
Proof.
  intros [Hs Hc Hl]. apply Permutation_length in Hs.
  rewrite length_app, length_seq in Hs. unfold free_slots in Hs.
  rewrite length_take, Hl in Hs. unfold size, set_size. simpl. lia.
Qed.

Lemma pool_run_inv (Capacity : nat) (p : MemPool.t) (live : gset nat) :
  pool_run Capacity p live -> pool_inv Capacity p live.
Proof.
  induction 1 as [ | p live s p' _ IH Ha | p live s o _ IH Hs
                 | p live s _ IH Hs].
  - split.
    + rewrite elements_empty, app_nil_r. unfold free_slots. simpl.
      rewrite init_free_list. rewrite take_ge by (rewrite length_reverse, length_seq; lia).
      apply reverse_Permutation.
    + simpl. lia.
    + simpl. rewrite length_fmap, length_seq. reflexivity.
  - destruct IH as [Hs Hc Hl].
    destruct (allocate_Some p p' s Ha) as (Hfc & Hfl & _ & Hfs); [lia | ].
    assert (Hnd : NoDup (free_slots p ++ elements live)).
    { rewrite Hs. apply NoDup_seq. }
    assert (Hfresh : s ∉ live).
    { rewrite Hfs in Hnd. apply NoDup_app in Hnd as (_ & Hd & _).
      intros Hin. apply (Hd s); [set_solver | ].
      apply elem_of_elements. exact Hin. }
    split.
    + rewrite elements_union_singleton by exact Hfresh.
      rewrite <- Hs, Hfs, <- app_assoc. reflexivity.
    + lia.
    + rewrite Hfl. exact Hl.
  - destruct IH as [Hs' Hc Hl]. split.
    + rewrite free_slots_store. exact Hs'.
    + exact Hc.
    + exact Hl.
  - pose proof (pool_inv_count _ _ _ IH) as Hcount.
    destruct IH as [Hs' Hc Hl].
    assert (Hsize : (0 < size live)%nat).
    { destruct (decide (size live = 0%nat)) as [Hz | ]; [ | lia].
      apply size_empty_inv in Hz. set_solver. }
    split.
    + rewrite free_slots_deallocate by lia.
      rewrite <- Hs', <- app_assoc. apply Permutation_app_head.
      simpl.
      rewrite <- (elements_union_singleton (live ∖ {[s]}) s) by set_solver.
      apply elements_proper. intros x.
      destruct (decide (x = s)) as [-> | ]; set_solver.
    + simpl. lia.
    + simpl. rewrite length_insert. exact Hl.
Qed.

(** X13.  A pool used as documented never hands out a slot that is still
    allocated: [allocate] returns a slot of the buffer that is not live
    and takes it from the free count, and it returns null exactly when
    all [Capacity] slots are live; [allocated] and [available] count the
    live and the free slots. *)
Theorem allocate_returns_fresh_slot (Capacity : nat) (p : MemPool.t)
    (live : gset nat) :
  Z.of_nat Capacity < 2 ^ 64 ->
  pool_run Capacity p live ->
  MemPool.allocated Capacity p = Z.of_nat (size live) /\
  (MemPool.available p + size live = Capacity)%nat /\
  MemPool.full p = bool_decide (size live = Capacity) /\
  match MemPool.allocate p with
  | (Some s, p') =>
      (s ∉ live) /\ (s < Capacity)%nat /\
      S (MemPool.available p') = MemPool.available p
  | (None, p') => size live = Capacity /\ p' = p
  end.
Proof.
  intros Hcap Hrun. pose proof (pool_run_inv _ _ _ Hrun) as Hinv.
  pose proof (pool_inv_count _ _ _ Hinv) as Hcount.
  destruct Hinv as [Hs Hc Hl].
  split_and!.
  - unfold MemPool.allocated. rewrite wrap64_small; lia.
  - exact Hcount.
  - unfold MemPool.full. destruct (MemPool.free_count_ p) eqn:E.
    + simpl. symmetry. apply bool_decide_true. lia.
    + simpl. symmetry. apply bool_decide_false. lia.
  - destruct (MemPool.allocate p) as [[s | ] p'] eqn:Ha.
    + destruct (allocate_Some p p' s Ha) as (Hfc & Hfl & _ & Hfs); [lia | ].
      assert (Hnd : NoDup (free_slots p ++ elements live)).
      { rewrite Hs. apply NoDup_seq. }
      split_and!.
      * rewrite Hfs in Hnd. apply NoDup_app in Hnd as (_ & Hd & _).
        intros Hin. apply (Hd s); [set_solver | ].
        apply elem_of_elements. exact Hin.
      * assert (Hin : s ∈ seq 0 Capacity).
        { rewrite <- Hs, Hfs. set_solver. }
        apply elem_of_seq in Hin. lia.
      * unfold MemPool.available. lia.
    + apply allocate_None in Ha as [Hz ->]. split; [lia | reflexivity].
Qed.

Lemma sample_pool_run : pool_run 3 sample_pool {[1%nat]}.
Proof.
  replace ({[1%nat]} : gset nat)
    with (({[1%nat]} ∪ ({[0%nat]} ∪ ∅)) ∖ {[0%nat]} : gset nat)
    by (apply (bool_decide_unpack _); vm_compute; exact I).
  apply pool_run_deallocate;
    [ | apply (bool_decide_unpack _); vm_compute; exact I].
  apply pool_run_store;
    [ | apply (bool_decide_unpack _); vm_compute; exact I].
  apply (pool_run_allocate 3 (allocate_n 1 (MemPool.init 3)).2);
    [ | vm_compute; reflexivity].
  apply (pool_run_allocate 3 (MemPool.init 3));
    [apply pool_run_init | vm_compute; reflexivity].
Defined.

Lemma allocate_returns_fresh_slot_witness :
  (Z.of_nat 3 < 2 ^ 64) /\ pool_run 3 sample_pool {[1%nat]} /\
  MemPool.allocated 3 sample_pool = Z.of_nat (size ({[1%nat]} : gset nat)) /\
  (MemPool.available sample_pool + size ({[1%nat]} : gset nat) = 3)%nat /\
  MemPool.full sample_pool
  = bool_decide (size ({[1%nat]} : gset nat) = 3%nat) /\
  match MemPool.allocate sample_pool with
  | (Some s, p') =>
      (s ∉ ({[1%nat]} : gset nat)) /\ (s < 3)%nat /\
      S (MemPool.available p') = MemPool.available sample_pool
  | (None, p') => size ({[1%nat]} : gset nat) = 3%nat /\ p' = sample_pool
  end.
Proof.
  assert (H : Z.of_nat 3 < 2 ^ 64) by (simpl; lia).
  split; [exact H | ]. split; [exact sample_pool_run | ].
  exact (allocate_returns_fresh_slot 3 sample_pool {[1%nat]} H
           sample_pool_run).
Defined.

(** X14.  The free slots form a stack: a slot given back is the one the
    next [allocate] returns, and the pool is then as it was before the
    slot was given back. *)
Theorem deallocated_slot_is_reused (Capacity : nat) (p : MemPool.t)
    (live : gset nat) (s : nat) :
  pool_run Capacity p live -> s ∈ live ->
  exists p',
    MemPool.allocate (MemPool.deallocate s p) = (Some s, p') /\
    MemPool.buffer_ p' = MemPool.buffer_ p /\
    MemPool.available p' = MemPool.available p /\
    free_slots p' = free_slots p.
Proof.
  intros Hrun Hs. pose proof (pool_run_inv _ _ _ Hrun) as Hinv.
  pose proof (pool_inv_count _ _ _ Hinv) as Hcount.
  destruct Hinv as [_ Hc Hl].
  assert (Hsize : (0 < size live)%nat).
  { destruct (decide (size live = 0%nat)) as [Hz | ]; [ | lia].
    apply size_empty_inv in Hz. set_solver. }
  eexists. split_and!.
  - unfold MemPool.allocate, MemPool.deallocate. simpl.
    rewrite list_lookup_total_insert.
    rewrite decide_True by (split; [reflexivity | lia]). reflexivity.
  - reflexivity.
  - reflexivity.
  - unfold free_slots. simpl. rewrite take_insert_ge by lia. reflexivity.
Qed.

Lemma deallocated_slot_is_reused_witness :
  pool_run 3 sample_pool {[1%nat]} /\ 1%nat ∈ ({[1%nat]} : gset nat) /\
  exists p',
    MemPool.allocate (MemPool.deallocate 1 sample_pool) = (Some 1%nat, p') /\
    MemPool.buffer_ p' = MemPool.buffer_ sample_pool /\
    MemPool.available p' = MemPool.available sample_pool /\
    free_slots p' = free_slots sample_pool.
Proof.
  assert (H : 1%nat ∈ ({[1%nat]} : gset nat))
    by (apply (bool_decide_unpack _); vm_compute; exact I).
  split; [exact sample_pool_run | ]. split; [exact H | ].
  exact (deallocated_slot_is_reused 3 sample_pool {[1%nat]} 1
           sample_pool_run H).
Defined.

Lemma allocate_n_from (Capacity : nat) (n : nat) :
  forall (k : nat) (p : MemPool.t),
  (k <= Capacity)%nat ->
  MemPool.free_list_ p = reverse (seq 0 Capacity) ->
  MemPool.free_count_ p = (Capacity - k)%nat ->
  (allocate_n n p).1
  = (Some <$> seq k (n `min` (Capacity - k)))
    ++ replicate (n - (Capacity - k)) None.
Proof.
  induction n as [ | n IH]; intros k p Hk Hfl Hfc; [reflexivity | ].
  cbn [allocate_n]. unfold MemPool.allocate.
  destruct (MemPool.free_count_ p) as [ | m] eqn:E.
  - specialize (IH k p Hk Hfl). rewrite E in IH. specialize (IH Hfc).
    destruct (allocate_n n p) as [rs p2]. simpl in IH. simpl.
    rewrite IH. rewrite <- Hfc.
    rewrite Nat.min_0_r, Nat.sub_0_r. simpl. reflexivity.
  - specialize (IH (S k)
                  (MemPool.mk (MemPool.buffer_ p) (MemPool.free_list_ p) m)).
    destruct (allocate_n n _) as [rs p2]. simpl in IH. simpl.
    rewrite IH by (try assumption; lia).
    assert (Hlook : MemPool.free_list_ p !!! m = k).
    { rewrite Hfl. apply list_lookup_total_correct.
      rewrite reverse_lookup by (rewrite length_seq; lia).
      rewrite length_seq. apply lookup_seq. lia. }
    rewrite Hlook.
    replace (Capacity - S k)%nat with m by lia.
    rewrite <- Hfc. reflexivity.
Qed.

(** X15.  A pool just constructed hands out its slots in the order of
    the buffer: [n] calls of [allocate] return the slots [0], [1], ...
    and, once all [Capacity] slots are out, null. *)
Theorem fresh_pool_allocates_in_order (Capacity n : nat) :
  (allocate_n n (MemPool.init Capacity)).1
  = (Some <$> seq 0 (n `min` Capacity)) ++ replicate (n - Capacity) None.
Proof.
  rewrite (allocate_n_from Capacity n 0 (MemPool.init Capacity)).
  - rewrite Nat.sub_0_r. reflexivity.
  - lia.
  - simpl. apply init_free_list.
  - simpl. lia.
Qed.

(** * The book: accounting, cancellation and failure *)

Lemma wf_index_slots (Capacity : nat) (b : OrderBook.t) :
  wf Capacity b ->
  (map_to_list (OrderBook.order_map_ b)).*2
  ≡ₚ slots (OrderBook.bids_ b) ++ slots (OrderBook.asks_ b).
Proof.
  intros Hwf. apply NoDup_Permutation.
  - apply NoDup_fmap_2_strong; [ | apply NoDup_map_to_list].
    intros [i s] [j s'] Hi Hj Heq. simpl in Heq. subst s'.
    apply elem_of_map_to_list in Hi, Hj.
    destruct (wf_index _ _ _ _ _ _ Hwf i s Hi) as [_ Hi'].
    destruct (wf_index _ _ _ _ _ _ Hwf j s Hj) as [_ Hj'].
    congruence.
  - pose proof (wf_NoDup Hwf) as Hnd.
    apply NoDup_app in Hnd as (_ & _ & Hnd). exact Hnd.
  - intros s. split.
    + intros Hs. apply list_elem_of_fmap in Hs as ([i s'] & -> & Hin).
      apply elem_of_map_to_list in Hin.
      apply (wf_index _ _ _ _ _ _ Hwf i s' Hin).
    + intros Hs.
      assert (Hrest : exists P c, resting (OrderBook.order_map_ b)
                                    (OrderBook.pool_ b) P c s).
      { apply elem_of_app in Hs as [Hs | Hs];
          apply elem_of_slots in Hs as (l & Hl & Hsl).
        - pose proof (wf_own _ _ _ _ _ _ Hwf) as Hown.
          rewrite Forall_forall in Hown. destruct (Hown l Hl) as [_ Hf].
          rewrite Forall_forall in Hf. eauto.
        - pose proof (wf_opp _ _ _ _ _ _ Hwf) as Hopp.
          rewrite Forall_forall in Hopp. destruct (Hopp l Hl) as [_ Hf].
          rewrite Forall_forall in Hf. eauto. }
      destruct Hrest as (P & c & _ & _ & _ & Hidx).
      apply list_elem_of_fmap.
      exists (Order.id (MemPool.deref (OrderBook.pool_ b) s), s).
      split; [reflexivity | ]. apply elem_of_map_to_list. exact Hidx.
Qed.

Lemma wf_order_count (Capacity : nat) (b : OrderBook.t) :
  wf Capacity b ->
  (OrderBook.order_count b + MemPool.available (OrderBook.pool_ b)
   = Capacity)%nat.
Proof.
  intros Hwf. pose proof (wf_index_slots _ _ Hwf) as Hp.
  apply Permutation_length in Hp.
  rewrite length_fmap, length_app in Hp.
  pose proof (wf_count Hwf) as Hc.
  unfold OrderBook.order_count, MemPool.available.
  rewrite <- length_map_to_list. lia.
Qed.

(** X16.  The book accounts for every slot of its pool: in every
    reachable book the number of resting orders is the number of
    allocated slots, resting orders and free slots add up to
    [Capacity], and [empty] holds exactly when no order rests. *)
Theorem book_accounts_for_every_slot (Capacity : nat) (b : OrderBook.t) :
  Z.of_nat Capacity < 2 ^ 64 ->
  reachable Capacity b ->
  MemPool.allocated Capacity (OrderBook.pool_ b)
  = Z.of_nat (OrderBook.order_count b) /\
  (OrderBook.order_count b + MemPool.available (OrderBook.pool_ b)
   = Capacity)%nat /\
  OrderBook.empty b = bool_decide (OrderBook.order_count b = 0%nat).
Proof.
  intros Hcap Hr. pose proof (reachable_wf _ _ Hr) as Hwf.
  pose proof (wf_order_count _ _ Hwf) as Hcount.
  split_and!.
  - unfold MemPool.allocated. unfold MemPool.available in Hcount.
    rewrite wrap64_small; lia.
  - exact Hcount.
  - pose proof (wf_index_slots _ _ Hwf) as Hp.
    apply Permutation_length in Hp.
    rewrite length_fmap, length_app, length_map_to_list in Hp.
    fold (OrderBook.order_count b) in Hp.
    pose proof (wf_own _ _ _ _ _ _ Hwf) as Hown.
    pose proof (wf_opp _ _ _ _ _ _ Hwf) as Hopp.
    unfold OrderBook.empty.
    destruct (OrderBook.bids_ b) as [ | l ls] eqn:Eb.
    + destruct (OrderBook.asks_ b) as [ | l ls] eqn:Ea.
      * symmetry. apply bool_decide_true. simpl in Hp. exact Hp.
      * symmetry. apply bool_decide_false.
        apply Forall_cons in Hopp as [[Hne _] _].
        unfold slots in Hp. simpl in Hp. rewrite length_app in Hp.
        destruct (PriceLevel.orders l); [contradiction | simpl in Hp; lia].
    + symmetry. apply bool_decide_false.
      apply Forall_cons in Hown as [[Hne _] _].
      unfold slots in Hp. simpl in Hp. rewrite !length_app in Hp.
      destruct (PriceLevel.orders l); [contradiction | simpl in Hp; lia].
Qed.

Lemma book_accounts_for_every_slot_witness :
  (Z.of_nat 4 < 2 ^ 64) /\ reachable 4 bid_and_ask /\
  MemPool.allocated 4 (OrderBook.pool_ bid_and_ask)
  = Z.of_nat (OrderBook.order_count bid_and_ask) /\
  (OrderBook.order_count bid_and_ask
   + MemPool.available (OrderBook.pool_ bid_and_ask) = 4)%nat /\
  OrderBook.empty bid_and_ask
  = bool_decide (OrderBook.order_count bid_and_ask = 0%nat).
Proof.
  assert (H : Z.of_nat 4 < 2 ^ 64) by (simpl; lia).
  split; [exact H | ]. split; [exact bid_and_ask_reachable | ].
  exact (book_accounts_for_every_slot 4 bid_and_ask H bid_and_ask_reachable).
Defined.

Lemma book_fills_qty (stop : Z -> bool) (taker : Z) (mside : Side)
    (makers : list Order.t) :
  forall (rem : Z) (e : Execution.t),
  Forall (fun m => 0 < Order.qty m) makers ->
  e ∈ book_fills stop taker mside rem makers ->
  0 < Execution.qty e <= rem.
Proof.
  induction makers as [ | m makers IH]; intros rem e Hq He.
  - apply elem_of_nil in He. contradiction.
  - apply Forall_cons in Hq as [Hm Hq]. cbn [book_fills] in He.
    destruct ((rem >? 0) && negb (stop (Order.price m))) eqn:E.
    + apply andb_true_iff in E as [Hrem _].
      apply elem_of_cons in He as [-> | He].
      * cbn [Execution.qty]. lia.
      * specialize (IH _ _ Hq He). lia.
    + apply elem_of_nil in He. contradiction.
Qed.

Lemma wf_makers_resting (Capacity : nat) (c : Side)
    (own opp : list PriceLevel.t) (om : gmap Z nat) (p : MemPool.t)
    (m : Order.t) :
  wf_parts Capacity c own opp om p ->
  m ∈ MemPool.deref p <$> slots opp ->
  0 < Order.qty m < 2 ^ 32 /\ is_Some (om !! Order.id m).
Proof.
  intros Hwf Hm. apply list_elem_of_fmap in Hm as (s & -> & Hs).
  apply elem_of_slots in Hs as (l & Hl & Hsl).
  pose proof (wf_opp _ _ _ _ _ _ Hwf) as Hopp.
  rewrite Forall_forall in Hopp. destruct (Hopp l Hl) as [_ Hf].
  rewrite Forall_forall in Hf. destruct (Hf s Hsl) as (_ & _ & Hq & Hi).
  split; [exact Hq | eauto].
Qed.

(** X17.  Every execution [add_order] reports is well formed: it names
    the incoming order as taker and, as maker, another order that was
    resting in the book on the opposite side; its quantity is positive
    and at most the order's, and its price is never worse for the taker
    than the order's limit. *)
Theorem executions_respect_the_limit (Capacity : nat) (b : OrderBook.t)
    (id price qty : Z) (side : Side) (on_execution : bool)
    (e : Execution.t) :
  reachable Capacity b -> is_u32 qty ->
  e ∈ OrderBook.executions
        (OrderBook.add_order b id price qty side on_execution) ->
  Execution.taker_id e = id /\
  Execution.maker_side e = opposite side /\
  Execution.maker_id e <> id /\
  is_Some (OrderBook.order_map_ b !! Execution.maker_id e) /\
  0 < Execution.qty e <= qty /\
  match side with
  | Buy => Execution.price e <= price
  | Sell => price <= Execution.price e
  end.
Proof.
  intros Hr Hqty He. pose proof (reachable_wf _ _ Hr) as Hwf.
  destruct (OrderBook.order_map_ b !! id) as [s0 | ] eqn:Hid.
  { unfold OrderBook.add_order in He. rewrite Hid in He. simpl in He.
    apply elem_of_nil in He. contradiction. }
  pose proof (wf_ladders Capacity side b Hwf) as Hparts.
  rewrite (add_order_executions b id price qty side on_execution Hid) in He.
  destruct (match_levels_wf Capacity side _ _ _ _ id price qty on_execution
              Hparts Hqty) as (_ & _ & _ & _ & Hrep & _).
  rewrite Hrep in He. destruct on_execution;
    [ | apply elem_of_nil in He; contradiction].
  destruct (book_fills_maker _ _ _ _ _ _ He)
    as (m & Hm & Hmid & Hmp & Htaker & Hside & Hstop).
  destruct (wf_makers_resting _ _ _ _ _ _ m Hparts Hm) as [Hmq Hmi].
  split_and!.
  - exact Htaker.
  - exact Hside.
  - rewrite Hmid. intros Heq. rewrite Heq, Hid in Hmi.
    destruct Hmi as [? Hmi]. discriminate.
  - rewrite Hmid. exact Hmi.
  - eapply book_fills_qty; [ | exact He].
    apply Forall_forall. intros m' Hm'.
    apply (wf_makers_resting _ _ _ _ _ _ m' Hparts Hm').
  - eapply book_fills_qty; [ | exact He].
    apply Forall_forall. intros m' Hm'.
    apply (wf_makers_resting _ _ _ _ _ _ m' Hparts Hm').
  - destruct side; simpl in Hstop; lia.
Qed.

Lemma executions_respect_the_limit_witness :
  let e := Execution.mk 1 2 1000000 30 Buy in
  reachable 4 one_bid /\ is_u32 30 /\
  e ∈ OrderBook.executions (OrderBook.add_order one_bid 2 990000 30 Sell true)
  /\
  Execution.taker_id e = 2 /\
  Execution.maker_side e = opposite Sell /\
  Execution.maker_id e <> 2 /\
  is_Some (OrderBook.order_map_ one_bid !! Execution.maker_id e) /\
  0 < Execution.qty e <= 30 /\
  990000 <= Execution.price e.
Proof.
  intros e.
  assert (H1 : is_u32 30) by (unfold is_u32; lia).
  assert (H2 : e ∈ OrderBook.executions
                     (OrderBook.add_order one_bid 2 990000 30 Sell true)).
  { vm_compute. apply list_elem_of_here. }
  split; [exact one_bid_reachable | ]. split; [exact H1 | ].
  split; [exact H2 | ].
  exact (executions_respect_the_limit 4 one_bid 2 990000 30 Sell true e
           one_bid_reachable H1 H2).
Defined.

Lemma with_ladders_ladder (c : Side) (b : OrderBook.t) :
  with_ladders c (ladder c b) (ladder (opposite c) b)
    (OrderBook.order_map_ b) (OrderBook.pool_ b) = b.
Proof. destruct c, b; reflexivity. Qed.

Lemma match_levels_nothing (stop : Z -> bool) (mside : Side) (c : ascii)
    (L : list PriceLevel.t) (taker rem : Z) (cb : bool)
    (om : gmap Z nat) (p : MemPool.t) :
  Forall (level_ok om p c) L ->
  book_fills stop taker mside rem (MemPool.deref p <$> slots L) = [] ->
  match_levels stop mside L taker rem cb om p
  = OrderBook.Matched rem L om p [].
Proof.
  intros Hok Hfills. destruct L as [ | l L]; [reflexivity | ].
  cbn [match_levels].
  destruct (rem >? 0) eqn:Hrem; [ | reflexivity].
  destruct (stop (PriceLevel.price l)) eqn:Hstop; [reflexivity | ].
  exfalso. apply Forall_cons in Hok as [[Hne Hl] _].
  destruct (PriceLevel.orders l) as [ | s q] eqn:Eq; [contradiction | ].
  apply Forall_cons in Hl as [(Hp & _) _].
  rewrite slots_cons, Eq in Hfills. simpl in Hfills.
  rewrite Hp, Hrem, Hstop in Hfills. discriminate.
Qed.

(** X18.  [add_order] fails atomically: whenever it returns [false] on a
    reachable book, nothing was executed or reported and the book is
    unchanged; the identifier was already resting or the pool had no
    free slot when the call was made. *)
Theorem add_order_fails_atomically (Capacity : nat) (b : OrderBook.t)
    (id price qty : Z) (side : Side) (on_execution : bool) :
  reachable Capacity b -> is_u32 qty ->
  OrderBook.returned (OrderBook.add_order b id price qty side on_execution)
  = false ->
  OrderBook.add_order b id price qty side on_execution
  = OrderBook.Outcome false b [] /\
  (is_Some (OrderBook.order_map_ b !! id) \/
   MemPool.available (OrderBook.pool_ b) = 0%nat).
Proof.
  intros Hr Hqty Hret. pose proof (reachable_wf _ _ Hr) as Hwf.
  destruct (OrderBook.order_map_ b !! id) as [s0 | ] eqn:Hid.
  { split; [ | left; eauto].
    unfold OrderBook.add_order. rewrite Hid. reflexivity. }
  pose proof (wf_ladders Capacity side b Hwf) as Hparts.
  pose proof (add_order_parts b id price qty side on_execution Hid) as Hadd.
  destruct (match_levels_wf Capacity side _ _ _ _ id price qty on_execution
              Hparts Hqty) as (_ & _ & _ & _ & Hrep & _).
  pose proof (match_levels_no_fill Capacity side _ _ _ _ id price qty
                on_execution Hparts Hqty) as Hnofill.
  pose proof (match_levels_nothing (ahead (opposite side) price)
                (opposite side) _ _ id qty on_execution _ _
                (wf_opp _ _ _ _ _ _ Hparts)) as Hnothing.
  cbv zeta in Hadd, Hnofill.
  set (r := match_levels _ _ _ _ _ _ _ _) in *.
  rewrite Hadd in Hret |- *.
  destruct (OrderBook.m_remaining r =? 0) eqn:Hrem; [discriminate | ].
  destruct (MemPool.allocate (OrderBook.m_pool r)) as [[s | ] p1] eqn:Ha;
    [discriminate | ].
  apply allocate_None in Ha as [Hfc _].
  assert (Hfills : book_fills (ahead (opposite side) price) id
                     (opposite side) qty
                     (MemPool.deref (OrderBook.pool_ b)
                        <$> slots (ladder (opposite side) b)) = []).
  { apply Hnofill; [lia | exact Hfc]. }
  specialize (Hnothing Hfills).
  rewrite Hnothing in Hfc |- *. simpl in Hfc |- *.
  rewrite with_ladders_ladder. split; [reflexivity | right; exact Hfc].
Qed.

Lemma add_order_fails_atomically_witness :
  reachable 1 full_pool /\ is_u32 5 /\
  OrderBook.returned (OrderBook.add_order full_pool 2 99 5 Buy true) = false /\
  OrderBook.add_order full_pool 2 99 5 Buy true
  = OrderBook.Outcome false full_pool [] /\
  (is_Some (OrderBook.order_map_ full_pool !! 2) \/
   MemPool.available (OrderBook.pool_ full_pool) = 0%nat).
Proof.
  assert (H1 : is_u32 5) by (unfold is_u32; lia).
  assert (H2 : OrderBook.returned
                 (OrderBook.add_order full_pool 2 99 5 Buy true) = false)
    by (vm_compute; reflexivity).
  split; [exact full_pool_reachable | ]. split; [exact H1 | ].
  split; [exact H2 | ].
  exact (add_order_fails_atomically 1 full_pool 2 99 5 Buy true
           full_pool_reachable H1 H2).
Defined.

(** X19.  The quantity of an incoming order is conserved: what the
    executions of [add_order] fill is at most the order's quantity;
    when the whole quantity is filled the identifier does not rest, and
    otherwise (the call returning [true]) the order rests under its
    identifier with its price, its side and exactly the unfilled
    quantity. *)
Theorem taker_quantity_is_conserved (Capacity : nat) (b : OrderBook.t)
    (id price qty : Z) (side : Side) :
  reachable Capacity b -> is_u32 qty ->
  OrderBook.order_map_ b !! id = None ->
  let r := OrderBook.add_order b id price qty side true in
  let traded := filled (OrderBook.executions r) in
  0 <= traded <= qty /\
  (OrderBook.returned r = true ->
   if traded =? qty
   then OrderBook.order_map_ (OrderBook.book r) !! id = None
   else
     exists s,
       OrderBook.order_map_ (OrderBook.book r) !! id = Some s /\
       MemPool.deref (OrderBook.pool_ (OrderBook.book r)) s
       = Order.mk id price (qty - traded) (Side_to_char side)).
Proof.
  intros Hr Hqty Hid r traded. pose proof (reachable_wf _ _ Hr) as Hwf.
  pose proof (wf_ladders Capacity side b Hwf) as Hparts.
  pose proof (add_order_parts b id price qty side true Hid) as Hadd.
  destruct (match_levels_wf Capacity side _ _ _ _ id price qty true
              Hparts Hqty)
    as (Hwf' & _ & Hrange & Hnone & Hrep & Hrem & _).
  cbv zeta in Hadd.
  set (m := match_levels _ _ _ _ _ _ _ _) in *.
  assert (Hexec : OrderBook.executions r = OrderBook.m_reported m).
  { unfold r. rewrite Hadd.
    destruct (OrderBook.m_remaining m =? 0); [reflexivity | ].
    destruct (MemPool.allocate (OrderBook.m_pool m)) as [[s | ] p1];
      reflexivity. }
  assert (Htraded : OrderBook.m_remaining m = qty - traded).
  { unfold traded. rewrite Hexec, Hrep. exact Hrem. }
  split; [lia | ].
  unfold r. rewrite Hadd.
  destruct (OrderBook.m_remaining m =? 0) eqn:Hz.
  - intros _. replace (traded =? qty) with true by lia.
    destruct side; simpl; apply Hnone, Hid.
  - destruct (MemPool.allocate (OrderBook.m_pool m)) as [[s | ] p1] eqn:Ha;
      [ | discriminate].
    intros _. replace (traded =? qty) with false by lia.
    exists s.
    destruct (allocate_Some _ _ _ Ha) as (_ & _ & Hbuf & Hfree).
    { rewrite (wf_free_len _ _ _ _ _ _ Hwf').
      apply (wf_free_count _ _ _ _ _ _ Hwf'). }
    assert (Hlt : (s < length (MemPool.buffer_ p1))%nat).
    { rewrite Hbuf, (wf_buffer_len _ _ _ _ _ _ Hwf').
      apply (wf_slot_lt Hwf'). rewrite Hfree. set_solver. }
    split.
    + destruct side; simpl; apply lookup_insert_eq.
    + assert (Hd : MemPool.deref
                     (MemPool.store s
                        (Order.mk id price (OrderBook.m_remaining m)
                           (Side_to_char side)) p1) s
                   = Order.mk id price (OrderBook.m_remaining m)
                       (Side_to_char side)).
      { rewrite deref_store. rewrite decide_True by (split; [reflexivity | exact Hlt]).
        reflexivity. }
      rewrite Htraded in Hd. destruct side; simpl; rewrite <- Htraded; rewrite <- Htraded in Hd; exact Hd.
Qed.

Lemma taker_quantity_is_conserved_witness :
  let r := OrderBook.add_order one_bid 2 990000 130 Sell true in
  reachable 4 one_bid /\ is_u32 130 /\
  OrderBook.order_map_ one_bid !! 2 = None /\
  0 <= filled (OrderBook.executions r) <= 130 /\
  (OrderBook.returned r = true ->
   if filled (OrderBook.executions r) =? 130
   then OrderBook.order_map_ (OrderBook.book r) !! 2 = None
   else
     exists s,
       OrderBook.order_map_ (OrderBook.book r) !! 2 = Some s /\
       MemPool.deref (OrderBook.pool_ (OrderBook.book r)) s
       = Order.mk 2 990000 (130 - filled (OrderBook.executions r))
           (Side_to_char Sell)).
Proof.
  intros r.
  assert (H1 : is_u32 130) by (unfold is_u32; lia).
  assert (H2 : OrderBook.order_map_ one_bid !! 2 = None)
    by (vm_compute; reflexivity).
  split; [exact one_bid_reachable | ]. split; [exact H1 | ].
  split; [exact H2 | ].
  exact (taker_quantity_is_conserved 4 one_bid 2 990000 130 Sell
           one_bid_reachable H1 H2).
Defined.

Lemma wf_indexed_on_ladder (Capacity : nat) (c : Side)
    (own opp : list PriceLevel.t) (om : gmap Z nat) (p : MemPool.t)
    (i : Z) (s : nat) :
  wf_parts Capacity c own opp om p ->
  om !! i = Some s ->
  Order.side (MemPool.deref p s) = Side_to_char c ->
  exists l, l ∈ own /\ s ∈ PriceLevel.orders l /\
            Order.price (MemPool.deref p s) = PriceLevel.price l.
Proof.
  intros Hwf Hi Hside.
  destruct (wf_index _ _ _ _ _ _ Hwf i s Hi) as [Hs _].
  apply elem_of_app in Hs as [Hs | Hs];
    apply elem_of_slots in Hs as (l & Hl & Hsl).
  - pose proof (wf_own _ _ _ _ _ _ Hwf) as Hown.
    rewrite Forall_forall in Hown. destruct (Hown l Hl) as [_ Hf].
    rewrite Forall_forall in Hf. destruct (Hf s Hsl) as (Hp & _).
    exists l. auto.
  - pose proof (wf_opp _ _ _ _ _ _ Hwf) as Hopp.
    rewrite Forall_forall in Hopp. destruct (Hopp l Hl) as [_ Hf].
    rewrite Forall_forall in Hf. destruct (Hf s Hsl) as (_ & Hc & _).
    rewrite Hc in Hside. apply Side_to_char_inj in Hside.
    destruct c; discriminate.
Qed.

Lemma wf_front_is_best (Capacity : nat) (c : Side)
    (own opp : list PriceLevel.t) (om : gmap Z nat) (p : MemPool.t) :
  wf_parts Capacity c own opp om p ->
  match own with
  | [] =>
      forall i s, om !! i = Some s ->
        Order.side (MemPool.deref p s) <> Side_to_char c
  | l :: _ =>
      PriceLevel.empty l = false /\
      (exists i s, om !! i = Some s /\
         Order.side (MemPool.deref p s) = Side_to_char c /\
         Order.price (MemPool.deref p s) = PriceLevel.price l) /\
      (forall i s, om !! i = Some s ->
         Order.side (MemPool.deref p s) = Side_to_char c ->
         ahead c (Order.price (MemPool.deref p s)) (PriceLevel.price l)
         = false)
  end.
Proof.
  intros Hwf. destruct own as [ | l rest] eqn:Eown.
  - intros i s Hi Hside.
    destruct (wf_indexed_on_ladder _ _ _ _ _ _ i s Hwf Hi Hside)
      as (l & Hl & _).
    apply elem_of_nil in Hl. contradiction.
  - pose proof (wf_own _ _ _ _ _ _ Hwf) as Hown.
    apply Forall_cons in Hown as [[Hne Hl] _].
    split_and!.
    + destruct (PriceLevel.empty l) eqn:E; [ | reflexivity].
      apply PriceLevel_empty_iff in E. contradiction.
    + destruct (PriceLevel.orders l) as [ | s q] eqn:Eq; [contradiction | ].
      apply Forall_cons in Hl as [(Hp & Hc & _ & Hi) _].
      eauto 6.
    + intros i s Hi Hside.
      destruct (wf_indexed_on_ladder _ _ _ _ _ _ i s Hwf Hi Hside)
        as (l' & Hl' & _ & Hp).
      rewrite Hp. apply elem_of_cons in Hl' as [-> | Hl'].
      * apply ahead_irrefl.
      * pose proof (wf_own_sorted _ _ _ _ _ _ Hwf) as Hsorted.
        apply StronglySorted_inv in Hsorted as [_ Hall].
        rewrite Forall_forall in Hall. specialize (Hall l' Hl').
        destruct c; simpl in Hall |- *; lia.
Qed.

(** X20.  The best prices are the extreme prices of the resting orders:
    in every reachable book [best_bid] is the price of a resting buy
    order and no resting buy order has a higher price, [best_ask] is the
    price of a resting sell order and no resting sell order has a lower
    price, and each is absent exactly when no order rests on its
    side. *)
Theorem best_prices_are_extremal (Capacity : nat) (b : OrderBook.t) :
  reachable Capacity b ->
  let om := OrderBook.order_map_ b in
  let order s := MemPool.deref (OrderBook.pool_ b) s in
  match OrderBook.best_bid b with
  | Some p =>
      (exists i s, om !! i = Some s /\ Order.is_buy (order s) = true /\
                   Order.price (order s) = p) /\
      (forall i s, om !! i = Some s -> Order.is_buy (order s) = true ->
                   Order.price (order s) <= p)
  | None =>
      forall i s, om !! i = Some s -> Order.is_buy (order s) = false
  end /\
  match OrderBook.best_ask b with
  | Some p =>
      (exists i s, om !! i = Some s /\ Order.is_sell (order s) = true /\
                   Order.price (order s) = p) /\
      (forall i s, om !! i = Some s -> Order.is_sell (order s) = true ->
                   p <= Order.price (order s))
  | None =>
      forall i s, om !! i = Some s -> Order.is_sell (order s) = false
  end.
Proof.
  intros Hr om order. pose proof (reachable_wf _ _ Hr) as Hwf.
  pose proof (wf_front_is_best _ _ _ _ _ _ (wf_ladders Capacity Buy b Hwf))
    as Hbid.
  pose proof (wf_front_is_best _ _ _ _ _ _ (wf_ladders Capacity Sell b Hwf))
    as Hask.
  cbn [ladder opposite Side_to_char] in Hbid, Hask. split.
  - unfold OrderBook.best_bid.
    destruct (OrderBook.bids_ b) as [ | l rest].
    + intros i s Hi. unfold Order.is_buy.
      destruct (Ascii.eqb _ _) eqn:E; [ | reflexivity].
      apply Ascii.eqb_eq in E. exfalso. exact (Hbid i s Hi E).
    + destruct Hbid as (-> & (i & s & Hi & Hside & Hp) & Hmax). split.
      * exists i, s. split_and!; [exact Hi | | exact Hp].
        unfold Order.is_buy. apply Ascii.eqb_eq. exact Hside.
      * intros j t Hj Hbuy. unfold Order.is_buy in Hbuy.
        apply Ascii.eqb_eq in Hbuy. specialize (Hmax j t Hj Hbuy).
        simpl in Hmax. unfold order. lia.
  - unfold OrderBook.best_ask.
    destruct (OrderBook.asks_ b) as [ | l rest].
    + intros i s Hi. unfold Order.is_sell.
      destruct (Ascii.eqb _ _) eqn:E; [ | reflexivity].
      apply Ascii.eqb_eq in E. exfalso. exact (Hask i s Hi E).
    + destruct Hask as (-> & (i & s & Hi & Hside & Hp) & Hmin). split.
      * exists i, s. split_and!; [exact Hi | | exact Hp].
        unfold Order.is_sell. apply Ascii.eqb_eq. exact Hside.
      * intros j t Hj Hsell. unfold Order.is_sell in Hsell.
        apply Ascii.eqb_eq in Hsell. specialize (Hmin j t Hj Hsell).
        simpl in Hmin. unfold order. lia.
Qed.

Lemma best_prices_are_extremal_witness :
  reachable 4 bid_and_ask /\
  let om := OrderBook.order_map_ bid_and_ask in
  let order s := MemPool.deref (OrderBook.pool_ bid_and_ask) s in
  match OrderBook.best_bid bid_and_ask with
  | Some p =>
      (exists i s, om !! i = Some s /\ Order.is_buy (order s) = true /\
                   Order.price (order s) = p) /\
      (forall i s, om !! i = Some s -> Order.is_buy (order s) = true ->
                   Order.price (order s) <= p)
  | None =>
      forall i s, om !! i = Some s -> Order.is_buy (order s) = false
  end /\
  match OrderBook.best_ask bid_and_ask with
  | Some p =>
      (exists i s, om !! i = Some s /\ Order.is_sell (order s) = true /\
                   Order.price (order s) = p) /\
      (forall i s, om !! i = Some s -> Order.is_sell (order s) = true ->
                   p <= Order.price (order s))
  | None =>
      forall i s, om !! i = Some s -> Order.is_sell (order s) = false
  end.
Proof.
  split; [exact bid_and_ask_reachable | ].
  exact (best_prices_are_extremal 4 bid_and_ask bid_and_ask_reachable).
Defined.

(** X21.  [cancel_order] of a resting identifier takes out exactly that
    order: it returns [true], the identifier leaves the index, both
    ladders keep their other orders in the same queue order, no order is
    written, one slot returns to the pool, and cancelling the same
    identifier again returns [false] and changes nothing. *)
Theorem cancel_removes_exactly_one (Capacity : nat) (b : OrderBook.t)
    (id : Z) (s : nat) :
  reachable Capacity b ->
  OrderBook.order_map_ b !! id = Some s ->
  let r := OrderBook.cancel_order b id in
  r.1 = true /\
  OrderBook.order_map_ r.2 = delete id (OrderBook.order_map_ b) /\
  slots (OrderBook.bids_ r.2)
  = filter (fun x => x <> s) (slots (OrderBook.bids_ b)) /\
  slots (OrderBook.asks_ r.2)
  = filter (fun x => x <> s) (slots (OrderBook.asks_ b)) /\
  (forall s', MemPool.deref (OrderBook.pool_ r.2) s'
              = MemPool.deref (OrderBook.pool_ b) s') /\
  MemPool.available (OrderBook.pool_ r.2)
  = S (MemPool.available (OrderBook.pool_ b)) /\
  OrderBook.cancel_order r.2 id = (false, r.2).
Proof.
  intros Hr Hid r. pose proof (reachable_wf _ _ Hr) as Hwf.
  destruct (cancel_order_parts Capacity b id s Hwf Hid) as (c & Hs & Hc).
  unfold r. rewrite Hc. cbn [fst snd].
  pose proof (wf_ladders Capacity c b Hwf) as Hparts.
  pose proof (wf_NoDup Hparts) as Hnd.
  apply NoDup_app in Hnd as (_ & _ & Hnd).
  pose proof Hnd as Hnd'.
  apply NoDup_app in Hnd' as (Hnd1 & Hdisj & Hnd2).
  destruct (remove_from_levels_spec c (OrderBook.order_map_ b)
              (OrderBook.pool_ b) (Side_to_char c) s (ladder c b)
              (wf_own_sorted _ _ _ _ _ _ Hparts)
              (wf_own _ _ _ _ _ _ Hparts) Hnd1 Hs) as (Hslots & _).
  assert (Hother : slots (ladder (opposite c) b)
                   = filter (fun x => x <> s)
                       (slots (ladder (opposite c) b))).
  { symmetry. apply filter_ne_id. exact (Hdisj s Hs). }
  split_and!.
  - reflexivity.
  - destruct c; reflexivity.
  - destruct c; simpl in *; assumption.
  - destruct c; simpl in *; assumption.
  - intros s'. destruct c; simpl; apply deref_deallocate.
  - destruct c; reflexivity.
  - unfold OrderBook.cancel_order.
    replace (OrderBook.order_map_
               (with_ladders c
                  (OrderBook.remove_from_levels (ladder c b)
                     (OrderBook.pool_ b) s)
                  (ladder (opposite c) b)
                  (delete id (OrderBook.order_map_ b))
                  (MemPool.deallocate s (OrderBook.pool_ b))))
      with (delete id (OrderBook.order_map_ b)) by (destruct c; reflexivity).
    rewrite lookup_delete_eq. reflexivity.
Qed.

Lemma cancel_removes_exactly_one_witness :
  let r := OrderBook.cancel_order bid_and_ask 1 in
  reachable 4 bid_and_ask /\
  OrderBook.order_map_ bid_and_ask !! 1 = Some 0%nat /\
  r.1 = true /\
  OrderBook.order_map_ r.2 = delete 1 (OrderBook.order_map_ bid_and_ask) /\
  slots (OrderBook.bids_ r.2)
  = filter (fun x => x <> 0%nat) (slots (OrderBook.bids_ bid_and_ask)) /\
  slots (OrderBook.asks_ r.2)
  = filter (fun x => x <> 0%nat) (slots (OrderBook.asks_ bid_and_ask)) /\
  (forall s', MemPool.deref (OrderBook.pool_ r.2) s'
              = MemPool.deref (OrderBook.pool_ bid_and_ask) s') /\
  MemPool.available (OrderBook.pool_ r.2)
  = S (MemPool.available (OrderBook.pool_ bid_and_ask)) /\
  OrderBook.cancel_order r.2 1 = (false, r.2).
Proof.
  intros r.
  assert (H : OrderBook.order_map_ bid_and_ask !! 1 = Some 0%nat)
    by (vm_compute; reflexivity).
  split; [exact bid_and_ask_reachable | ]. split; [exact H | ].
  exact (cancel_removes_exactly_one 4 bid_and_ask 1 0
           bid_and_ask_reachable H).
Defined.

Lemma match_levels_no_cross (stop : Z -> bool) (mside : Side)
    (L : list PriceLevel.t) (taker rem : Z) (cb : bool)
    (om : gmap Z nat) (p : MemPool.t) :
  (forall lx, lx ∈ L -> stop (PriceLevel.price lx) = true) ->
  match_levels stop mside L taker rem cb om p
  = OrderBook.Matched rem L om p [].
Proof.
  intros Hstop. destruct L as [ | l L]; [reflexivity | ].
  cbn [match_levels]. rewrite (Hstop l) by left.
  destruct (rem >? 0); reflexivity.
Qed.

Lemma remove_new_level_empty (p : MemPool.t) (s : nat) (P : Z) :
  PriceLevel.empty
    (PriceLevel.remove_order p s
       (PriceLevel.add_order p s (PriceLevel.new P))) = true.
Proof.
  unfold PriceLevel.empty, PriceLevel.remove_order, PriceLevel.add_order,
    PriceLevel.new.
  cbn [PriceLevel.orders]. unfold IntrusiveList.remove,
    IntrusiveList.push_back, IntrusiveList.t.
  simpl app. rewrite filter_cons_False by (intros H; apply H; reflexivity).
  reflexivity.
Qed.

Section RemoveAdd.
Variable comp : PriceLevel.t -> Z -> bool.
Variable p : MemPool.t.
Variable s : nat.
Let v : Z := Order.price (MemPool.deref p s).
Let q : Z := Order.qty (MemPool.deref p s).

Lemma remove_add_levels (ls : list PriceLevel.t) :
  (forall l, l ∈ ls -> comp l v = true -> PriceLevel.price l <> v) ->
  Forall (fun l => PriceLevel.orders l <> [] /\
                   (s ∉ PriceLevel.orders l) /\
                   0 <= PriceLevel.total_volume l /\
                   PriceLevel.total_volume l + q < 2 ^ 64) ls ->
  0 <= q ->
  OrderBook.remove_from_levels (OrderBook.add_to_levels comp ls p s) p s
  = ls.
Proof.
  intros Hcomp Hls Hq. induction ls as [ | l ls IH].
  - rewrite add_to_levels_nil. cbn [OrderBook.remove_from_levels].
    fold v. replace (PriceLevel.price
                       (PriceLevel.add_order p s (PriceLevel.new v)) =? v)
      with true by (symmetry; apply Z.eqb_refl).
    rewrite remove_new_level_empty. reflexivity.
  - apply Forall_cons in Hls as [(Hne & Hs & Hv0 & Hv1) Hls].
    rewrite add_to_levels_cons. fold v.
    destruct (comp l v) eqn:Ec.
    + cbn [OrderBook.remove_from_levels]. fold v.
      replace (PriceLevel.price l =? v) with false.
      2:{ symmetry. apply Z.eqb_neq. apply Hcomp; [left | exact Ec]. }
      rewrite IH; [reflexivity | | exact Hls].
      intros l' Hl'. apply Hcomp. right. exact Hl'.
    + destruct (PriceLevel.price l =? v) eqn:Ep.
      * cbn [OrderBook.remove_from_levels PriceLevel.add_order
             PriceLevel.price]. fold v. rewrite Ep.
        unfold PriceLevel.remove_order, PriceLevel.empty,
          PriceLevel.add_order.
        cbn [PriceLevel.orders PriceLevel.price PriceLevel.total_volume].
        fold q.
        assert (Hf : IntrusiveList.remove s
                       (IntrusiveList.push_back s (PriceLevel.orders l))
                     = PriceLevel.orders l).
        { unfold IntrusiveList.remove, IntrusiveList.push_back,
            IntrusiveList.t.
          rewrite filter_app, filter_ne_id by exact Hs.
          rewrite filter_cons_False by (intros H; apply H; reflexivity).
          apply app_nil_r. }
        rewrite Hf.
        rewrite (wrap64_small (PriceLevel.total_volume l + q)) by lia.
        replace (q <=? PriceLevel.total_volume l + q) with true by lia.
        replace (PriceLevel.total_volume l + q - q)
          with (PriceLevel.total_volume l) by lia.
        rewrite wrap64_small by lia.
        destruct l as [P o tv]. simpl in *.
        destruct o; [contradiction | reflexivity].
      * cbn [OrderBook.remove_from_levels]. fold v.
        replace (PriceLevel.price
                   (PriceLevel.add_order p s (PriceLevel.new v)) =? v)
          with true by (symmetry; apply Z.eqb_refl).
        rewrite remove_new_level_empty. reflexivity.
Qed.
End RemoveAdd.

(** X22.  Entering an order that crosses no price of the opposite ladder
    and then cancelling it restores the book: the order rests without
    any execution, and after the cancellation both ladders (levels,
    queues and cached volumes), the identifier index and the stack of
    free slots are those before the order was entered. *)
Theorem add_then_cancel_restores_book (Capacity : nat) (b : OrderBook.t)
    (id price qty : Z) (side : Side) (on_execution : bool) :
  Z.of_nat Capacity <= 2 ^ 32 ->
  reachable Capacity b -> is_u32 qty -> qty <> 0 ->
  OrderBook.order_map_ b !! id = None ->
  (forall lx, lx ∈ ladder (opposite side) b ->
     ahead (opposite side) price (PriceLevel.price lx) = true) ->
  MemPool.available (OrderBook.pool_ b) <> 0%nat ->
  let r := OrderBook.add_order b id price qty side on_execution in
  let c := OrderBook.cancel_order (OrderBook.book r) id in
  OrderBook.returned r = true /\ OrderBook.executions r = [] /\
  is_Some (OrderBook.order_map_ (OrderBook.book r) !! id) /\
  c.1 = true /\
  OrderBook.bids_ c.2 = OrderBook.bids_ b /\
  OrderBook.asks_ c.2 = OrderBook.asks_ b /\
  OrderBook.order_map_ c.2 = OrderBook.order_map_ b /\
  free_slots (OrderBook.pool_ c.2) = free_slots (OrderBook.pool_ b) /\
  MemPool.available (OrderBook.pool_ c.2)
  = MemPool.available (OrderBook.pool_ b).
Proof.
  intros Hcap Hr Hqty Hq0 Hid Hnocross Havail r c.
  pose proof (reachable_wf _ _ Hr) as Hwf.
  pose proof (reachable_volumes _ _ Hcap Hr) as [Hvb Hva].
  pose proof (wf_ladders Capacity side b Hwf) as Hparts.
  pose proof (add_order_parts b id price qty side on_execution Hid) as Hadd.
  cbv zeta in Hadd.
  rewrite (match_levels_no_cross _ _ _ _ _ _ _ _ Hnocross) in Hadd.
  cbn [OrderBook.m_remaining OrderBook.m_target OrderBook.m_index
       OrderBook.m_pool OrderBook.m_reported] in Hadd.
  replace (qty =? 0) with false in Hadd by lia.
  set (p := OrderBook.pool_ b) in *.
  set (om := OrderBook.order_map_ b) in *.
  destruct (MemPool.allocate p) as [[s | ] p1] eqn:Ha.
  2:{ apply allocate_None in Ha as [Hz _]. contradiction. }
  destruct (allocate_Some _ _ _ Ha) as (Hfc & Hfl & Hbuf & Hfree).
  { rewrite (wf_free_len _ _ _ _ _ _ Hparts).
    apply (wf_free_count _ _ _ _ _ _ Hparts). }
  set (o := Order.mk id price qty (Side_to_char side)) in *.
  set (p2 := MemPool.store s o p1) in *.
  assert (Hsfree : s ∈ free_slots p) by (rewrite Hfree; set_solver).
  assert (Hlt : (s < length (MemPool.buffer_ p1))%nat).
  { rewrite Hbuf, (wf_buffer_len _ _ _ _ _ _ Hparts).
    apply (wf_slot_lt Hparts). set_solver. }
  assert (Hderef : MemPool.deref p2 s = o).
  { unfold p2. rewrite deref_store.
    rewrite decide_True by (split; [reflexivity | exact Hlt]). reflexivity. }
  pose proof (wf_NoDup Hparts) as Hnd.
  apply NoDup_app in Hnd as (_ & Hdisj & _). specialize (Hdisj s Hsfree).
  assert (Hvol : Forall (volume_ok p) (ladder side b)).
  { destruct side; assumption. }
  assert (Hback :
    OrderBook.remove_from_levels
      (OrderBook.add_to_levels
         (fun level v => ahead side (PriceLevel.price level) v)
         (ladder side b) p2 s) p2 s = ladder side b).
  { apply remove_add_levels.
    - rewrite Hderef. simpl. intros l _ Hl. destruct side; simpl in Hl; lia.
    - rewrite Hderef. simpl. apply Forall_forall. intros l Hl.
      pose proof (wf_own _ _ _ _ _ _ Hparts) as Hown.
      rewrite Forall_forall in Hown. destruct (Hown l Hl) as [Hne _].
      rewrite Forall_forall in Hvol. specialize (Hvol l Hl).
      unfold volume_ok in Hvol. fold p in Hvol.
      pose proof (wf_level_sum Hparts l) as Hsum.
      assert (Hin : l ∈ ladder side b ++ ladder (opposite side) b)
        by set_solver.
      specialize (Hsum Hin). fold p in Hsum.
      unfold is_u32 in Hqty.
      split_and!.
      + exact Hne.
      + intros Hs. apply Hdisj. apply elem_of_app. left.
        apply elem_of_slots. eauto.
      + lia.
      + rewrite Hvol. nia.
    - rewrite Hderef. simpl. unfold is_u32 in Hqty. lia. }
  assert (Hfree2 : free_slots (MemPool.deallocate s p2) = free_slots p).
  { rewrite free_slots_deallocate.
    - unfold p2. rewrite free_slots_store, Hfree. reflexivity.
    - unfold p2. simpl. rewrite Hfl.
      rewrite (wf_free_len _ _ _ _ _ _ Hparts).
      pose proof (wf_free_count _ _ _ _ _ _ Hparts). lia. }
  assert (Hav2 : MemPool.available (MemPool.deallocate s p2)
                 = MemPool.available p).
  { unfold MemPool.available, p2. simpl. lia. }
  assert (Hom : delete id (<[id := s]> om) = om)
    by (apply delete_insert_id; exact Hid).
  unfold c, r. rewrite Hadd. cbn [OrderBook.returned OrderBook.executions
                                   OrderBook.book].
  split; [reflexivity | ]. split; [reflexivity | ].
  split.
  { exists s. destruct side; simpl; apply lookup_insert_eq. }
  unfold OrderBook.cancel_order.
  destruct side; cbn [with_ladders OrderBook.order_map_ OrderBook.bids_
                      OrderBook.asks_ OrderBook.pool_ ladder opposite] in *.
  - rewrite lookup_insert_eq.
    cbn [OrderBook.order_map_ OrderBook.bids_ OrderBook.asks_
         OrderBook.pool_].
    rewrite Hderef. replace (Order.is_buy o) with true by reflexivity.
    cbn [OrderBook.remove_from_bids OrderBook.order_map_ OrderBook.bids_
         OrderBook.asks_ OrderBook.pool_ fst snd].
    rewrite Hback, Hom. split_and!; try reflexivity; assumption.
  - rewrite lookup_insert_eq.
    cbn [OrderBook.order_map_ OrderBook.bids_ OrderBook.asks_
         OrderBook.pool_].
    rewrite Hderef. replace (Order.is_buy o) with false by reflexivity.
    cbn [OrderBook.remove_from_asks OrderBook.order_map_ OrderBook.bids_
         OrderBook.asks_ OrderBook.pool_ fst snd].
    rewrite Hback, Hom. split_and!; try reflexivity; assumption.
Qed.

Lemma add_then_cancel_restores_book_witness :
  let r := OrderBook.add_order one_bid 2 1010000 50 Sell true in
  let c := OrderBook.cancel_order (OrderBook.book r) 2 in
  (Z.of_nat 4 <= 2 ^ 32) /\ reachable 4 one_bid /\ is_u32 50 /\ 50 <> 0 /\
  OrderBook.order_map_ one_bid !! 2 = None /\
  (forall lx, lx ∈ ladder (opposite Sell) one_bid ->
     ahead (opposite Sell) 1010000 (PriceLevel.price lx) = true) /\
  MemPool.available (OrderBook.pool_ one_bid) <> 0%nat /\
  OrderBook.returned r = true /\ OrderBook.executions r = [] /\
  is_Some (OrderBook.order_map_ (OrderBook.book r) !! 2) /\
  c.1 = true /\
  OrderBook.bids_ c.2 = OrderBook.bids_ one_bid /\
  OrderBook.asks_ c.2 = OrderBook.asks_ one_bid /\
  OrderBook.order_map_ c.2 = OrderBook.order_map_ one_bid /\
  free_slots (OrderBook.pool_ c.2) = free_slots (OrderBook.pool_ one_bid) /\
  MemPool.available (OrderBook.pool_ c.2)
  = MemPool.available (OrderBook.pool_ one_bid).
Proof.
  intros r c.
  assert (H1 : Z.of_nat 4 <= 2 ^ 32) by (simpl; lia).
  assert (H2 : is_u32 50) by (unfold is_u32; lia).
  assert (H3 : 50 <> 0) by lia.
  assert (H4 : OrderBook.order_map_ one_bid !! 2 = None)
    by (vm_compute; reflexivity).
  assert (H5 : forall lx, lx ∈ ladder (opposite Sell) one_bid ->
                 ahead (opposite Sell) 1010000 (PriceLevel.price lx) = true).
  { intros lx Hlx.
    replace (ladder (opposite Sell) one_bid)
      with [PriceLevel.mk 1000000 [0%nat] 100] in Hlx
      by (vm_compute; reflexivity).
    apply list_elem_of_singleton in Hlx. subst lx. reflexivity. }
  assert (H6 : MemPool.available (OrderBook.pool_ one_bid) <> 0%nat)
    by (vm_compute; discriminate).
  split; [exact H1 | ]. split; [exact one_bid_reachable | ].
  split; [exact H2 | ]. split; [exact H3 | ]. split; [exact H4 | ].
  split; [exact H5 | ]. split; [exact H6 | ].
  exact (add_then_cancel_restores_book 4 one_bid 2 1010000 50 Sell true
           H1 one_bid_reachable H2 H3 H4 H5 H6).
Defined.

(** * Decoding: further properties *)

Lemma byte_of_Z_val (b : byte) (x : Z) :
  byte_of_Z (x * 256 + byte_val b) = b.
Proof.
  unfold byte_of_Z. pose proof (byte_val_range b) as Hb.
  replace ((x * 256 + byte_val b) mod 256) with (byte_val b)
    by (Z.div_mod_to_equations; lia).
  unfold byte_val. rewrite N2Z.id, Byte.of_to_N. reflexivity.
Qed.

Lemma be_bytes_be_value (bs : list byte) :
  be_bytes (length bs) (be_value bs) = bs.
Proof.
  induction bs as [ | b bs IH] using rev_ind; [reflexivity | ].
  rewrite length_app, Nat.add_comm. cbn [length Nat.add be_bytes].
  rewrite be_value_snoc. pose proof (byte_val_range b) as Hb.
  replace ((be_value bs * 256 + byte_val b) / 256) with (be_value bs)
    by (Z.div_mod_to_equations; lia).
  rewrite IH, byte_of_Z_val. reflexivity.
Qed.

Lemma field_join (buffer : list byte) (offset n m offset' : nat) :
  offset' = (offset + n)%nat ->
  field buffer offset n ++ field buffer offset' m
  = field buffer offset (n + m).
Proof.
  intros ->. unfold field. rewrite <- take_take_drop, drop_drop.
  reflexivity.
Qed.

Lemma field_one (buffer : list byte) (offset : nat) :
  (offset < length buffer)%nat ->
  [buffer !!! offset] = field buffer offset 1.
Proof.
  intros H. destruct (lookup_lt_is_Some_2 buffer offset H) as [x Hx].
  rewrite (list_lookup_total_correct _ _ _ Hx). unfold field.
  rewrite (drop_S _ _ _ Hx). reflexivity.
Qed.

Lemma be_bytes_get (k : bool) (size : nat) (buffer : list byte)
    (offset : nat) :
  size ∈ [2; 4; 8]%nat -> (offset + size <= length buffer)%nat ->
  be_bytes size (BigEndian_get k size buffer offset)
  = field buffer offset size.
Proof.
  intros Hs Hl. rewrite BigEndian_get_be by assumption.
  rewrite <- (field_length buffer offset size Hl) at 1.
  apply be_bytes_be_value.
Qed.

Lemma be_bytes_nanoseconds (buffer : list byte) (offset : nat) :
  (offset + 6 <= length buffer)%nat ->
  be_bytes 6 (Timestamp48.nanoseconds (field buffer offset 6))
  = field buffer offset 6.
Proof.
  intros Hl. rewrite nanoseconds_be by (apply field_length; exact Hl).
  rewrite <- (field_length buffer offset 6 Hl) at 1.
  apply be_bytes_be_value.
Qed.

(** X23.  The views read every byte of a message: laying out again the
    fields decoded from a buffer gives back the 36 bytes of an Add Order
    message and the 31 bytes of an Order Executed message, on hosts of
    either byte order.  Two messages that decode to the same fields are
    the same bytes. *)
Theorem decoded_fields_determine_the_bytes (kIsBigEndian : bool)
    (buffer : list byte) :
  ((36 <= length buffer)%nat ->
   Wire.layout_add_order (decoded_add_order kIsBigEndian buffer)
   = take 36 buffer) /\
  ((31 <= length buffer)%nat ->
   Wire.layout_order_executed (decoded_order_executed kIsBigEndian buffer)
   = take 31 buffer).
Proof.
  split; intros Hl.
  - unfold Wire.layout_add_order, decoded_add_order.
    cbn [Wire.a_msg_type Wire.a_stock_locate Wire.a_tracking_number
         Wire.a_timestamp Wire.a_order_ref Wire.a_side Wire.a_shares
         Wire.a_stock Wire.a_price].
    unfold AddOrder.msg_type, AddOrder.stock_locate,
      AddOrder.tracking_number, AddOrder.timestamp, AddOrder.order_ref,
      AddOrder.side, AddOrder.shares, AddOrder.stock, AddOrder.price.
    rewrite !be_bytes_get by (try lia; set_solver).
    rewrite be_bytes_nanoseconds by lia.
    rewrite !field_one by lia.
    rewrite (field_join buffer 24 8 4 32) by reflexivity.
    rewrite (field_join buffer 20 4 _ 24) by reflexivity.
    rewrite (field_join buffer 19 1 _ 20) by reflexivity.
    rewrite (field_join buffer 11 8 _ 19) by reflexivity.
    rewrite (field_join buffer 5 6 _ 11) by reflexivity.
    rewrite (field_join buffer 3 2 _ 5) by reflexivity.
    rewrite (field_join buffer 1 2 _ 3) by reflexivity.
    rewrite (field_join buffer 0 1 _ 1) by reflexivity.
    reflexivity.
  - unfold Wire.layout_order_executed, decoded_order_executed.
    cbn [Wire.e_msg_type Wire.e_stock_locate Wire.e_tracking_number
         Wire.e_timestamp Wire.e_order_ref Wire.e_executed_shares
         Wire.e_match_number].
    unfold OrderExecuted.msg_type, OrderExecuted.stock_locate,
      OrderExecuted.tracking_number, OrderExecuted.timestamp,
      OrderExecuted.order_ref, OrderExecuted.executed_shares,
      OrderExecuted.match_number.
    rewrite !be_bytes_get by (try lia; set_solver).
    rewrite be_bytes_nanoseconds by lia.
    rewrite !field_one by lia.
    rewrite (field_join buffer 19 4 8 23) by reflexivity.
    rewrite (field_join buffer 11 8 _ 19) by reflexivity.
    rewrite (field_join buffer 5 6 _ 11) by reflexivity.
    rewrite (field_join buffer 3 2 _ 5) by reflexivity.
    rewrite (field_join buffer 1 2 _ 3) by reflexivity.
    rewrite (field_join buffer 0 1 _ 1) by reflexivity.
    reflexivity.
Qed.

Lemma decoded_fields_determine_the_bytes_witness :
  let buffer := Wire.layout_add_order scenario_add_order in
  (36 <= length buffer)%nat /\ (31 <= length buffer)%nat /\
  Wire.layout_add_order (decoded_add_order false buffer) = take 36 buffer /\
  Wire.layout_order_executed (decoded_order_executed false buffer)
  = take 31 buffer.
Proof.
  intros buffer.
  assert (H1 : (36 <= length buffer)%nat) by (vm_compute; lia).
  assert (H2 : (31 <= length buffer)%nat) by (vm_compute; lia).
  split; [exact H1 | ]. split; [exact H2 | ].
  destruct (decoded_fields_determine_the_bytes false buffer) as [Ha He].
  split; [exact (Ha H1) | exact (He H2)].
Defined.

Lemma bswap16_twice (v : Z) :
  0 <= v < 2 ^ 16 -> bswap16 false (bswap16 false v) = v.
Proof.
  intros Hv.
  set (a := v mod 256). set (b := v / 256).
  assert (Ha : 0 <= a < 256) by (subst a; Z.div_mod_to_equations; lia).
  assert (Hb : 0 <= b < 256) by (subst b; Z.div_mod_to_equations; lia).
  replace v with (a + 256 * (b + 256 * 0))
    by (subst a b; Z.div_mod_to_equations; lia).
  rewrite bswap16_le by assumption.
  replace (a * 256 + b) with (b + 256 * (a + 256 * 0)) by lia.
  rewrite bswap16_le by assumption. lia.
Qed.

Lemma bswap32_twice (v : Z) :
  0 <= v < 2 ^ 32 -> bswap32 false (bswap32 false v) = v.
Proof.
  intros Hv.
  set (a := v mod 256). set (b := (v / 256) mod 256).
  set (c := (v / 256 ^ 2) mod 256). set (d := v / 256 ^ 3).
  assert (Ha : 0 <= a < 256) by (subst a; Z.div_mod_to_equations; lia).
  assert (Hb : 0 <= b < 256) by (subst b; Z.div_mod_to_equations; lia).
  assert (Hc : 0 <= c < 256) by (subst c; Z.div_mod_to_equations; lia).
  assert (Hd : 0 <= d < 256) by (subst d; Z.div_mod_to_equations; lia).
  replace v with (a + 256 * (b + 256 * (c + 256 * (d + 256 * 0))))
    by (subst a b c d; Z.div_mod_to_equations; lia).
  rewrite bswap32_le by assumption.
  replace (((a * 256 + b) * 256 + c) * 256 + d)
    with (d + 256 * (c + 256 * (b + 256 * (a + 256 * 0)))) by lia.
  rewrite bswap32_le by assumption. lia.
Qed.

Lemma bswap64_twice (v : Z) :
  0 <= v < 2 ^ 64 -> bswap64 false (bswap64 false v) = v.
Proof.
  intros Hv.
  set (a := v mod 256). set (b := (v / 256) mod 256).
  set (c := (v / 256 ^ 2) mod 256). set (d := (v / 256 ^ 3) mod 256).
  set (e := (v / 256 ^ 4) mod 256). set (f := (v / 256 ^ 5) mod 256).
  set (g := (v / 256 ^ 6) mod 256). set (h := v / 256 ^ 7).
  assert (Ha : 0 <= a < 256) by (subst a; Z.div_mod_to_equations; lia).
  assert (Hb : 0 <= b < 256) by (subst b; Z.div_mod_to_equations; lia).
  assert (Hc : 0 <= c < 256) by (subst c; Z.div_mod_to_equations; lia).
  assert (Hd : 0 <= d < 256) by (subst d; Z.div_mod_to_equations; lia).
  assert (He : 0 <= e < 256) by (subst e; Z.div_mod_to_equations; lia).
  assert (Hf : 0 <= f < 256) by (subst f; Z.div_mod_to_equations; lia).
  assert (Hg : 0 <= g < 256) by (subst g; Z.div_mod_to_equations; lia).
  assert (Hh : 0 <= h < 256) by (subst h; Z.div_mod_to_equations; lia).
  replace v
    with (a + 256 * (b + 256 * (c + 256 * (d + 256 * (e + 256 * (f + 256 *
            (g + 256 * (h + 256 * 0))))))))
    by (subst a b c d e f g h; Z.div_mod_to_equations; lia).
  rewrite bswap64_le by assumption.
  replace (((((((a * 256 + b) * 256 + c) * 256 + d) * 256 + e) * 256 + f)
             * 256 + g) * 256 + h)
    with (h + 256 * (g + 256 * (f + 256 * (e + 256 * (d + 256 * (c + 256 *
            (b + 256 * (a + 256 * 0)))))))) by lia.
  rewrite bswap64_le by assumption. lia.
Qed.

(** X24.  Converting twice is the identity: for a value of a 1-, 2-, 4-
    or 8-byte unsigned type, [ntoh] applied to the result of [ntoh] gives
    the value back, on hosts of either byte order. *)
Theorem ntoh_twice_is_identity (kIsBigEndian : bool) (size : nat) (v : Z) :
  size ∈ [1; 2; 4; 8]%nat -> 0 <= v < 256 ^ Z.of_nat size ->
  ntoh kIsBigEndian size (ntoh kIsBigEndian size v) = v.
Proof.
  intros Hs Hv.
  assert (Hsize : size = 1%nat \/ size = 2%nat \/ size = 4%nat
                  \/ size = 8%nat) by set_solver.
  destruct kIsBigEndian.
  - destruct Hsize as [-> | [-> | [-> | ->]]]; reflexivity.
  - destruct Hsize as [-> | [-> | [-> | ->]]]; cbn [ntoh].
    + reflexivity.
    + apply bswap16_twice. exact Hv.
    + apply bswap32_twice. exact Hv.
    + apply bswap64_twice. exact Hv.
Qed.

Lemma ntoh_twice_is_identity_witness :
  4%nat ∈ [1; 2; 4; 8]%nat /\ 0 <= 16909060 < 256 ^ Z.of_nat 4 /\
  ntoh false 4 16909060 = 67305985 /\
  ntoh false 4 (ntoh false 4 16909060) = 16909060.
Proof.
  assert (H1 : 4%nat ∈ [1; 2; 4; 8]%nat)
    by (apply (bool_decide_unpack _); vm_compute; exact I).
  assert (H2 : 0 <= 16909060 < 256 ^ Z.of_nat 4) by (simpl; lia).
  split; [exact H1 | ]. split; [exact H2 | ].
  split; [vm_compute; reflexivity | ].
  exact (ntoh_twice_is_identity false 4 16909060 H1 H2).
Defined.

Lemma equals_padded (data str : list byte) :
  length data = 8%nat -> x00 ∉ str ->
  StockSymbol.equals data str
  = bytes_eqb data (take 8 (str ++ replicate 8 x20)).
Proof.
  intros Hd Hn.
  assert (Hnul : forall c, c ∈ str -> Byte.eqb c x00 = false).
  { intros c Hc. destruct (Byte.eqb c x00) eqn:E; [ | reflexivity].
    apply byte_eqb_eq in E. subst c. contradiction. }
  destruct data
    as [ | d0 [ | d1 [ | d2 [ | d3 [ | d4 [ | d5 [ | d6 [ | d7 [ | ? ?]]]]]]]]];
    try discriminate Hd. clear Hd Hn.
  do 9 (try destruct str as [ | ? str]).
  all: unfold StockSymbol.equals.
  all: cbn [StockSymbol.match_chars StockSymbol.char_at nth lookup_total
            list_lookup_total length take bytes_eqb app replicate firstn].
  all: rewrite ?Hnul by (set_unfold; tauto).
  all: change (Byte.eqb x00 x00) with true.
  all: repeat match goal with
       | |- context [Byte.eqb ?a ?b] =>
           destruct (Byte.eqb a b); cbn -[Byte.eqb]; try reflexivity
       end.
Qed.

(** X25.  What [StockSymbol::equals] decides, for every query: it
    returns [true] exactly when the eight bytes of the slot are the
    first eight characters of the query padded on the right with
    spaces.  A shorter query must be followed by spaces only; of a
    longer query only the first eight characters are compared. *)
Theorem equals_compares_eight_padded_bytes (data str : list byte) :
  length data = 8%nat -> x00 ∉ str ->
  StockSymbol.equals data str = true
  <-> data = take 8 (str ++ replicate 8 x20).
Proof.
  intros Hd Hn. rewrite equals_padded by assumption. apply bytes_eqb_eq.
Qed.

Lemma equals_compares_eight_padded_bytes_witness :
  let data := list_byte_of_string "AAPL    " in
  let str := list_byte_of_string "AAPL" in
  length data = 8%nat /\ (x00 ∉ str) /\
  (StockSymbol.equals data str = true
   <-> data = take 8 (str ++ replicate 8 x20)).
Proof.
  intros data str.
  assert (H1 : length data = 8%nat) by reflexivity.
  assert (H2 : x00 ∉ str).
  { unfold str.
    replace (list_byte_of_string "AAPL")
      with ["A"%byte; "A"%byte; "P"%byte; "L"%byte] by reflexivity.
    rewrite !not_elem_of_cons.
    repeat split; try discriminate. apply not_elem_of_nil. }
  split; [exact H1 | ]. split; [exact H2 | ].
  exact (equals_compares_eight_padded_bytes data str H1 H2).
Defined.

(** * Locating the message in a packet *)

Section PacketOffset.
Import PythonBindings.

Lemma try_offsets_find (offsets : list nat) (data : list byte) (len : nat) :
  try_offsets offsets data len
  = List.find
      (fun o => (o <? len)%nat && is_valid_itch_type (data !!! o)) offsets.
Proof.
  induction offsets as [ | o rest IH]; [reflexivity | ].
  cbn [try_offsets List.find].
  destruct (o <? len)%nat; [ | exact IH].
  destruct (is_valid_itch_type (data !!! o)); [ | exact IH].
  cbn [andb]. destruct (o + 3 <=? len)%nat; [ | reflexivity].
  destruct (plausible_locate data o); reflexivity.
Qed.

Lemma search_Some (data : list byte) (len : nat) (n : nat) :
  forall (offset o : nat),
  search n offset data len = Some o ->
  (offset <= o < offset + n)%nat /\
  is_valid_itch_type (data !!! o) = true /\
  (o + 3 <= len)%nat /\ plausible_locate data o = true.
Proof.
  induction n as [ | n IH]; intros offset o H; [discriminate | ].
  cbn [search] in H.
  destruct (is_valid_itch_type (data !!! offset)) eqn:Ev.
  - destruct (offset + 3 <=? len)%nat eqn:El.
    + destruct (plausible_locate data offset) eqn:Ep.
      * injection H as <-. apply Nat.leb_le in El. split_and!; auto; lia.
      * apply IH in H. split_and!; try tauto; lia.
    + apply IH in H. split_and!; try tauto; lia.
  - apply IH in H. split_and!; try tauto; lia.
Qed.

(** X26.  The offset [find_itch_offset] returns is always below 100, and
    unless it is the last resort 42 it lies inside the packet at a byte
    that is a valid ITCH message type. *)
Theorem find_itch_offset_points_at_a_type (data : list byte) (len : nat) :
  let r := find_itch_offset data len in
  (r < 100)%nat /\
  (r <> 42%nat ->
   (r < len)%nat /\ is_valid_itch_type (data !!! r) = true).
Proof.
  intros r. unfold r, find_itch_offset.
  rewrite try_offsets_find.
  destruct (List.find _ OFFSETS) as [o | ] eqn:Ef.
  - apply List.find_some in Ef as [Hin Hok].
    apply andb_true_iff in Hok as [Hlt Hv]. apply Nat.ltb_lt in Hlt.
    split; [ | intros _; split; assumption].
    unfold OFFSETS in Hin. simpl in Hin. lia.
  - destruct (search _ 0 data len) as [o | ] eqn:Es.
    + apply search_Some in Es as (Hr & Hv & Hl & _). split.
      * destruct (len <? SEARCH_LIMIT)%nat eqn:E; unfold SEARCH_LIMIT in *.
        -- apply Nat.ltb_lt in E. lia.
        -- lia.
      * intros _. split; [lia | exact Hv].
    + split; [lia | intros H; contradiction].
Qed.

(** X27.  At the known offsets the locate code plays no part: whenever
    one of the six known offsets lies inside the packet at a valid type
    byte, [find_itch_offset] returns the first such offset, whatever the
    two bytes after it are. *)
Theorem known_offset_is_taken_first (data : list byte) (len : nat)
    (o : nat) :
  List.find
    (fun o => (o <? len)%nat && is_valid_itch_type (data !!! o)) OFFSETS
  = Some o ->
  find_itch_offset data len = o.
Proof.
  intros H. unfold find_itch_offset. rewrite try_offsets_find, H.
  reflexivity.
Qed.

Lemma known_offset_is_taken_first_witness :
  List.find
    (fun o => (o <? 50)%nat
              && is_valid_itch_type (sample_packet !!! o)) OFFSETS
  = Some 46%nat /\
  plausible_locate sample_packet 46 = false /\
  find_itch_offset sample_packet 50 = 46%nat.
Proof.
  assert (H : List.find
                (fun o => (o <? 50)%nat
                          && is_valid_itch_type (sample_packet !!! o))
                OFFSETS = Some 46%nat) by (vm_compute; reflexivity).
  split; [exact H | ]. split; [vm_compute; reflexivity | ].
  exact (known_offset_is_taken_first sample_packet 50 46 H).
Defined.

End PacketOffset.
